(** * intelx-downloader: preview and combolist core

    A shallow embedding of the text-processing core of [index.js]
    (the interactive IntelX client): the domain classifier [isDomain], the
    credential extractor [extractCredentials], the batch loop of
    [generateCombolist], the context matcher [findContextInFile], the
    ANSI-aware wrapper [wrapLine] and the context-line rendering of
    [formatPreview]; then the parser of the file tree [parseFileTree],
    the request [getFilePreview], and, from the menu loop of [main], the
    prompt for the number of files, the navigation and the layout of the
    preview, the names of the files, the export and the download of the
    files of a tree.

    Modelling conventions.
    - A JavaScript string is a list of code units.  The code units modelled
      are those below 256, carried by [ascii]; [code] gives the numeric
      value.  On that range the regular-expression [Canonicalize]
      operation acts unit by unit, and so does [toLowerCase] on a string
      of such units.
    - [toLowerCase] is not a unit-by-unit operation on other strings, and
      the context matcher tests the lower-case forms of whole lines: it is
      modelled a second time in [Utf16], on strings of 16-bit code units,
      with [toLowerCase] defined from the case data of the Unicode
      Character Database.  What is said of the matcher and the case of
      letters is said there; the two models agree on strings of units
      below 256 ([findContextInFile_widen]).
    - JavaScript numbers that hold lengths, indices and widths are [Z];
      the one multiplication by [0.7] is done in IEEE binary64 with the
      standard library's [SpecFloat].
    - Regular expressions are syntax trees run by a backtracking matcher
      that follows the pattern semantics of ECMAScript (greedy quantifiers,
      ordered alternation, capture groups, the [i] flag). *)

From Stdlib Require Import Ascii String.
From Stdlib Require Import List ZArith NArith Lia Bool Arith.
From Stdlib Require Import Sorted Permutation.
From Stdlib Require Import SpecFloat DecimalString.
Import ListNotations.

(* ================================================================== *)
(** * JavaScript strings *)
(* ================================================================== *)

Module JsString.

(** A string value: the sequence of its code units. *)
Definition str := list ascii.

(** String literals of the source are written [lit "..."]. *)
Definition lit (s : string) : str := list_ascii_of_string s.

(** Numeric value of a code unit. *)
Definition code (c : ascii) : N := N_of_ascii c.

Definition eqc (a b : ascii) : bool := Ascii.eqb a b.

Fixpoint eqs (a b : str) : bool :=
  match a, b with
  | [], [] => true
  | x :: a', y :: b' => eqc x y && eqs a' b'
  | _, _ => false
  end.

(** [WhiteSpace] and [LineTerminator] code units below 256: TAB, LF, VT, FF,
    CR, SPACE and NO-BREAK SPACE.  This is the set of [\s] and of [trim]. *)
Definition isSpace (c : ascii) : bool :=
  let n := code c in
  (((9 <=? n) && (n <=? 13)) || (n =? 32) || (n =? 160))%N.

(** [String.prototype.toLowerCase] on a string of code units below 256,
    where it acts code unit by code unit: A-Z and the capitals
    U+00C0..U+00DE other than the multiplication sign move by 32.  The
    function on every string is [Utf16.toLowerCase]. *)
Definition lowerChar (c : ascii) : ascii :=
  let n := code c in
  if (((65 <=? n) && (n <=? 90)) ||
      ((192 <=? n) && (n <=? 222) && negb (n =? 215)))%N
  then ascii_of_N (n + 32) else c.

Definition toLowerCase (s : str) : str := map lowerChar s.

(** [s.startsWith(p)] as a prefix test. *)
Fixpoint startsWith (p s : str) : bool :=
  match p, s with
  | [], _ => true
  | a :: p', b :: s' => eqc a b && startsWith p' s'
  | _ :: _, [] => false
  end.

(** [s.includes(p)]: [p] occurs in [s] as a contiguous substring. *)
Fixpoint includes (s p : str) : bool :=
  startsWith p s ||
  match s with
  | [] => false
  | _ :: s' => includes s' p
  end.

(** [s.split(sep)] for a one-unit separator.  The result is never empty:
    the empty string splits into one empty piece. *)
Fixpoint splitOn (sep : ascii) (s : str) : list str :=
  match s with
  | [] => [[]]
  | c :: s' =>
      if eqc c sep then [] :: splitOn sep s'
      else match splitOn sep s' with
           | [] => [[c]]
           | p :: ps => (c :: p) :: ps
           end
  end.

(** [a.join(sep)]. *)
Fixpoint join (sep : str) (l : list str) : str :=
  match l with
  | [] => []
  | [x] => x
  | x :: l' => x ++ sep ++ join sep l'
  end.

Fixpoint dropWhile (p : ascii -> bool) (s : str) : str :=
  match s with
  | [] => []
  | c :: s' => if p c then dropWhile p s' else s
  end.

Fixpoint takeWhile (p : ascii -> bool) (s : str) : str :=
  match s with
  | [] => []
  | c :: s' => if p c then c :: takeWhile p s' else []
  end.

(** [trimStart], [trimEnd] and [trim]. *)
Definition trimStart (s : str) : str := dropWhile isSpace s.
Definition trimEnd (s : str) : str := rev (dropWhile isSpace (rev s)).
Definition trim (s : str) : str := trimEnd (trimStart s).

(** Length as a JavaScript number. *)
Definition len (s : str) : Z := Z.of_nat (length s).

(** [s.substring(a, b)] with [a = 0]: negative ends clamp to 0, ends past
    the length clamp to the length. *)
Definition substring0 (s : str) (b : Z) : str := firstn (Z.to_nat b) s.

(** [s.lastIndexOf(c)] for a one-unit needle: the greatest index holding
    [c], or -1. *)
Fixpoint lastIndexOfFrom (c : ascii) (i : Z) (s : str) (found : Z) : Z :=
  match s with
  | [] => found
  | x :: s' => lastIndexOfFrom c (i + 1) s' (if eqc x c then i else found)
  end.

Definition lastIndexOf (c : ascii) (s : str) : Z := lastIndexOfFrom c 0 s (-1).

(** [Array.prototype.slice(a, b)] on integer arguments: negative indices
    count from the end, everything is clamped to the array. *)
Definition sliceIndex (n k : Z) : Z :=
  if (k <? 0)%Z then Z.max (n + k) 0 else Z.min k n.

Definition slice {A} (l : list A) (a b : Z) : list A :=
  let n := Z.of_nat (length l) in
  let from := sliceIndex n a in
  let to := sliceIndex n b in
  firstn (Z.to_nat (to - from)) (skipn (Z.to_nat from) l).

(** Comparison of strings by code units, the order of the default
    [Array.prototype.sort] comparator. *)
Fixpoint ltb (a b : str) : bool :=
  match a, b with
  | [], [] => false
  | [], _ :: _ => true
  | _ :: _, [] => false
  | x :: a', y :: b' =>
      if (code x <? code y)%N then true
      else if (code y <? code x)%N then false
      else ltb a' b'
  end.

Definition leb (a b : str) : bool := negb (ltb b a).

End JsString.

Import JsString.

(* ================================================================== *)
(** * Regular expressions *)
(* ================================================================== *)

Module RegExp.

(** Members of a character class: a single unit, a range [lo-hi], or the
    escape [\s]. *)
Inductive classItem : Type :=
| CChar (c : ascii)
| CRange (lo hi : ascii)
| CSpace.

(** Pattern syntax.  [Group n r] is the capturing group number [n];
    [Star] and [Opt] are the greedy quantifiers [*] and [?]; [Bol] and [Eol]
    are [^] and [$] (no pattern of this program sets the [m] flag). *)
Inductive regex : Type :=
| Empty
| Char (c : ascii)
| Class (negated : bool) (items : list classItem)
| Seq (r1 r2 : regex)
| Alt (r1 r2 : regex)
| Star (r : regex)
| Opt (r : regex)
| Group (n : nat) (r : regex)
| Bol
| Eol.

(** [r+] and [r{n,}] repeat the atom the minimum number of times and then
    behave as [r*]. *)
Definition Plus (r : regex) : regex := Seq r (Star r).

Fixpoint AtLeast (n : nat) (r : regex) : regex :=
  match n with
  | O => Star r
  | S n' => Seq r (AtLeast n' r)
  end.

(** A run of pattern characters, as produced by the escaped text that the
    source splices into its patterns. *)
Fixpoint Literal (s : str) : regex :=
  match s with
  | [] => Empty
  | c :: s' => Seq (Char c) (Literal s')
  end.

Fixpoint SeqAll (l : list regex) : regex :=
  match l with
  | [] => Empty
  | [r] => r
  | r :: l' => Seq r (SeqAll l')
  end.

(** [Canonicalize] (no [u] flag): with [ignoreCase] the unit is mapped by
    [toUpperCase] when the result is a single unit and does not move a
    unit of 128 or more below 128.  U+00B5 maps to U+039C and U+00FF to
    U+0178; U+00DF (upper case "SS") stays. *)
Definition canonicalize (ignoreCase : bool) (c : ascii) : N :=
  let n := code c in
  if ignoreCase then
    (if (97 <=? n) && (n <=? 122) then n - 32
     else if (224 <=? n) && (n <=? 254) && negb (n =? 247) then n - 32
     else if n =? 255 then 376
     else if n =? 181 then 924
     else n)%N
  else n.

Definition classItemMem (it : classItem) (c : ascii) : bool :=
  match it with
  | CChar a => eqc a c
  | CRange lo hi => ((code lo <=? code c) && (code c <=? code hi))%N
  | CSpace => isSpace c
  end.

Definition classMem (items : list classItem) (c : ascii) : bool :=
  existsb (fun it => classItemMem it c) items.

(** Every code unit of the model. *)
Definition allUnits : list ascii := map ascii_of_nat (seq 0 256).

(** [CharacterSetMatcher]: the unit matches when some member of the class
    has the same canonical form; a negated class inverts the answer. *)
Definition classMatches (ignoreCase negated : bool) (items : list classItem)
    (c : ascii) : bool :=
  let found :=
    if ignoreCase then
      existsb (fun a => classMem items a &&
                        (canonicalize true a =? canonicalize true c)%N)
              allUnits
    else classMem items c in
  xorb negated found.

(** Matcher state: the end index reached so far, the input from that
    index on, and the captures recorded so far (latest first). *)
Record state : Type := mkState {
  index : nat;
  rest : str;
  captures : list (nat * str)
}.

Definition setCapture (n : nat) (s : str) (x : state) : state :=
  mkState (index x) (rest x) ((n, s) :: captures x).

Fixpoint lookupCapture (n : nat) (l : list (nat * str)) : option str :=
  match l with
  | [] => None
  | (m, s) :: l' => if Nat.eqb m n then Some s else lookupCapture n l'
  end.

(** [match[n]].  In every pattern of this program each group takes part
    in every match, so the [undefined] of an unmatched group never
    arises; it reads as the empty string here. *)
Definition capture (n : nat) (x : state) : str :=
  match lookupCapture n (captures x) with
  | Some s => s
  | None => []
  end.

Definition advance (x : state) : option (ascii * state) :=
  match rest x with
  | [] => None
  | c :: s' => Some (c, mkState (S (index x)) s' (captures x))
  end.

Definition orElse {A} (a b : option A) : option A :=
  match a with
  | Some _ => a
  | None => b
  end.

Section Repeat.

(** The greedy loop of [r*]: [m] is the matcher of the atom and [k] the
    continuation.  An iteration that consumes nothing is rejected, as in
    [RepeatMatcher]; [fuel] bounds the number of iterations by the length
    of the remaining input, which such iterations cannot exceed. *)
Variable m : (state -> option state) -> state -> option state.
Variable k : state -> option state.

Fixpoint starLoop (fuel : nat) (x : state) : option state :=
  match fuel with
  | O => k x
  | S fuel' =>
      orElse
        (m (fun y => if Nat.eqb (index y) (index x) then None
                     else starLoop fuel' y) x)
        (k x)
  end.

End Repeat.

(** The backtracking matcher, in continuation-passing style: [run r k x]
    matches [r] at state [x] and hands every end state, in priority order,
    to [k] until [k] succeeds. *)
Fixpoint run (ic : bool) (r : regex) (k : state -> option state)
    (x : state) : option state :=
  match r with
  | Empty => k x
  | Char a =>
      match advance x with
      | Some (c, y) =>
          if (canonicalize ic a =? canonicalize ic c)%N then k y else None
      | None => None
      end
  | Class negated items =>
      match advance x with
      | Some (c, y) => if classMatches ic negated items c then k y else None
      | None => None
      end
  | Seq r1 r2 => run ic r1 (run ic r2 k) x
  | Alt r1 r2 => orElse (run ic r1 k x) (run ic r2 k x)
  | Star r' => starLoop (run ic r') k (length (rest x)) x
  | Opt r' =>
      orElse
        (run ic r'
           (fun y => if Nat.eqb (index y) (index x) then None else k y) x)
        (k x)
  | Group n r' =>
      run ic r'
        (fun y => k (setCapture n (firstn (index y - index x) (rest x)) y)) x
  | Bol => if Nat.eqb (index x) 0 then k x else None
  | Eol => match rest x with [] => k x | _ :: _ => None end
  end.

(** One attempt of the pattern at index [i], where the input from [i] on
    is [s]. *)
Definition matchAt (ic : bool) (r : regex) (i : nat) (s : str)
    : option state :=
  run ic r (fun y => Some y) (mkState i s []).

(** [RegExpBuiltinExec] from [lastIndex = i]: the first index at or after
    [i] (up to the end of the input, inclusive) where the pattern matches.
    The result is the start index and the end state. *)
Fixpoint search (ic : bool) (r : regex) (i : nat) (s : str)
    : option (nat * state) :=
  match matchAt ic r i s with
  | Some st => Some (i, st)
  | None =>
      match s with
      | [] => None
      | _ :: s' => search ic r (S i) s'
      end
  end.

(** [re.test(s)] for a pattern without the [g] flag. *)
Definition test (ic : bool) (r : regex) (s : str) : bool :=
  match search ic r 0 s with
  | Some _ => true
  | None => false
  end.

(** The loops below walk the input one unit at a time: [i] is the index,
    [s] the input from [i] on, and [skip] the number of units of the last
    match still to pass over before the pattern is tried again. *)

(** The loop [while ((match = re.exec(text)) !== null) body] of a pattern
    with the [g] flag: each call resumes at the end of the previous match.
    An empty match leaves [lastIndex] where it was, so the loop would find
    it again for ever: that is [None]. *)
Fixpoint execLoop {A} (ic : bool) (r : regex) (body : state -> A -> A)
    (i skip : nat) (s : str) (acc : A) : option A :=
  match skip with
  | S n =>
      match s with
      | [] => Some acc
      | _ :: s' => execLoop ic r body (S i) n s' acc
      end
  | O =>
      match matchAt ic r i s with
      | Some st =>
          match index st - i with
          | O => None
          | S n =>
              match s with
              | [] => Some (body st acc)
              | _ :: s' => execLoop ic r body (S i) n s' (body st acc)
              end
          end
      | None =>
          match s with
          | [] => Some acc
          | _ :: s' => execLoop ic r body (S i) 0 s' acc
          end
      end
  end.

(** [s.replace(re, f)] with the [g] flag; [f] receives the matched text.
    After an empty match the search resumes one unit further. *)
Fixpoint replaceLoop (ic : bool) (r : regex) (f : str -> str)
    (i skip : nat) (s : str) : str :=
  match skip with
  | S n =>
      match s with
      | [] => []
      | _ :: s' => replaceLoop ic r f (S i) n s'
      end
  | O =>
      match matchAt ic r i s with
      | Some st =>
          f (firstn (index st - i) s) ++
          match s with
          | [] => []
          | c :: s' =>
              match index st - i with
              | O => c :: replaceLoop ic r f (S i) 0 s'
              | S n => replaceLoop ic r f (S i) n s'
              end
          end
      | None =>
          match s with
          | [] => []
          | c :: s' => c :: replaceLoop ic r f (S i) 0 s'
          end
      end
  end.

Definition replaceAll (ic : bool) (r : regex) (f : str -> str) (s : str)
    : str :=
  replaceLoop ic r f 0 0 s.

(** [s.replace(re, f)] without the [g] flag: the first match only. *)
Definition replaceFirst (ic : bool) (r : regex) (f : str -> str) (s : str)
    : str :=
  match search ic r 0 s with
  | None => s
  | Some (j, st) =>
      firstn j s ++ f (firstn (index st - j) (skipn j s)) ++
      skipn (index st) s
  end.

(** [s.split(re)] for a pattern with one capturing group: the pieces
    between matches, each followed by the text of group 1.  [p] is the
    start of the current piece and [cur] the piece read so far.  A match
    that is empty at the start of a piece is passed over; an empty match
    further on closes the piece and is then passed over. *)
Fixpoint splitLoop (ic : bool) (r : regex) (p i skip : nat) (cur : str)
    (s : str) : list str :=
  match skip with
  | S n =>
      match s with
      | [] => [cur]
      | _ :: s' => splitLoop ic r (S i) (S i) n cur s'
      end
  | O =>
      match s with
      | [] => [cur]
      | c :: s' =>
          match matchAt ic r i s with
          | None => splitLoop ic r p (S i) 0 (cur ++ [c]) s'
          | Some st =>
              match index st - i with
              | O =>
                  if Nat.eqb i p then splitLoop ic r p (S i) 0 (cur ++ [c]) s'
                  else cur :: capture 1 st :: splitLoop ic r i (S i) 0 [c] s'
              | S n => cur :: capture 1 st :: splitLoop ic r (S i) (S i) n [] s'
              end
          end
      end
  end.

Definition split (ic : bool) (r : regex) (s : str) : list str :=
  match s with
  | [] =>
      match matchAt ic r 0 [] with
      | Some _ => []
      | None => [[]]
      end
  | _ => splitLoop ic r 0 0 0 [] s
  end.

End RegExp.

Import RegExp.

(* ================================================================== *)
(** * IEEE binary64 numbers *)
(* ================================================================== *)

Module Number.

Definition prec : Z := 53.
Definition emax : Z := 1024.

(** The number holding the integer [z] (exact below [2^53]). *)
Definition ofZ (z : Z) : spec_float := binary_normalize prec emax z 0 false.

(** The literal [0.7]: the binary64 value [0x3FE6666666666666], that is
    [6305039478318694 * 2^-53]. *)
Definition seven_tenths : spec_float :=
  S754_finite false 6305039478318694 (-53).

Definition mul (a b : spec_float) : spec_float := SFmul prec emax a b.

(** [a > b]. *)
Definition gtb (a b : spec_float) : bool := SFltb b a.

End Number.

(* ================================================================== *)
(** * The program *)
(* ================================================================== *)

(** ** Patterns of the source *)

Definition chr (s : string) : ascii :=
  match s with
  | String c _ => c
  | EmptyString => zero
  end.

(** [\s] outside a class. *)
Definition reSpace : regex := Class false [CSpace].

(** The class "[.*+?^${}()|[\]\\]": the pattern-syntax characters. *)
Definition syntaxChars : list classItem :=
  map CChar (lit ".*+?^${}()|[]\").

(** The replacement of that class, flag [g], by "\\$&": a backslash
    before every syntax character. *)
Definition escapeRegExp (s : str) : str :=
  replaceAll false (Class false syntaxChars) (fun m => chr "\" :: m) s.

(** What [new RegExp] reads from pattern text made of pattern characters
    and backslash-escaped syntax characters: the characters themselves. *)
Fixpoint parseEscaped (s : str) : regex :=
  match s with
  | [] => Empty
  | c :: s' =>
      if eqc c (chr "\") then
        match s' with
        | d :: s'' => Seq (Char d) (parseEscaped s'')
        | [] => Empty
        end
      else Seq (Char c) (parseEscaped s')
  end.

(** The pattern "^https?:\/\/". *)
Definition protocolRe : regex :=
  SeqAll [Bol; Literal (lit "http"); Opt (Char (chr "s")); Literal (lit "://")].

Definition alnum : list classItem :=
  [CRange (chr "a") (chr "z"); CRange (chr "A") (chr "Z");
   CRange (chr "0") (chr "9")].

Definition alpha : list classItem :=
  [CRange (chr "a") (chr "z"); CRange (chr "A") (chr "Z")].

(** The pattern "^[a-zA-Z0-9][a-zA-Z0-9-]*[a-zA-Z0-9]*\.[a-zA-Z]{2,}". *)
Definition domainRe : regex :=
  SeqAll [Bol;
          Class false alnum;
          Star (Class false (alnum ++ [CChar (chr "-")]));
          Star (Class false alnum);
          Char (chr ".");
          AtLeast 2 (Class false alpha)].

Definition LF : ascii := ascii_of_nat 10.
Definition ESC : ascii := ascii_of_nat 27.

(** Pattern 1, flags [gi]: the escaped domain, the optional group
    "(?:/[^:]* )?" (written here with a space before its closing
    parenthesis), then ":([^:\s]+):([^:\s\n]+)". *)
Definition pattern1 (domain : str) : regex :=
  SeqAll [parseEscaped (escapeRegExp domain);
          Opt (Seq (Char (chr "/")) (Star (Class true [CChar (chr ":")])));
          Char (chr ":");
          Group 1 (Plus (Class true [CChar (chr ":"); CSpace]));
          Char (chr ":");
          Group 2 (Plus (Class true [CChar (chr ":"); CSpace; CChar LF]))].

(** Pattern 2, flags [gi]: the optional group "(?:https?://)?", the escaped
    domain, the optional group "(?:/[^|]* )?" (again with a space added),
    then "\|([^|\s]+)\|([^|\s\n]+)". *)
Definition pattern2 (domain : str) : regex :=
  SeqAll [Opt (SeqAll [Literal (lit "http"); Opt (Char (chr "s"));
                       Literal (lit "://")]);
          parseEscaped (escapeRegExp domain);
          Opt (Seq (Char (chr "/")) (Star (Class true [CChar (chr "|")])));
          Char (chr "|");
          Group 1 (Plus (Class true [CChar (chr "|"); CSpace]));
          Char (chr "|");
          Group 2 (Plus (Class true [CChar (chr "|"); CSpace; CChar LF]))].

(** The pattern "\u001b\[[0-9;]*m", flag [g]. *)
Definition ansiRe : regex :=
  SeqAll [Char ESC; Char (chr "[");
          Star (Class false [CRange (chr "0") (chr "9"); CChar (chr ";")]);
          Char (chr "m")].

(** The pattern "(\s{3,}|\s+)". *)
Definition wrapSplitRe : regex :=
  Group 1 (Alt (AtLeast 3 reSpace) (Plus reSpace)).

(** The pattern "^\s{3,}$". *)
Definition wideGapRe : regex := SeqAll [Bol; AtLeast 3 reSpace; Eol].

(** The pattern "\s{3,}", flag [g]. *)
Definition gapRe : regex := AtLeast 3 reSpace.

(** ** Domain classifier *)

(** [searchTerm.replace(/^https?:\/\//, '').split('/')[0]] *)
Definition cleanDomain (searchTerm : str) : str :=
  hd [] (splitOn (chr "/") (replaceFirst false protocolRe (fun _ => []) searchTerm)).

Definition isDomain (searchTerm : str) : bool :=
  test false domainRe (cleanDomain searchTerm).

(** ** Credential extractor *)

(** [Set.prototype.add] on a set kept in insertion order. *)
Definition setAdd (x : str) (l : list str) : list str :=
  if existsb (eqs x) l then l else l ++ [x].

Definition truthy (s : str) : bool :=
  match s with
  | [] => false
  | _ :: _ => true
  end.

(** The body shared by the two [while] loops. *)
Definition addCredential (m : state) (credentials : list str) : list str :=
  let username := trim (capture 1 m) in
  let password := trim (capture 2 m) in
  if truthy username && truthy password &&
     (len username >? 0)%Z && (len password >? 0)%Z
  then setAdd (username ++ chr ":" :: password) credentials
  else credentials.

(** [extractCredentials(text, domain)]; the result is [Array.from] of the
    set, and [None] would be a loop that never ends. *)
Definition extractCredentials (text domain : str) : option (list str) :=
  match execLoop true (pattern1 domain) addCredential 0 0 text [] with
  | None => None
  | Some credentials =>
      execLoop true (pattern2 domain) addCredential 0 0 text credentials
  end.

(** ** Batch orchestration *)

(** The default [Array.prototype.sort]: ascending by code units. *)
Fixpoint insertSorted (x : str) (l : list str) : list str :=
  match l with
  | [] => [x]
  | y :: l' => if leb x y then x :: l else y :: insertSorted x l'
  end.

Fixpoint sort (l : list str) : list str :=
  match l with
  | [] => []
  | x :: l' => insertSorted x (sort l')
  end.

(** A search record, as far as this code reads it. *)
Record record : Type := mkRecord {
  storageid : str;
  bucket : str
}.

(** Outcome of [getFilePreview]: the text, or the message of the error
    thrown. *)
Inductive fetched : Type :=
| Content (text : str)
| Failed (message : str).

(** The ["/file/view"] entry of the limits; an absent field reads as 0. *)
Record fileViewLimit : Type := mkLimit {
  CreditMax : Z;
  Credit : Z;
  CreditReset : Z
}.

Inductive limits : Type :=
| LimitsFailed (message : str)
| Limits (fileView : option fileViewLimit).

(** What the function does to the outside, in order: network calls,
    console lines (by content, without styling) and the file written. *)
Inductive effect : Type :=
| Fetch (r : record)
| LogNoCredit (reset : Z)
| LogCreditWarning (credits processingCount : Z)
| LogLimitsUnavailable (message : str)
| LogGenerating (domainName : str) (processingCount : Z) (ofTotal : option Z)
| LogProgress (processed processingCount : Z)
| LogExhaustedAt (processed : Z)
| LogStopped (completedBefore : Z)
| LogOnlySucceeded (succeeded : Z)
| LogNoCredentials (apiExhausted : bool)
| WriteFile (name content : str)
| LogGenerated (count : Z)
| LogCouldNotProcess (errors : Z).

Section Combolist.

(** The remote service and the network, threaded through the calls. *)
Variable World : Type.
Variable getFilePreview : str -> str -> World -> fetched * World.
Variable getApiLimits : World -> limits * World.

(** The variables of the [for] loop. *)
Record loopState : Type := mkLoop {
  allCredentials : list str;
  processed : Z;
  errors : Z;
  apiExhausted : bool;
  world : World;
  trace : list effect
}.

(** The test made on [error.message]. *)
Definition quotaSignal (message : str) : bool :=
  truthy message &&
  (includes message (lit "403") || includes message (lit "429") ||
   includes message (lit "limit")).

(** The [for (const record of recordsToProcess)] loop; returning the
    state without recursion is the [break]. *)
Fixpoint processRecords (domainName : str) (processingCount : Z)
    (records : list record) (st : loopState) : option loopState :=
  match records with
  | [] => Some st
  | record :: records' =>
      let processed' := (processed st + 1)%Z in
      let trace1 :=
        if (Z.rem processed' 10 =? 0)%Z
        then trace st ++ [LogProgress processed' processingCount]
        else trace st in
      let (res, w) :=
        getFilePreview (storageid record) (bucket record) (world st) in
      let trace2 := trace1 ++ [Fetch record] in
      match res with
      | Content content =>
          match extractCredentials content domainName with
          | None => None
          | Some credentials =>
              processRecords domainName processingCount records'
                (mkLoop (fold_left (fun acc cred => setAdd cred acc)
                                   credentials (allCredentials st))
                        processed' (errors st) (apiExhausted st) w trace2)
          end
      | Failed message =>
          let errors' := (errors st + 1)%Z in
          if quotaSignal message then
            Some (mkLoop (allCredentials st) processed' errors' true w
                    (trace2 ++ [LogExhaustedAt processed';
                                LogStopped (processed' - 1)]))
          else
            processRecords domainName processingCount records'
              (mkLoop (allCredentials st) processed' errors'
                      (apiExhausted st) w trace2)
      end
  end.

(** The check of the API limits before the loop: [inl] is the early
    [return] when no credit is left, [inr] lets the function go on; both
    carry the console lines written. *)
Definition limitCheck (lim : limits) (processingCount : Z)
    : list effect + list effect :=
  match lim with
  | LimitsFailed message => inr [LogLimitsUnavailable message]
  | Limits None => inr []
  | Limits (Some fv) =>
      if (CreditMax fv >? 0)%Z then
        if (Credit fv =? 0)%Z then inl [LogNoCredit (CreditReset fv)]
        else if (Credit fv <? processingCount)%Z
             then inr [LogCreditWarning (Credit fv) processingCount]
             else inr []
      else inr []
  end.

(** [limit ? results.records.slice(0, limit) : results.records]; [None]
    is [null], and 0 is falsy as well. *)
Definition limited (limit : option Z) : bool :=
  match limit with
  | Some n => negb (n =? 0)%Z
  | None => false
  end.

Definition recordsToProcess (records : list record) (limit : option Z)
    : list record :=
  match limit with
  | Some n => if limited limit then slice records 0 n else records
  | None => records
  end.

(** What follows the loop: the last progress line, the sorted array, and
    either the "no credentials" line or the file and its summary. *)
Definition finish (domainName : str) (processingCount : Z) (st : loopState)
    : list effect :=
  let t2 := trace st ++ [LogProgress (processed st) processingCount] in
  let t3 :=
    if apiExhausted st && (processed st <? processingCount)%Z
    then t2 ++ [LogOnlySucceeded (processed st - errors st)]
    else t2 in
  let credentialsArray := sort (allCredentials st) in
  if (Z.of_nat (length credentialsArray) =? 0)%Z then
    t3 ++ [LogNoCredentials (apiExhausted st)]
  else
    let content := join [LF] credentialsArray ++ [LF] in
    t3 ++ [WriteFile (domainName ++ lit ".txt") content;
           LogGenerated (Z.of_nat (length credentialsArray))]
       ++ (if (errors st >? 0)%Z then [LogCouldNotProcess (errors st)] else []).

(** [generateCombolist(searchTerm, results, limit)]; [records] is
    [results.records], [limit] is [None] for [null].  The result is the
    list of effects and the final state of the outside; the file is named
    relative to the working directory. *)
Definition generateCombolist (searchTerm : str) (records : list record)
    (limit : option Z) (w0 : World) : option (list effect * World) :=
  let domainName := cleanDomain searchTerm in
  let toProcess := recordsToProcess records limit in
  let totalRecords := Z.of_nat (length records) in
  let processingCount := Z.of_nat (length toProcess) in
  let (lim, w1) := getApiLimits w0 in
  match limitCheck lim processingCount with
  | inl t => Some (t, w1)
  | inr t0 =>
      let t1 :=
        t0 ++ [LogGenerating domainName processingCount
                 (match limit with
                  | Some n => if limited limit && (n <? totalRecords)%Z
                              then Some totalRecords else None
                  | None => None
                  end)] in
      match processRecords domainName processingCount toProcess
              (mkLoop [] 0 0 false w1 t1) with
      | None => None
      | Some st => Some (finish domainName processingCount st, world st)
      end
  end.

End Combolist.

Arguments mkLoop {World}.
Arguments allCredentials {World}.
Arguments processed {World}.
Arguments errors {World}.
Arguments apiExhausted {World}.
Arguments world {World}.
Arguments trace {World}.
Arguments processRecords {World}.
Arguments finish {World}.
Arguments generateCombolist {World}.

(** ** Context matcher *)

Record matchWindow : Type := mkWindow {
  lineNumber : Z;
  context : list str;
  matchLine : Z
}.

(** The [for] loop over [lines]: [i] is the index and [todo] the lines from
    index [i] on. *)
Fixpoint findContextLoop (lines : list str) (searchLower : str)
    (contextLines : Z) (i : Z) (todo : list str) : list matchWindow :=
  match todo with
  | [] => []
  | line :: todo' =>
      let later := findContextLoop lines searchLower contextLines (i + 1) todo' in
      if includes (toLowerCase line) searchLower then
        let start := Z.max 0 (i - contextLines) in
        let end_ := Z.min (Z.of_nat (length lines)) (i + contextLines + 1) in
        mkWindow (i + 1) (slice lines start end_) (i - start) :: later
      else later
  end.

Definition findContextInFile (content searchTerm : str) (contextLines : Z)
    : list matchWindow :=
  let lines := splitOn LF content in
  findContextLoop lines (toLowerCase searchTerm) contextLines 0 lines.

(** ** The context matcher on strings in full *)

(** The test of the context matcher is made on [toLowerCase] of the whole
    line and of the whole term.  Beyond the code units below 256 this is
    not a unit-by-unit operation: a capital sigma becomes a final or a
    medial small sigma according to its neighbours, and U+0130 becomes
    two units.  The matcher is therefore modelled a second time, on
    strings of 16-bit code units, with [String.prototype.toLowerCase] as
    ECMAScript defines it: the code points of the string are mapped by the
    lower-case mapping of the Unicode Character Database, with the
    context rule [Final_Sigma], and encoded again.  The database is a
    parameter: the matcher is described for every version of it. *)
Module Utf16.

(** A string value: the sequence of its 16-bit code units. *)
Definition ustr := list N.

(** The units of a literal of the source. *)
Definition units (s : string) : ustr :=
  map N_of_ascii (list_ascii_of_string s).

Definition LF : N := 10.

(** [s.startsWith(p)] as a prefix test. *)
Fixpoint startsWith (p s : ustr) : bool :=
  match p, s with
  | [], _ => true
  | a :: p', b :: s' => (a =? b)%N && startsWith p' s'
  | _ :: _, [] => false
  end.

(** [s.includes(p)]: [p] occurs in [s] as a contiguous substring. *)
Fixpoint includes (s p : ustr) : bool :=
  startsWith p s ||
  match s with
  | [] => false
  | _ :: s' => includes s' p
  end.

(** [s.split(sep)] for a one-unit separator. *)
Fixpoint splitOn (sep : N) (s : ustr) : list ustr :=
  match s with
  | [] => [[]]
  | c :: s' =>
      if (c =? sep)%N then [] :: splitOn sep s'
      else match splitOn sep s' with
           | [] => [[c]]
           | p :: ps => (c :: p) :: ps
           end
  end.

(** Surrogates: U+D800..U+DBFF lead, U+DC00..U+DFFF trail. *)
Definition isLeadingSurrogate (u : N) : bool :=
  ((55296 <=? u) && (u <=? 56319))%N.

Definition isTrailingSurrogate (u : N) : bool :=
  ((56320 <=? u) && (u <=? 57343))%N.

(** [StringToCodePoints]: a leading surrogate followed by a trailing one
    is one code point; any other unit, a lone surrogate too, is its own
    code point. *)
Fixpoint stringToCodePoints (s : ustr) : list N :=
  match s with
  | [] => []
  | u :: s' =>
      match s' with
      | v :: s'' =>
          if isLeadingSurrogate u && isTrailingSurrogate v
          then ((u - 55296) * 1024 + (v - 56320) + 65536)%N
               :: stringToCodePoints s''
          else u :: stringToCodePoints s'
      | [] => [u]
      end
  end.

(** [UTF16EncodeCodePoint]. *)
Definition codePointToUnits (cp : N) : ustr :=
  if (cp <=? 65535)%N then [cp]
  else [(55296 + (cp - 65536) / 1024)%N; (56320 + (cp - 65536) mod 1024)%N].

(** What [toLowerCase] reads in the Unicode Character Database: the
    lower-case mapping of a code point (of [UnicodeData.txt], or the
    unconditional one of [SpecialCasing.txt]; the code point itself when
    it has none), and the properties [Cased] and [Case_Ignorable]. *)
Record caseData : Type := mkCaseData {
  lowercaseMapping : N -> list N;
  cased : N -> bool;
  caseIgnorable : N -> bool
}.

(** The result of [findContextInFile]. *)
Record matchWindow : Type := mkWindow {
  lineNumber : Z;
  context : list ustr;
  matchLine : Z
}.

Section ToLowerCase.

Variable ucd : caseData.

(** Going through [l] from its head: the case-ignorable code points are
    passed over, cased or not, and the first other code point decides,
    by being cased. *)
Fixpoint casedLetterNext (l : list N) : bool :=
  match l with
  | [] => false
  | c :: l' => if caseIgnorable ucd c then casedLetterNext l' else cased ucd c
  end.

(** The condition [Final_Sigma]: a cased letter comes before, and none
    comes after, case-ignorable code points apart.  [before] holds the
    code points already passed, the nearest first. *)
Definition finalSigma (before after : list N) : bool :=
  casedLetterNext before && negb (casedLetterNext after).

(** The mapping of the code points in turn: U+03A3 gives U+03C2 under
    [Final_Sigma], and every other code point its lower-case mapping. *)
Fixpoint lowerFrom (before todo : list N) : list N :=
  match todo with
  | [] => []
  | c :: rest =>
      (if (c =? 931)%N && finalSigma before rest then [962%N]
       else lowercaseMapping ucd c)
      ++ lowerFrom (c :: before) rest
  end.

(** [String.prototype.toLowerCase]. *)
Definition toLowerCase (s : ustr) : ustr :=
  flat_map codePointToUnits (lowerFrom [] (stringToCodePoints s)).

(** The [for] loop over [lines]: [i] is the index and [todo] the lines from
    index [i] on. *)
Fixpoint findContextLoop (lines : list ustr) (searchLower : ustr)
    (contextLines : Z) (i : Z) (todo : list ustr) : list matchWindow :=
  match todo with
  | [] => []
  | line :: todo' =>
      let later := findContextLoop lines searchLower contextLines (i + 1) todo' in
      if includes (toLowerCase line) searchLower then
        let start := Z.max 0 (i - contextLines) in
        let end_ := Z.min (Z.of_nat (length lines)) (i + contextLines + 1) in
        mkWindow (i + 1) (slice lines start end_) (i - start) :: later
      else later
  end.

Definition findContextInFile (content searchTerm : ustr) (contextLines : Z)
    : list matchWindow :=
  let lines := splitOn LF content in
  findContextLoop lines (toLowerCase searchTerm) contextLines 0 lines.

(** [line] contains [term] as a substring, up to case: a piece of the
    line has the lower-case form of the term. *)
Definition containsIgnoringCase (line term : ustr) : Prop :=
  exists before middle after,
    line = before ++ middle ++ after /\
    toLowerCase middle = toLowerCase term.

End ToLowerCase.

(** The window of the line at index [i]: its own [contextLines] lines on
    each side, clipped to the file. *)
Definition windowAt (lines : list ustr) (contextLines : Z) (i : nat)
    : matchWindow :=
  let start := Z.max 0 (Z.of_nat i - contextLines) in
  mkWindow (Z.of_nat i + 1)
    (slice lines start
       (Z.min (Z.of_nat (length lines)) (Z.of_nat i + contextLines + 1)))
    (Z.of_nat i - start).

(** A string of code units below 256. *)
Definition latin1 (s : ustr) : bool := forallb (fun u => (u <? 256)%N) s.

(** The lower case of a unit below 256: A-Z and the capitals
    U+00C0..U+00DE other than the multiplication sign move by 32. *)
Definition lowerUnit (u : N) : N :=
  if (((65 <=? u) && (u <=? 90)) ||
      ((192 <=? u) && (u <=? 222) && negb (u =? 215)))%N
  then (u + 32)%N else u.

(** The rows of the database for the code points below 256. *)
Definition latin1Rows (ucd : caseData) : Prop :=
  forall c, (c < 256)%N -> lowercaseMapping ucd c = [lowerUnit c].

(** An excerpt of the database: the rows of the code points below 256,
    of the Greek letters U+0391..U+03AB and U+03B1..U+03CB, of U+0130
    (whose lower case is "i" and U+0307) and of U+0307.  The examples
    hold no other code point. *)
Definition sampleCaseData : caseData :=
  mkCaseData
    (fun c =>
       if (c <? 256)%N then [lowerUnit c]
       else if (c =? 304)%N then [105; 775]%N
       else if ((913 <=? c) && (c <=? 939) && negb (c =? 930))%N
            then [(c + 32)%N]
       else [c])
    (fun c =>
       ((65 <=? c) && (c <=? 90)) || ((97 <=? c) && (c <=? 122)) ||
       (c =? 170) || (c =? 181) || (c =? 186) ||
       ((192 <=? c) && (c <=? 255) && negb (c =? 215) && negb (c =? 247)) ||
       (c =? 304) ||
       ((913 <=? c) && (c <=? 939) && negb (c =? 930)) ||
       ((945 <=? c) && (c <=? 971)))%N
    (fun c =>
       existsb (N.eqb c) [39; 46; 58; 94; 96; 168; 173; 175; 180; 183; 184;
                          775]%N).

End Utf16.

(** The units of a string of the model below 256, and its windows. *)
Definition widen (s : str) : Utf16.ustr := map code s.

Definition widenWindow (w : matchWindow) : Utf16.matchWindow :=
  Utf16.mkWindow (lineNumber w) (map widen (context w)) (matchLine w).

(** ** Text wrapper *)

Definition stripAnsiCodes (s : str) : str :=
  replaceAll false ansiRe (fun _ => []) s.

(** Visible length: [stripAnsiCodes(s).length]. *)
Definition visibleLength (s : str) : Z := len (stripAnsiCodes s).

(** One turn of the loop over the parts, on the pair of [lines] and
    [currentLine]. *)
Definition wrapStep (maxWidth : Z) (acc : list str * str) (part : str)
    : list str * str :=
  let (lines, currentLine) := acc in
  let partLength := visibleLength part in
  let currentLength := visibleLength currentLine in
  if (currentLength + partLength >? maxWidth)%Z && (len currentLine >? 0)%Z
  then
    if test false wideGapRe part
    then (lines ++ [trimEnd currentLine], [])
    else (lines ++ [trimEnd currentLine], part)
  else (lines, currentLine ++ part).

Definition wrapLine (text : str) (maxWidth : Z) : list str :=
  let parts := split false wrapSplitRe text in
  let (lines, currentLine) := fold_left (wrapStep maxWidth) parts ([], []) in
  if (len (trim currentLine) >? 0)%Z
  then lines ++ [trimEnd currentLine]
  else lines.

(** ** Preview formatter *)

Definition normalizeSpaces (line : str) : str :=
  replaceAll false gapRe (fun _ => lit "   ") line.

Inductive style : Type := Yellow | Gray | Green | BgYellowBlack.

(** [n.toString()] for an integer. *)
Definition toString (n : Z) : str :=
  lit (DecimalString.NilZero.string_of_int (Z.to_int n)).

(** [s.padStart(n)]: spaces in front up to length [n]. *)
Definition padStart (n : nat) (s : str) : str :=
  repeat (chr " ") (n - length s) ++ s.

(** [lastSpace > maxLineWidth * 0.7], on binary64 numbers. *)
Definition beyondSeventyPercent (lastSpace maxLineWidth : Z) : bool :=
  Number.gtb (Number.ofZ lastSpace)
    (Number.mul (Number.ofZ maxLineWidth) Number.seven_tenths).

Section Preview.

(** The styling functions of the terminal library and the terminal width
    [process.stdout.columns] ([None] when it is not a number). *)
Variable chalk : style -> str -> str.
Variable columns : option Z.

Definition terminalWidth : Z :=
  match columns with
  | Some c => if (c =? 0)%Z then 80 else c
  | None => 80
  end.

Definition lineNumWidth : Z := 8.

Definition maxLineWidth : Z := terminalWidth - lineNumWidth - 2.

(** Where an overflowing context line is cut:
    [lastSpace > maxLineWidth * 0.7 ? lastSpace : maxLineWidth - 3]. *)
Definition truncateAt (line : str) : Z :=
  let truncated := substring0 line (maxLineWidth - 3) in
  let lastSpace := lastIndexOf (chr " ") truncated in
  if beyondSeventyPercent lastSpace maxLineWidth
  then lastSpace else maxLineWidth - 3.

(** The [else] branch: a context line that is not the match line.  [line]
    is already normalized. *)
Definition renderContextLine (lineNumStr : str) (line : str) : str :=
  let lineLength := visibleLength line in
  let prefix := chalk Gray (chr " " :: lineNumStr ++ lit ": ") in
  if (lineLength >? maxLineWidth)%Z then
    let finalLine := substring0 line (truncateAt line) ++ chalk Gray (lit "...") in
    prefix ++ finalLine ++ [LF]
  else prefix ++ line ++ [LF].

(** The [if] branch: the match line, highlighted and wrapped. *)
Definition renderMatchLine (searchTerm lineNumStr : str) (line : str) : str :=
  let highlighted :=
    replaceAll true (Group 1 (parseEscaped (escapeRegExp searchTerm)))
      (chalk BgYellowBlack) line in
  let wrapped := wrapLine highlighted maxLineWidth in
  let first := chalk Green (chr ">" :: lineNumStr ++ lit ": ") in
  let other := chalk Green (repeat (chr " ") (Z.to_nat lineNumWidth)) in
  match wrapped with
  | [] => []
  | w :: ws =>
      first ++ w ++ [LF] ++ flat_map (fun w' => other ++ w' ++ [LF]) ws
  end.

(** The inner loop over [match.context], from index [i]. *)
Fixpoint renderWindow (searchTerm : str) (m : matchWindow) (i : Z)
    (todo : list str) : str :=
  match todo with
  | [] => []
  | raw :: todo' =>
      let line := normalizeSpaces raw in
      let lineNum := (lineNumber m - matchLine m + i)%Z in
      let lineNumStr := padStart 6 (toString lineNum) in
      (if (i =? matchLine m)%Z
       then renderMatchLine searchTerm lineNumStr line
       else renderContextLine lineNumStr line)
      ++ renderWindow searchTerm m (i + 1) todo'
  end.

Definition formatPreview (matches : list matchWindow) (searchTerm : str)
    (maxMatches : Z) : str :=
  if (Z.of_nat (length matches) =? 0)%Z then
    chalk Yellow (lit "No matches found in file content.")
  else
    let displayMatches := slice matches 0 maxMatches in
    let output :=
      flat_map (fun m => renderWindow searchTerm m 0 (context m)) displayMatches in
    if (Z.of_nat (length matches) >? maxMatches)%Z then
      output ++ chalk Yellow
        (LF :: lit "... and " ++
         toString (Z.of_nat (length matches) - maxMatches) ++
         lit " more match(es)" ++ [LF])
    else output.

End Preview.

(** ** File tree *)

(** The double quote. *)
Definition DQ : ascii := ascii_of_nat 34.

(** An entry of the file tree. *)
Record file : Type := mkFile {
  did : str;
  fullPath : str;
  fileName : str;
  relativePath : str
}.

(** The three link patterns, flag [g], in the order tried.  In pattern
    text they are
    - [<a href=Q\/\?did=([^Q]+)Q[^>]*data-original-title=Q([^Q]+)Q>([^<]+)<\/a>],
    - [<a[^>]+href=Q\/\?did=([^Q]+)Q[^>]*data-original-title=Q([^Q]+)Q[^>]*>([^<]+)<\/a>],
    - [href=Q\/\?did=([^Q]+)Q[^>]*title=Q([^Q]+)Q[^>]*>([^<]+)<\/a>],
    where Q stands for the double quote. *)
Definition patterns : list regex :=
  [SeqAll [Literal (lit "<a href=" ++ DQ :: lit "/?did=");
           Group 1 (Plus (Class true [CChar DQ]));
           Char DQ;
           Star (Class true [CChar (chr ">")]);
           Literal (lit "data-original-title=" ++ [DQ]);
           Group 2 (Plus (Class true [CChar DQ]));
           Literal (DQ :: lit ">");
           Group 3 (Plus (Class true [CChar (chr "<")]));
           Literal (lit "</a>")];
   SeqAll [Literal (lit "<a");
           Plus (Class true [CChar (chr ">")]);
           Literal (lit "href=" ++ DQ :: lit "/?did=");
           Group 1 (Plus (Class true [CChar DQ]));
           Char DQ;
           Star (Class true [CChar (chr ">")]);
           Literal (lit "data-original-title=" ++ [DQ]);
           Group 2 (Plus (Class true [CChar DQ]));
           Char DQ;
           Star (Class true [CChar (chr ">")]);
           Char (chr ">");
           Group 3 (Plus (Class true [CChar (chr "<")]));
           Literal (lit "</a>")];
   SeqAll [Literal (lit "href=" ++ DQ :: lit "/?did=");
           Group 1 (Plus (Class true [CChar DQ]));
           Char DQ;
           Star (Class true [CChar (chr ">")]);
           Literal (lit "title=" ++ [DQ]);
           Group 2 (Plus (Class true [CChar DQ]));
           Char DQ;
           Star (Class true [CChar (chr ">")]);
           Char (chr ">");
           Group 3 (Plus (Class true [CChar (chr "<")]));
           Literal (lit "</a>")]].

(** The pattern "^[^/]+\/". *)
Definition firstDirRe : regex :=
  SeqAll [Bol; Plus (Class true [CChar (chr "/")]); Char (chr "/")].

(** [a || b] on strings. *)
Definition orStr (a b : str) : str := if truthy a then a else b.

(** The body of the [while] loop: the entry of a link is pushed unless an
    entry with the same [did] is there already. *)
Definition addFile (m : state) (files : list file) : list file :=
  let did_ := capture 1 m in
  let fullPath_ := capture 2 m in
  let fileName_ := capture 3 m in
  if existsb (fun f => eqs (did f) did_) files then files
  else
    files ++
    [mkFile did_
       (orStr fullPath_ (orStr fileName_ []))
       (orStr fileName_ (orStr fullPath_ []))
       (replaceFirst false firstDirRe (fun _ => [])
          (orStr fullPath_ (orStr fileName_ [])))].

(** The [for] loop over the patterns; it is left as soon as a pattern has
    given an entry.  [None] would be a [while] loop that never ends. *)
Fixpoint parsePatterns (todo : list regex) (html : str) (files : list file)
    : option (list file) :=
  match todo with
  | [] => Some files
  | linkRegex :: todo' =>
      match execLoop false linkRegex addFile 0 0 html files with
      | None => None
      | Some files' =>
          if (Z.of_nat (length files') >? 0)%Z then Some files'
          else parsePatterns todo' html files'
      end
  end.

(** [parseFileTree(html)]. *)
Definition parseFileTree (html : str) : option (list file) :=
  parsePatterns patterns html [].

(** ** The prompt for the number of files *)

Definition isDigit (c : ascii) : bool := ((48 <=? code c) && (code c <=? 57))%N.

(** The value of a run of decimal digits. *)
Definition digitsValue (digits : str) : Z :=
  fold_left (fun acc c => (10 * acc + (Z.of_N (code c) - 48))%Z) digits 0%Z.

(** [parseInt(s, 10)]: white space is passed over, then an optional sign,
    then the longest run of digits is read and what follows is ignored;
    [None] is [NaN], the result when there is no digit.  The number is the
    integer read (a JavaScript number holds it exactly below [2^53]). *)
Definition parseInt (s : str) : option Z :=
  let s1 := trimStart s in
  let (sign, s2) :=
    match s1 with
    | c :: s' =>
        if eqc c (chr "-") then ((-1)%Z, s')
        else if eqc c (chr "+") then (1%Z, s')
        else (1%Z, s1)
    | [] => (1%Z, s1)
    end in
  match takeWhile isDigit s2 with
  | [] => None
  | digits => Some (sign * digitsValue digits)%Z
  end.

(** What a [validate] function of a prompt returns: [true], or the
    message shown to the user. *)
Inductive verdict : Type :=
| Valid
| Invalid (message : str).

(** The [validate] function of the prompt "How many files to process?";
    [recordCount] is [results.records.length]. *)
Definition validateFileLimit (recordCount : Z) (input : str) : verdict :=
  if negb (truthy input) || (len (trim input) =? 0)%Z then Valid
  else
    match parseInt (trim input) with
    | None => Invalid (lit "Please enter a valid number greater than 0")
    | Some num =>
        if (num <? 1)%Z
        then Invalid (lit "Please enter a valid number greater than 0")
        else if (num >? recordCount)%Z
        then Invalid (lit "Maximum is " ++ toString recordCount ++ lit " files")
        else Valid
    end.

(** The [limit] handed to [generateCombolist]:
    [fileLimit && fileLimit.trim() ? parseInt(fileLimit.trim(), 10) : null].
    [NaN], which [generateCombolist] treats as it treats [null], is [None]
    as well. *)
Definition limitOf (fileLimit : str) : option Z :=
  if truthy fileLimit && truthy (trim fileLimit)
  then parseInt (trim fileLimit)
  else None.

(** ** Browsing the previews *)

(** The values of the navigation menu: ['next'], ['prev'], ['download']
    and ['back']. *)
Inductive navigation : Type := NavNext | NavPrev | NavDownload | NavBack.

(** The variables of the preview loop that decide the page shown;
    [lastAction] is [None] for [null]. *)
Record browser : Type := mkBrowser {
  currentPage : Z;
  lastAction : option navigation
}.

(** The [choices] offered on a page. *)
Definition navChoices (totalPages currentPage : Z) : list navigation :=
  (if (currentPage <? totalPages - 1)%Z then [NavNext] else []) ++
  (if (currentPage >? 0)%Z then [NavPrev] else []) ++
  [NavDownload; NavBack].

(** The [defaultChoice] of the menu; [None] is [null]. *)
Definition defaultChoice (totalPages : Z) (b : browser) : option navigation :=
  let choices := navChoices totalPages (currentPage b) in
  if match lastAction b with Some NavNext => true | _ => false end &&
     (currentPage b <? totalPages - 1)%Z
  then Some NavNext
  else if match lastAction b with Some NavPrev => true | _ => false end &&
          (currentPage b >? 0)%Z
  then Some NavPrev
  else if (Z.of_nat (length choices) >? 0)%Z then hd_error choices
  else None.

(** What the answer [nextAction] does to these variables; [None] is the
    [break] that leaves the loop.  (The download itself does not touch
    them.) *)
Definition navigate (b : browser) (nextAction : navigation)
    : option browser :=
  let lastAction' :=
    match nextAction with
    | NavNext | NavPrev => Some nextAction
    | _ => lastAction b
    end in
  match nextAction with
  | NavPrev => Some (mkBrowser (currentPage b - 1) lastAction')
  | NavNext => Some (mkBrowser (currentPage b + 1) lastAction')
  | NavDownload => Some (mkBrowser (currentPage b) lastAction')
  | NavBack => None
  end.

(** ** The room for the preview *)

Module Math.

(** The integer value of a finite number. *)
Definition scaled (negative : bool) (m : positive) (e : Z) (up : bool) : Z :=
  let v := if negative then Z.neg m else Z.pos m in
  if (0 <=? e)%Z then (v * 2 ^ e)%Z
  else if up then (- ((- v) / 2 ^ (- e)))%Z
  else (v / 2 ^ (- e))%Z.

(** [Math.floor] and [Math.ceil], read as integers; the arguments of this
    program are finite. *)
Definition floor (x : spec_float) : Z :=
  match x with
  | S754_finite s m e => scaled s m e false
  | _ => 0%Z
  end.

Definition ceil (x : spec_float) : Z :=
  match x with
  | S754_finite s m e => scaled s m e true
  | _ => 0%Z
  end.

(** [a / b] and [a - b] on binary64 numbers. *)
Definition div (a b : spec_float) : spec_float :=
  SFdiv Number.prec Number.emax a b.

Definition sub (a b : spec_float) : spec_float :=
  SFsub Number.prec Number.emax a b.

(** The literal [1.5]. *)
Definition three_halves : spec_float := S754_finite false 3 (-1).

End Math.

(** [Math.ceil((contextLines * 2 + 1) * wrappingMultiplier)] *)
Definition linesPerMatch (contextLines : Z) : Z :=
  Math.ceil (Number.mul (Number.ofZ (contextLines * 2 + 1)) Math.three_halves).

(** [Math.max(1, Math.floor(availableLines / perMatch))] *)
Definition matchesThatFit (availableLines perMatch : Z) : Z :=
  Z.max 1 (Math.floor (Math.div (Number.ofZ availableLines)
                         (Number.ofZ perMatch))).

(** The lines left for the preview on a terminal of [rows] lines
    ([process.stdout.rows], [None] when it is not a number). *)
Definition availableLines (rows : option Z) : Z :=
  let terminalHeight :=
    match rows with
    | Some r => if (r =? 0)%Z then 24%Z else r
    | None => 24%Z
    end in
  let headerLines := 4%Z in
  let navigationLines := 6%Z in
  let bufferLines := 3%Z in
  Z.max 3 (terminalHeight - headerLines - navigationLines - bufferLines).

(** The pair of [contextLines] and [maxMatches] that the preview loop
    hands to [findContextInFile] and [formatPreview]. *)
Definition previewLayout (rows : option Z) : Z * Z :=
  let availableLines := availableLines rows in
  let contextLines := 3%Z in
  let maxMatches := 2%Z in
  let wrappingMultiplier := Math.three_halves in
  let estimatedLinesPerMatch := linesPerMatch contextLines in
  if (estimatedLinesPerMatch >? availableLines)%Z then
    (Z.max 1
       (Math.floor
          (Math.div
             (Math.sub (Math.div (Number.ofZ availableLines) wrappingMultiplier)
                (Number.ofZ 1))
             (Number.ofZ 2))),
     1%Z)
  else
    let maxMatches := matchesThatFit availableLines estimatedLinesPerMatch in
    if (availableLines >=? 15)%Z then
      (4%Z, matchesThatFit availableLines (linesPerMatch 4))
    else if (availableLines >=? 10)%Z then
      (3%Z, matchesThatFit availableLines (linesPerMatch 3))
    else (contextLines, maxMatches).

(** ** Names, service answers and the export *)

(** [record.name ? record.name.split('/').pop() : fallback]; [None] is a
    record without [name]. *)
Definition recordFileName (name : option str) (fallback : str) : str :=
  match name with
  | Some n => if truthy n then last (splitOn (chr "/") n) [] else fallback
  | None => fallback
  end.

(** The answer of the service to a request: the fields of the response
    that the program reads, and the text of its body. *)
Record response : Type := mkResponse {
  ok : bool;
  status : Z;
  statusText : str;
  text : str
}.

Definition BASE_URL : str := lit "https://2.intelx.io".

(** The address of the preview of a file. *)
Definition previewUrl (API_KEY storageId bucketName : str) : str :=
  BASE_URL ++ lit "/file/view?f=0&storageid=" ++ storageId ++
  lit "&bucket=" ++ bucketName ++ lit "&k=" ++ API_KEY ++
  lit "&license=researcher".

Section Fetch.

Variable World : Type.

(** [fetch], with the reading of the body: the response, or the message
    of the error thrown. *)
Variable fetch : str -> World -> (response + str) * World.

(** The key, held in the variable [API_KEY]. *)
Variable API_KEY : str.

(** [getFilePreview(storageId, bucket)] *)
Definition getFilePreview (storageId bucketName : str) (w : World)
    : fetched * World :=
  let url := previewUrl API_KEY storageId bucketName in
  let (answer, w') := fetch url w in
  match answer with
  | inl r =>
      if negb (ok r) then
        (Failed (lit "Get file preview failed: " ++ toString (status r) ++
                 chr " " :: statusText r), w')
      else (Content (text r), w')
  | inr message => (Failed message, w')
  end.

End Fetch.

(** The content of the export:
    [records.map(rec => rec.systemid).filter(id => id).join('\n')];
    [None] is a record without [systemid]. *)
Definition exportContent (systemids : list (option str)) : str :=
  let systemIds :=
    filter truthy (map (fun id => match id with Some s => s | None => [] end)
                     systemids) in
  join [LF] systemIds.

(** ** Downloading the files of a tree *)

(** What the download of the selected files does to the outside, in
    order: console lines (by content), requests and the call of
    [createZip]. *)
Inductive downloadEffect : Type :=
| LogNoFilesSelected
| LogDownloading (count : Z)
| LogFile (position count : Z) (shown : str)
| Download (systemid bucketName : str)
| LogDone
| LogError (message : str)
| CreateZip (files : list (str * str)) (outputPath : str)
| LogDownloaded (count : Z) (outputPath : str)
| LogNoneDownloaded.

(** How an awaited promise ends. *)
Inductive settlement : Type :=
| Resolved
| Rejected (message : str)
| Pending.

(** How the lines of the download end: they reach the end of the branch,
    or an error leaves them for the handler of the menu loop, or they
    wait for ever. *)
Inductive ending : Type :=
| Finished
| Thrown (message : str)
| Waiting.

Section Downloads.

Variable World : Type.

(** [downloadFile(fileSystemId, bucket)]: the data, or the message of the
    error thrown. *)
Variable downloadFile : str -> str -> World -> (str + str) * World.

(** [createZip(files, outputPath)]: its promise resolves, or is rejected
    with an error, or is never settled; what the archive then holds is
    the business of the archiver. *)
Variable createZip : list (str * str) -> str -> World -> settlement * World.

(** The loop [for (let i = 0; i < filesToDownload.length; i++)] over the
    files of the tree, from index [i]; an entry of [downloadedFiles] is
    the pair of [path] and [data]. *)
Fixpoint downloadFiles (bucketName : str) (count i : Z) (todo : list file)
    (downloadedFiles : list (str * str)) (w : World)
    (t : list downloadEffect)
    : list (str * str) * World * list downloadEffect :=
  match todo with
  | [] => (downloadedFiles, w, t)
  | f :: todo' =>
      let t1 :=
        t ++ [LogFile (i + 1) count (orStr (relativePath f) (fileName f))] in
      let (res, w') := downloadFile (did f) bucketName w in
      let t2 := t1 ++ [Download (did f) bucketName] in
      match res with
      | inl data =>
          downloadFiles bucketName count (i + 1) todo'
            (downloadedFiles ++ [(relativePath f, data)]) w' (t2 ++ [LogDone])
      | inr message =>
          downloadFiles bucketName count (i + 1) todo' downloadedFiles w'
            (t2 ++ [LogError message])
      end
  end.

(** From the selection to the archive: nothing is done without a file
    selected, and [createZip] is called when a download succeeded.  Its
    rejection is not caught in these lines, and the line that tells the
    number of files downloaded is written after its promise resolved. *)
Definition downloadSelected (filesToDownload : list file)
    (bucketName outputPath : str) (w : World)
    : list downloadEffect * ending * World :=
  let count := Z.of_nat (length filesToDownload) in
  if (count =? 0)%Z then ([LogNoFilesSelected], Finished, w)
  else
    let '(downloadedFiles, w', t) :=
      downloadFiles bucketName count 0 filesToDownload [] w
        [LogDownloading count] in
    if (Z.of_nat (length downloadedFiles) >? 0)%Z then
      let (settled, w'') := createZip downloadedFiles outputPath w' in
      match settled with
      | Resolved =>
          (t ++ [CreateZip downloadedFiles outputPath;
                 LogDownloaded (Z.of_nat (length downloadedFiles))
                   outputPath],
           Finished, w'')
      | Rejected message =>
          (t ++ [CreateZip downloadedFiles outputPath], Thrown message, w'')
      | Pending =>
          (t ++ [CreateZip downloadedFiles outputPath], Waiting, w'')
      end
    else (t ++ [LogNoneDownloaded], Finished, w').

End Downloads.

(* ================================================================== *)
(** * Reference descriptions

    What the patterns of the source find, written as direct functions on
    the text.  The program above never uses them; the theorems compare
    them with what the matcher computes. *)
(* ================================================================== *)

(** Two code units that differ at most by case. *)
Definition sameLetter (a c : ascii) : bool :=
  (canonicalize true a =? canonicalize true c)%N.

(** Removes the prefix [d] from [s], comparing units with [eq]. *)
Fixpoint stripPrefix (eq : ascii -> ascii -> bool) (d s : str) : option str :=
  match d with
  | [] => Some s
  | a :: d' =>
      match s with
      | c :: s' => if eq a c then stripPrefix eq d' s' else None
      | [] => None
      end
  end.

(** A unit that may stand in a username or password: neither the
    delimiter nor white space. *)
Definition credChar (delim c : ascii) : bool :=
  negb (eqc c delim || isSpace c).

(** The optional path: a slash and everything up to the next delimiter. *)
Definition skipPath (delim : ascii) (s : str) : str :=
  match s with
  | c :: s' =>
      if eqc c (chr "/") then dropWhile (fun x => negb (eqc x delim)) s'
      else s
  | [] => []
  end.

(** [(/<path>)?<delim><username><delim><password>] at the head of [s]:
    the username, the password and the text left after them.  Username
    and password are the longest runs of units allowed in them, and
    neither is empty. *)
Definition tripleTail (delim : ascii) (s : str) : option (str * str * str) :=
  match skipPath delim s with
  | d1 :: s2 =>
      let username := takeWhile (credChar delim) s2 in
      match dropWhile (credChar delim) s2 with
      | d2 :: s3 =>
          let password := takeWhile (credChar delim) s3 in
          if eqc d1 delim && eqc d2 delim &&
             truthy username && truthy password
          then Some (username, password, dropWhile (credChar delim) s3)
          else None
      | [] => None
      end
  | [] => None
  end.

(** The same after the domain, matched up to case. *)
Definition tripleBody (delim : ascii) (domain s : str)
    : option (str * str * str) :=
  match stripPrefix sameLetter domain s with
  | None => None
  | Some s1 => tripleTail delim s1
  end.

(** The optional protocol prefix [http://] or [https://], in any case. *)
Definition stripProtocol (s : str) : option str :=
  match stripPrefix sameLetter (lit "http") s with
  | None => None
  | Some s1 =>
      match stripPrefix sameLetter (lit "s://") s1 with
      | Some s2 => Some s2
      | None => stripPrefix sameLetter (lit "://") s1
      end
  end.

(** Pattern A and pattern B at the head of [s]. *)
Definition tripleA (domain s : str) : option (str * str * str) :=
  tripleBody (chr ":") domain s.

Definition tripleB (domain s : str) : option (str * str * str) :=
  match stripProtocol s with
  | Some s' => orElse (tripleBody (chr "|") domain s')
                      (tripleBody (chr "|") domain s)
  | None => tripleBody (chr "|") domain s
  end.

(** All non-overlapping occurrences, leftmost first: the credentials
    ["username:password"] in the order found.  [skip] counts the units of
    the last occurrence still to pass over. *)
Fixpoint scanTriples (triple : str -> option (str * str * str))
    (skip : nat) (s : str) : list str :=
  match skip with
  | S n =>
      match s with
      | [] => []
      | _ :: s' => scanTriples triple n s'
      end
  | O =>
      match triple s with
      | Some (username, password, after) =>
          (username ++ chr ":" :: password) ::
          match s with
          | [] => []
          | _ :: s' => scanTriples triple (length s - length after - 1) s'
          end
      | None =>
          match s with
          | [] => []
          | _ :: s' => scanTriples triple 0 s'
          end
      end
  end.

(** Every credential found by either pattern. *)
Definition foundCredentials (text domain : str) : list str :=
  scanTriples (tripleA domain) 0 text ++ scanTriples (tripleB domain) 0 text.

(** [t] is [d] up to the case of its letters. *)
Definition sameText (d t : str) : Prop := stripPrefix sameLetter d t = Some [].

(** The credential stands in the text in one of the two encodings: after
    the domain (in any case) and an optional path, delimited by [d], the
    username and the password are non-empty runs of units other than the
    delimiter and white space, and the password is not followed by such a
    unit.  With colons there is no protocol; with pipes the protocol
    [http://] or [https://] (in any case) may come first. *)
Definition credentialOccurrence (domain text credential : str) : Prop :=
  exists before proto dom path d username password after,
    text = before ++ proto ++ dom ++ path ++
           d :: username ++ d :: password ++ after /\
    credential = username ++ chr ":" :: password /\
    sameText domain dom /\
    (path = [] \/
     exists q, path = chr "/" :: q /\
               forallb (fun x => negb (eqc x d)) q = true) /\
    username <> [] /\ password <> [] /\
    forallb (credChar d) username = true /\
    forallb (credChar d) password = true /\
    match after with [] => True | c :: _ => credChar d c = false end /\
    ((d = chr ":" /\ proto = []) \/
     (d = chr "|" /\
      (proto = [] \/ sameText (lit "http://") proto \/
       sameText (lit "https://") proto))).

(** The window of the line at index [i]: its own [contextLines] lines on
    each side, clipped to the file. *)
Definition windowAt (lines : list str) (contextLines : Z) (i : nat)
    : matchWindow :=
  let start := Z.max 0 (Z.of_nat i - contextLines) in
  mkWindow (Z.of_nat i + 1)
    (slice lines start
       (Z.min (Z.of_nat (length lines)) (Z.of_nat i + contextLines + 1)))
    (Z.of_nat i - start).

(** The protocol prefix removed by the classifier: [https://] or
    [http://], in lower case, at the very start. *)
Definition dropProtocol (s : str) : str :=
  match stripPrefix eqc (lit "https://") s with
  | Some t => t
  | None =>
      match stripPrefix eqc (lit "http://") s with
      | Some t => t
      | None => s
      end
  end.

Definition notSlash (c : ascii) : bool := negb (eqc c (chr "/")).

(** The shape tested by the classifier: an alphanumeric unit, any run of
    alphanumerics and hyphens, a dot, at least two letters; whatever
    follows is not looked at. *)
Definition isAlnum (c : ascii) : bool := classMem alnum c.
Definition isAlpha (c : ascii) : bool := classMem alpha c.
Definition isAlnumHyphen (c : ascii) : bool :=
  classMem (alnum ++ [CChar (chr "-")]) c.

Definition dotTld (s : str) : bool :=
  match s with
  | d :: a :: b :: _ => eqc d (chr ".") && isAlpha a && isAlpha b
  | _ => false
  end.

Definition domainPrefix (s : str) : bool :=
  match s with
  | c :: s1 => isAlnum c && dotTld (dropWhile isAlnumHyphen s1)
  | [] => false
  end.

(** The shape [label(-label)*.tld] read on the whole string: labels of
    one or more alphanumerics joined by single hyphens, a dot, and a last
    segment of two or more letters that ends the string. *)
Fixpoint labelsThenTld (inLabel : bool) (s : str) : bool :=
  match s with
  | [] => false
  | c :: s' =>
      if isAlnum c then labelsThenTld true s'
      else if eqc c (chr "-") then
        inLabel && match s' with
                   | d :: _ => isAlnum d && labelsThenTld false s'
                   | [] => false
                   end
      else if eqc c (chr ".") then
        inLabel && (2 <=? length s')%nat && forallb isAlpha s'
      else false
  end.

Definition domainShape (s : str) : bool := labelsThenTld false s.

(** A sequence of ANSI styling: ESC, an opening bracket, digits and
    semicolons, and the letter m.  The text after it, if [s] starts with
    one. *)
Definition isAnsiParam (c : ascii) : bool :=
  classMem [CRange (chr "0") (chr "9"); CChar (chr ";")] c.

Definition ansiPrefix (s : str) : option str :=
  match s with
  | e :: b :: s1 =>
      if eqc e ESC && eqc b (chr "[") then
        match dropWhile isAnsiParam s1 with
        | m :: s2 => if eqc m (chr "m") then Some s2 else None
        | [] => None
        end
      else None
  | _ => None
  end.

(** What a maximal run of white space becomes under [normalizeSpaces]. *)
Definition collapse (run : str) : str :=
  if (3 <=? length run)%nat then lit "   " else run.

(* ================================================================== *)
(** * Auxiliary definitions

    Names for the objects the statements and proofs below speak of. *)
(* ================================================================== *)

(** The greedy star over a class, as a plain recursion on the input: the
    longest run first, shorter ones on failure of the continuation. *)
Fixpoint starClass (p : ascii -> bool) (k : state -> option state)
    (i : nat) (s : str) (caps : list (nat * str)) : option state :=
  match s with
  | c :: s' =>
      if p c then orElse (starClass p k (S i) s' caps) (k (mkState i s caps))
      else k (mkState i s caps)
  | [] => k (mkState i [] caps)
  end.

(** Whether an attempt of the matcher succeeded. *)
Definition isSome {A} (o : option A) : bool :=
  match o with
  | Some _ => true
  | None => false
  end.

(** The loop of [normalizeSpaces], started at index [i]. *)
Definition normalizeFrom (i : nat) (s : str) : str :=
  replaceLoop false gapRe (fun _ => lit "   ") i 0 s.

(** A unit that [escapeRegExp] puts a backslash before. *)
Definition isSyntaxChar (c : ascii) : bool := classMem syntaxChars c.

(** What both patterns have after the domain, for the delimiter [d]. *)
Definition tripleRe (d : ascii) : regex :=
  SeqAll [Opt (Seq (Char (chr "/")) (Star (Class true [CChar d])));
          Char d;
          Group 1 (Plus (Class true [CChar d; CSpace]));
          Char d;
          Group 2 (Plus (Class true [CChar d; CSpace; CChar LF]))].

(** Adding the credentials of a list to the set, one by one. *)
Definition addAll (l acc : list str) : list str :=
  fold_left (fun a c => setAdd c a) l acc.

(** The order of the sort, and its strict part. *)
Definition leStr (a b : str) : Prop := leb a b = true.
Definition ltStr (a b : str) : Prop := ltb a b = true.

(** A string that fits on one line. *)
Definition noLF (s : str) : bool := forallb (fun c => negb (eqc c LF)) s.

(** A fetch that failed with the quota signal. *)
Definition isQuotaFailure (res : fetched) : bool :=
  match res with
  | Failed message => quotaSignal message
  | Content _ => false
  end.

(** A fetch that failed, for whatever reason. *)
Definition isFailure (res : fetched) : bool :=
  match res with
  | Failed _ => true
  | Content _ => false
  end.

(** The credentials a fetched text contributes. *)
Definition credentialsOf (domainName : str) (res : fetched) : list str :=
  match res with
  | Content text => foundCredentials text domainName
  | Failed _ => []
  end.

(** The records whose preview was requested, as recorded in the trace. *)
Fixpoint fetchesOf (t : list effect) : list record :=
  match t with
  | [] => []
  | Fetch r :: t' => r :: fetchesOf t'
  | _ :: t' => fetchesOf t'
  end.

(** The effect of writing a file. *)
Definition isWrite (e : effect) : bool :=
  match e with
  | WriteFile _ _ => true
  | _ => false
  end.

(** Whether the attempts end in a quota failure, and how many of them
    failed. *)
Definition stopped (a : list (record * fetched)) : bool :=
  existsb (fun x => isQuotaFailure (snd x)) a.

Definition failures (a : list (record * fetched)) : Z :=
  Z.of_nat (length (filter (fun x => isFailure (snd x)) a)).

(** A service that answers every preview request with the same three
    lines, and reports no limits. *)
Definition sampleText : str :=
  lit "example.com:bob:pw2" ++ [LF] ++
  lit "example.com/login:alice:secret1" ++ [LF] ++
  lit "https://example.com/login|bob|pw2".

Definition samplePreview (storageId bucketName : str) (w : unit)
    : fetched * unit :=
  (Content sampleText, w).

Definition sampleLimits (w : unit) : limits * unit := (Limits None, w).

Definition sampleEffects : list effect :=
  [LogGenerating (lit "example.com") 1 None;
   Fetch (mkRecord (lit "id") (lit "b"));
   LogProgress 1 1;
   WriteFile (lit "example.com.txt")
     (lit "alice:secret1" ++ [LF] ++ lit "bob:pw2" ++ [LF]);
   LogGenerated 2].

(** The loop of [stripAnsiCodes], started at index [i]. *)
Definition stripFrom (i : nat) (s : str) : str :=
  replaceLoop false ansiRe (fun _ => []) i 0 s.

(** What the loop keeps true of [currentLine]: it is empty, or fits the
    width, or is one of the parts. *)
Definition lineInvariant (parts : list str) (w : Z) (cur : str) : Prop :=
  cur = [] \/ (visibleLength cur <= w)%Z \/ In cur parts.

(** What holds of every segment pushed: it fits the width, or it is a
    single part wider than the width, with its end trimmed. *)
Definition segmentOk (parts : list str) (w : Z) (seg : str) : Prop :=
  (visibleLength seg <= w)%Z \/
  exists part, In part parts /\ (w < visibleLength part)%Z /\
               seg = trimEnd part.

(** The binary64 test holds when the index is more than 70% of the width,
    and only when it is at least 70% of it. *)
Definition agreesWithSeventyPercent (lastSpace width : Z) : bool :=
  (if (10 * lastSpace >? 7 * width)%Z
   then beyondSeventyPercent lastSpace width else true) &&
  (if beyondSeventyPercent lastSpace width
   then (10 * lastSpace >=? 7 * width)%Z else true).

(** The [n] integers from [lo] on. *)
Definition zrange (lo : Z) (n : nat) : list Z :=
  map (fun i => (lo + Z.of_nat i)%Z) (seq 0 n).

Section Attempts.

Variable World : Type.
Variable getFilePreview : str -> str -> World -> fetched * World.

(** The fetches as the loop meets them, each record with its outcome, up
    to and including the first quota failure. *)
Fixpoint attempts (w : World) (records : list record)
    : list (record * fetched) :=
  match records with
  | [] => []
  | r :: records' =>
      let (res, w') := getFilePreview (storageid r) (bucket r) w in
      (r, res) :: (if isQuotaFailure res then [] else attempts w' records')
  end.

End Attempts.

Arguments attempts {World}.
(** The units of [s] that are not white space, in order. *)
Definition unspaced (s : str) : str := filter (fun c => negb (isSpace c)) s.

(** Every unit but [a]: the class "[^a]". *)
Definition other (a c : ascii) : bool := negb (eqc c a).

(** The text before the [did] in every link pattern. *)
Definition hrefDid : str := lit "href=" ++ DQ :: lit "/?did=".

(** The text [s] starts with a link that carries the three strings: the
    [href] with the [did], further attributes, a [title] attribute (which
    may be the end of [data-original-title]) with the path, further
    attributes, and the name as the text of the link. *)
Definition linkStart (s d path name : str) : Prop :=
  exists attrs1 attrs2 after,
    s = hrefDid ++ d ++ DQ :: attrs1 ++ lit "title=" ++ DQ :: path ++
        DQ :: attrs2 ++ chr ">" :: name ++ lit "</a>" ++ after /\
    forallb (other (chr ">")) attrs1 = true /\
    forallb (other (chr ">")) attrs2 = true.

(** The three strings of a link as the patterns delimit them. *)
Definition linkFields (d path name : str) : Prop :=
  d <> [] /\ forallb (other DQ) d = true /\
  path <> [] /\ forallb (other DQ) path = true /\
  name <> [] /\ forallb (other (chr "<")) name = true.

(** The path without its first directory: what is left of [p] after its
    first slash, when that slash is not the first unit. *)
Definition dropFirstDir (p : str) : str :=
  match takeWhile (other (chr "/")) p, dropWhile (other (chr "/")) p with
  | _ :: _, _ :: after => after
  | _, _ => p
  end.

(** The entry is that of a link of the text. *)
Definition linkOf (html : str) (f : file) : Prop :=
  (exists before s, html = before ++ s /\
                    linkStart s (did f) (fullPath f) (fileName f)) /\
  linkFields (did f) (fullPath f) (fileName f).

(** The relative path of the entry is its path without the first
    directory. *)
Definition relativeOf (f : file) : Prop :=
  relativePath f = dropFirstDir (fullPath f).

(** What the three patterns share after the [href]: the first group, the
    attributes, the text [t] in front of the path, the second group, and
    [tail], what follows the path. *)
Definition linkAfter (t : str) (tail : regex) : regex :=
  Seq (Group 1 (Plus (Class true [CChar DQ])))
    (Seq (Char DQ)
       (Seq (Star (Class true [CChar (chr ">")]))
          (Seq (Literal t)
             (Seq (Group 2 (Plus (Class true [CChar DQ]))) tail)))).

(** The end of the first pattern, and that of the other two. *)
Definition tailA : regex :=
  Seq (Literal (DQ :: lit ">"))
    (Seq (Group 3 (Plus (Class true [CChar (chr "<")])))
       (Literal (lit "</a>"))).

Definition tailB : regex :=
  Seq (Char DQ)
    (Seq (Star (Class true [CChar (chr ">")]))
       (Seq (Char (chr ">"))
          (Seq (Group 3 (Plus (Class true [CChar (chr "<")])))
             (Literal (lit "</a>"))))).

(** What the scan of the text keeps true of the entries: no two have the
    same [did], each is a link of the text, and each has its relative
    path. *)
Definition treeInvariant (html : str) (files : list file) : Prop :=
  NoDup (map did files) /\ Forall (linkOf html) files /\
  Forall relativeOf files.

(** A page with three links: two carry the same [did], and the third has
    an attribute in front of its [href]. *)
Definition sampleHtml : str :=
  lit "<li><a href=" ++ DQ :: lit "/?did=abc" ++ DQ :: lit " class=" ++
  DQ :: lit "x" ++ DQ :: lit " data-original-title=" ++
  DQ :: lit "dir/sub/file.txt" ++ DQ :: lit ">file.txt</a></li>" ++
  lit "<a href=" ++ DQ :: lit "/?did=abc" ++ DQ :: lit " data-original-title=" ++
  DQ :: lit "dir/x.txt" ++ DQ :: lit ">x.txt</a>" ++
  lit "<a id=1 href=" ++ DQ :: lit "/?did=zz" ++ DQ ::
  lit " data-original-title=" ++ DQ :: lit "/y.txt" ++ DQ :: lit " k>y.txt</a>".

Section Rows.

Variable chalk : style -> str -> str.
Variable columns : option Z.

(** One turn of the loop over the context of a window: the row of the
    line [raw] under the number [lineNum], as the match line or as a
    context line. *)
Definition renderRow (searchTerm : str) (isMatch : bool) (lineNum : Z)
    (raw : str) : str :=
  let line := normalizeSpaces raw in
  let lineNumStr := padStart 6 (toString lineNum) in
  if isMatch then renderMatchLine chalk columns searchTerm lineNumStr line
  else renderContextLine chalk columns lineNumStr line.

End Rows.

(** The limits say that no credit is left for ["/file/view"]. *)
Definition noCredit (lim : limits) : bool :=
  match lim with
  | Limits (Some fv) => (CreditMax fv >? 0)%Z && (Credit fv =? 0)%Z
  | _ => false
  end.

(** The states of the preview loop that can be reached from the first
    page by answers taken from the choices offered. *)
Inductive browsed (totalPages : Z) : browser -> Prop :=
| browsed_start : browsed totalPages (mkBrowser 0 None)
| browsed_step b nextAction b' :
    browsed totalPages b ->
    In nextAction (navChoices totalPages (currentPage b)) ->
    navigate b nextAction = Some b' ->
    browsed totalPages b'.

(** On a terminal of [rows] lines the number of matches is the whole
    number of estimates that fit the room (at least one), and when the
    room has five lines or more these estimates do fit. *)
Definition layoutFits (rows : Z) : bool :=
  let a := availableLines (Some rows) in
  let contextLines := fst (previewLayout (Some rows)) in
  let maxMatches := snd (previewLayout (Some rows)) in
  (maxMatches =? Z.max 1 (a / linesPerMatch contextLines))%Z &&
  (if (5 <=? a)%Z
   then (maxMatches * linesPerMatch contextLines <=? a)%Z else true).

(** A service that refuses every request with the status 429. *)
Definition busyService (url : str) (w : unit) : (response + str) * unit :=
  (inl (mkResponse false 429 (lit "Too Many Requests") []), w).

(** A styling sequence of the terminal with the parameters [params], and
    a run of such sequences. *)
Definition sgr (params : str) : str := ESC :: chr "[" :: params ++ [chr "m"].

Definition sgrs (l : list str) : str := concat (map sgr l).

(** A text that holds no ESC. *)
Definition plain (s : str) : bool := forallb (fun c => negb (eqc c ESC)) s.

(** The [highlighted] line of the match row. *)
Definition highlight (chalk : style -> str -> str) (searchTerm line : str)
    : str :=
  replaceAll true (Group 1 (parseEscaped (escapeRegExp searchTerm)))
    (chalk BgYellowBlack) line.

(** Styling as the terminal library does it with colours on: yellow
    background and black text before, the two resets after. *)
Definition sampleChalk (st : style) (s : str) : str :=
  match st with
  | BgYellowBlack =>
      sgrs [lit "43"; lit "30"] ++ s ++ sgrs [lit "39"; lit "49"]
  | _ => s
  end.

(** The lines of the console that sum up a run, and the file written. *)
Definition isSummary (e : effect) : bool :=
  match e with
  | LogOnlySucceeded _ | LogNoCredentials _ | WriteFile _ _
  | LogGenerated _ | LogCouldNotProcess _ => true
  | _ => false
  end.

(** The attempts that gave a text. *)
Definition successes (a : list (record * fetched)) : Z :=
  Z.of_nat (length (filter (fun x => negb (isFailure (snd x))) a)).

(** The requests made, the calls of [createZip] and the lines that tell
    a finished download, as recorded in the effects. *)
Fixpoint requestsOf (t : list downloadEffect) : list (str * str) :=
  match t with
  | [] => []
  | Download systemid bucketName :: t' =>
      (systemid, bucketName) :: requestsOf t'
  | _ :: t' => requestsOf t'
  end.

Fixpoint archivesOf (t : list downloadEffect)
    : list (list (str * str) * str) :=
  match t with
  | [] => []
  | CreateZip files outputPath :: t' => (files, outputPath) :: archivesOf t'
  | _ :: t' => archivesOf t'
  end.

Fixpoint reportsOf (t : list downloadEffect) : list (Z * str) :=
  match t with
  | [] => []
  | LogDownloaded count outputPath :: t' => (count, outputPath) :: reportsOf t'
  | _ :: t' => reportsOf t'
  end.

Section Outcomes.

Variable World : Type.
Variable downloadFile : str -> str -> World -> (str + str) * World.

(** The downloads as the loop makes them: each file with the outcome of
    its request. *)
Fixpoint outcomes (bucketName : str) (w : World) (files : list file)
    : list (file * (str + str)) :=
  match files with
  | [] => []
  | f :: files' =>
      let (res, w') := downloadFile (did f) bucketName w in
      (f, res) :: outcomes bucketName w' files'
  end.

(** The outside after these downloads. *)
Fixpoint afterDownloads (bucketName : str) (w : World) (files : list file)
    : World :=
  match files with
  | [] => w
  | f :: files' =>
      afterDownloads bucketName (snd (downloadFile (did f) bucketName w))
        files'
  end.

End Outcomes.

(** The entry handed to [createZip] that an outcome gives. *)
Definition archived (x : file * (str + str)) : list (str * str) :=
  match snd x with
  | inl data => [(relativePath (fst x), data)]
  | inr _ => []
  end.

(** Whether [domain] stands somewhere in [text], compared as the [i]
    flag of the pattern compares: unit by unit, after [Canonicalize]. *)
Fixpoint occursFolded (domain text : str) : bool :=
  match stripPrefix sameLetter domain text with
  | Some _ => true
  | None =>
      match text with
      | [] => false
      | _ :: text' => occursFolded domain text'
      end
  end.

(* ================================================================== *)
(** * Facts about code units and strings *)
(* ================================================================== *)

Lemma eqc_true (a b : ascii) : eqc a b = true <-> a = b.
Proof. unfold eqc. apply Ascii.eqb_eq. Qed.

Lemma eqc_refl (a : ascii) : eqc a a = true.
Proof. apply eqc_true. reflexivity. Qed.

Lemma eqc_sym (a b : ascii) : eqc a b = eqc b a.
Proof. unfold eqc. apply Ascii.eqb_sym. Qed.

Lemma eqs_true (a b : str) : eqs a b = true <-> a = b.
Proof.
  revert b. induction a as [|x a IH]; intros [|y b]; simpl;
    try (split; [discriminate | discriminate]); try tauto.
  rewrite andb_true_iff, eqc_true, IH. split.
  - intros [-> ->]. reflexivity.
  - intros H. injection H as -> ->. auto.
Qed.

(** Case analysis over all 256 code units. *)
Ltac each_unit c :=
  destruct c as [[] [] [] [] [] [] [] []]; vm_compute; try reflexivity;
  try discriminate.

Lemma space_class (c : ascii) : classMatches false false [CSpace] c = isSpace c.
Proof. unfold classMatches, classMem. simpl. now rewrite orb_false_r. Qed.

(* ================================================================== *)
(** * Facts about the matcher *)
(* ================================================================== *)

Lemma starLoop_class ic negated items k fuel i s caps :
  length s <= fuel ->
  starLoop (run ic (Class negated items)) k fuel (mkState i s caps)
  = starClass (classMatches ic negated items) k i s caps.
Proof.
  revert i s. induction fuel as [|fuel IH]; intros i s Hlen.
  - destruct s; [reflexivity | simpl in Hlen; lia].
  - destruct s as [|c s'];
      cbn [starLoop run advance rest index captures starClass].
    + reflexivity.
    + destruct (classMatches ic negated items c); [|reflexivity].
      replace (Nat.eqb (S i) i) with false
        by (symmetry; apply Nat.eqb_neq; lia).
      rewrite IH by (simpl in Hlen; lia). reflexivity.
Qed.

Lemma run_star_class ic negated items k i s caps :
  run ic (Star (Class negated items)) k (mkState i s caps)
  = starClass (classMatches ic negated items) k i s caps.
Proof. simpl. apply starLoop_class. lia. Qed.

(** When the continuation refuses every state that still starts with a
    unit of the class, only the longest run is left. *)
Lemma starClass_det p k i s caps :
  (forall c s' j, p c = true -> k (mkState j (c :: s') caps) = None) ->
  starClass p k i s caps
  = k (mkState (i + length (takeWhile p s)) (dropWhile p s) caps).
Proof.
  intros Hk. revert i. induction s as [|c s' IH]; intros i; simpl.
  - now rewrite Nat.add_0_r.
  - destruct (p c) eqn:Hp; simpl.
    + rewrite IH, (Hk c s' i Hp).
      replace (S i + length (takeWhile p s')) with
        (i + S (length (takeWhile p s'))) by lia.
      now destruct (k _).
    + now rewrite Nat.add_0_r.
Qed.

(** When the continuation accepts the longest run, that is the answer. *)
Lemma starClass_accept p k i s caps z :
  k (mkState (i + length (takeWhile p s)) (dropWhile p s) caps) = Some z ->
  starClass p k i s caps = Some z.
Proof.
  revert i. induction s as [|c s' IH]; intros i; simpl.
  - now rewrite Nat.add_0_r.
  - destruct (p c) eqn:Hp; simpl.
    + replace (i + S (length (takeWhile p s'))) with
        (S i + length (takeWhile p s')) by lia.
      intros H. now rewrite (IH _ H).
    + now rewrite Nat.add_0_r.
Qed.

Lemma run_seq ic r1 r2 k x : run ic (Seq r1 r2) k x = run ic r1 (run ic r2 k) x.
Proof. reflexivity. Qed.

Lemma run_char ic a k i s caps :
  run ic (Char a) k (mkState i s caps)
  = match s with
    | c :: s' =>
        if (canonicalize ic a =? canonicalize ic c)%N
        then k (mkState (S i) s' caps) else None
    | [] => None
    end.
Proof. destruct s; reflexivity. Qed.

Lemma run_class ic negated items k i s caps :
  run ic (Class negated items) k (mkState i s caps)
  = match s with
    | c :: s' =>
        if classMatches ic negated items c
        then k (mkState (S i) s' caps) else None
    | [] => None
    end.
Proof. destruct s; reflexivity. Qed.

(** A literal run of pattern characters strips that prefix. *)
Lemma run_literal ic d k i s caps :
  run ic (Literal d) k (mkState i s caps)
  = match stripPrefix
            (fun a c => (canonicalize ic a =? canonicalize ic c)%N) d s with
    | Some s' => k (mkState (i + length d) s' caps)
    | None => None
    end.
Proof.
  revert i s. induction d as [|a d IH]; intros i s; simpl.
  - now rewrite Nat.add_0_r.
  - destruct s as [|c s']; cbn [run advance rest index captures];
      [reflexivity|].
    destruct (canonicalize ic a =? canonicalize ic c)%N; [|reflexivity].
    rewrite IH. replace (S i + length d) with (i + S (length d)) by lia.
    reflexivity.
Qed.

Lemma stripPrefix_length eq d s s' :
  stripPrefix eq d s = Some s' -> length s = length d + length s'.
Proof.
  revert s. induction d as [|a d IH]; intros s; simpl.
  - intros H. now injection H as ->.
  - destruct s as [|c s0]; [discriminate|].
    destruct (eq a c); [|discriminate].
    intros H. simpl. now rewrite (IH _ H).
Qed.

Lemma stripPrefix_skipn eq d s s' :
  stripPrefix eq d s = Some s' -> s' = skipn (length d) s.
Proof.
  revert s. induction d as [|a d IH]; intros s; simpl.
  - intros H. now injection H as ->.
  - destruct s as [|c s0]; [discriminate|].
    destruct (eq a c); [|discriminate]. apply IH.
Qed.

Lemma takeWhile_dropWhile p (s : str) : takeWhile p s ++ dropWhile p s = s.
Proof.
  induction s as [|c s IH]; simpl; [reflexivity|].
  destruct (p c); simpl; [now rewrite IH | reflexivity].
Qed.

Lemma dropWhile_skipn p (s : str) :
  dropWhile p s = skipn (length (takeWhile p s)) s.
Proof.
  induction s as [|c s IH]; simpl; [reflexivity|].
  destruct (p c); simpl; [exact IH | reflexivity].
Qed.

Lemma takeWhile_firstn p (s : str) :
  takeWhile p s = firstn (length (takeWhile p s)) s.
Proof.
  induction s as [|c s IH]; simpl; [reflexivity|].
  destruct (p c); simpl; [now rewrite <- IH | reflexivity].
Qed.

Lemma takeWhile_all p (s : str) : forallb p (takeWhile p s) = true.
Proof.
  induction s as [|c s IH]; simpl; [reflexivity|].
  destruct (p c) eqn:E; simpl; [now rewrite E | reflexivity].
Qed.

Lemma dropWhile_head p (s : str) c s' :
  dropWhile p s = c :: s' -> p c = false.
Proof.
  induction s as [|x s IH]; simpl; [discriminate|].
  destruct (p x) eqn:E; [exact IH|].
  intros H. injection H as -> _. exact E.
Qed.

Lemma takeWhile_length_le p (s : str) : length (takeWhile p s) <= length s.
Proof.
  induction s as [|c s IH]; simpl; [lia|]. destruct (p c); simpl; lia.
Qed.

Lemma dropWhile_length p (s : str) :
  length (dropWhile p s) = length s - length (takeWhile p s).
Proof.
  induction s as [|c s IH]; simpl; [reflexivity|].
  destruct (p c); simpl; [exact IH | lia].
Qed.

(** When success inside the run implies success after the run, the star
    succeeds exactly when the continuation does after the longest run. *)
Lemma starClass_some p k i s caps :
  (forall j, j < length (takeWhile p s) ->
     isSome (k (mkState (i + j) (skipn j s) caps)) = true ->
     isSome (k (mkState (i + length (takeWhile p s)) (dropWhile p s) caps))
     = true) ->
  isSome (starClass p k i s caps)
  = isSome (k (mkState (i + length (takeWhile p s)) (dropWhile p s) caps)).
Proof.
  revert i. induction s as [|c s' IH]; intros i Hin.
  - simpl. now rewrite Nat.add_0_r.
  - cbn [starClass takeWhile dropWhile] in *.
    destruct (p c) eqn:Hp.
    + cbn [length] in *.
      replace (i + S (length (takeWhile p s'))) with
        (S i + length (takeWhile p s')) in * by lia.
      assert (IH' : isSome (starClass p k (S i) s' caps) =
        isSome (k (mkState (S i + length (takeWhile p s'))
                     (dropWhile p s') caps))).
      { apply IH. intros j Hj Hs. apply (Hin (S j)); [lia|].
        replace (i + S j) with (S i + j) by lia. exact Hs. }
      destruct (starClass p k (S i) s' caps) eqn:E; simpl.
      * exact IH'.
      * destruct (k (mkState i (c :: s') caps)) eqn:Ek.
        -- assert (H0 := Hin 0 ltac:(lia)). simpl in H0.
           rewrite Nat.add_0_r, Ek in H0. specialize (H0 eq_refl).
           simpl in H0, IH'. rewrite H0 in IH'. discriminate.
        -- exact IH'.
    + simpl. now rewrite Nat.add_0_r.
Qed.

Lemma takeWhile_app_stop p (a b : str) :
  forallb p a = true ->
  match b with [] => True | c :: _ => p c = false end ->
  takeWhile p (a ++ b) = a /\ dropWhile p (a ++ b) = b.
Proof.
  intros Ha Hb. induction a as [|x a IH]; simpl in *.
  - destruct b as [|c b]; simpl; [auto|]. now rewrite Hb.
  - apply andb_true_iff in Ha as [Hx Ha]. rewrite Hx.
    destruct (IH Ha) as [-> ->]. auto.
Qed.

Lemma takeWhile_app_ge p (a b : str) :
  forallb p a = true -> length a <= length (takeWhile p (a ++ b)).
Proof.
  induction a as [|x a IH]; simpl; [lia|].
  intros H. apply andb_true_iff in H as [Hx Ha]. rewrite Hx. simpl.
  specialize (IH Ha). lia.
Qed.

Lemma starClass_ext p q k i s caps :
  (forall c, p c = q c) ->
  starClass p k i s caps = starClass q k i s caps.
Proof.
  intros E. revert i. induction s as [|c s IH]; intros i; simpl;
    [reflexivity|].
  rewrite E, IH. reflexivity.
Qed.

(** ** The replacement loop *)

Lemma replaceLoop_skip ic r f i n s :
  n <= length s ->
  replaceLoop ic r f i n s = replaceLoop ic r f (i + n) 0 (skipn n s).
Proof.
  revert i s. induction n as [|n IH]; intros i s Hn.
  - now rewrite Nat.add_0_r.
  - destruct s as [|c s]; [simpl in Hn; lia|].
    cbn [replaceLoop skipn]. rewrite IH by (simpl in Hn; lia).
    now replace (S i + n) with (i + S n) by lia.
Qed.

(** ** White-space runs: the pattern of [normalizeSpaces] *)

Lemma gap_matchAt i s :
  matchAt false gapRe i s
  = if (3 <=? length (takeWhile isSpace s))%nat
    then Some (mkState (i + length (takeWhile isSpace s))
                 (dropWhile isSpace s) [])
    else None.
Proof.
  unfold matchAt, gapRe, reSpace. cbn [AtLeast].
  rewrite !run_seq.
  destruct s as [|c1 s]; [reflexivity|].
  rewrite run_class, space_class. cbn [takeWhile dropWhile].
  destruct (isSpace c1); [|reflexivity].
  destruct s as [|c2 s]; [reflexivity|].
  rewrite run_seq, run_class, space_class. cbn [takeWhile dropWhile].
  destruct (isSpace c2); [|reflexivity].
  destruct s as [|c3 s]; [reflexivity|].
  rewrite run_seq, run_class, space_class. cbn [takeWhile dropWhile].
  destruct (isSpace c3); [|reflexivity].
  rewrite run_star_class, (starClass_ext _ isSpace _ _ _ _ space_class).
  cbn [length Nat.leb].
  erewrite starClass_accept; [|reflexivity].
  do 2 f_equal. lia.
Qed.

Lemma normalizeFrom_nil i : normalizeFrom i [] = [].
Proof. reflexivity. Qed.

Lemma normalizeFrom_other i c s :
  isSpace c = false -> normalizeFrom i (c :: s) = c :: normalizeFrom (S i) s.
Proof.
  intros Hc. unfold normalizeFrom. cbn [replaceLoop].
  rewrite gap_matchAt. cbn [takeWhile]. rewrite Hc. reflexivity.
Qed.

Lemma normalizeFrom_short i s :
  length (takeWhile isSpace s) < 3 ->
  normalizeFrom i s
  = takeWhile isSpace s ++
    normalizeFrom (i + length (takeWhile isSpace s)) (dropWhile isSpace s).
Proof.
  revert i. induction s as [|c s IH]; intros i Hlen.
  - reflexivity.
  - cbn [takeWhile dropWhile] in *. destruct (isSpace c) eqn:Hc.
    + cbn [length] in Hlen. unfold normalizeFrom at 1. cbn [replaceLoop].
      rewrite gap_matchAt. cbn [takeWhile]. rewrite Hc. cbn [length].
      replace (3 <=? S (length (takeWhile isSpace s)))%nat with false
        by (symmetry; apply Nat.leb_gt; lia).
      fold (normalizeFrom (S i) s). rewrite IH by lia.
      cbn [length app]. now replace (i + S (length (takeWhile isSpace s)))
        with (S i + length (takeWhile isSpace s)) by lia.
    + cbn [length app]. now rewrite Nat.add_0_r.
Qed.

(** The unfolding of [normalizeSpaces] by maximal runs of white space. *)
Lemma normalizeFrom_run i s :
  normalizeFrom i s
  = collapse (takeWhile isSpace s) ++
    match dropWhile isSpace s with
    | [] => []
    | c :: s' =>
        c :: normalizeFrom (S (i + length (takeWhile isSpace s))) s'
    end.
Proof.
  assert (Hrest : forall j,
    normalizeFrom j (dropWhile isSpace s)
    = match dropWhile isSpace s with
      | [] => []
      | c :: s' => c :: normalizeFrom (S j) s'
      end).
  { intros j. destruct (dropWhile isSpace s) as [|c s'] eqn:E;
      [reflexivity|].
    apply normalizeFrom_other. exact (dropWhile_head _ _ _ _ E). }
  unfold collapse.
  destruct (3 <=? length (takeWhile isSpace s))%nat eqn:E3.
  - rewrite <- Hrest. unfold normalizeFrom at 1.
    destruct s as [|c s0]; [discriminate|].
    cbn [replaceLoop]. rewrite gap_matchAt, E3. cbn [index].
    replace (i + length (takeWhile isSpace (c :: s0)) - i)
      with (length (takeWhile isSpace (c :: s0))) by lia.
    destruct (length (takeWhile isSpace (c :: s0))) as [|n] eqn:En;
      [discriminate|].
    f_equal. rewrite replaceLoop_skip.
    + unfold normalizeFrom. replace (S i + n) with (i + S n) by lia.
      f_equal. rewrite dropWhile_skipn, En. reflexivity.
    + pose proof (takeWhile_length_le isSpace (c :: s0)) as Hle.
      rewrite En in Hle. simpl in Hle. lia.
  - rewrite <- Hrest. apply normalizeFrom_short.
    apply Nat.leb_gt in E3. exact E3.
Qed.

Lemma collapse_spaces run :
  forallb isSpace run = true -> forallb isSpace (collapse run) = true.
Proof.
  intros H. unfold collapse. destruct (3 <=? length run)%nat; [reflexivity|].
  exact H.
Qed.

Lemma collapse_length run : length (collapse run) <= 3.
Proof.
  unfold collapse. destruct (3 <=? length run)%nat eqn:E; [simpl; lia|].
  apply Nat.leb_gt in E. lia.
Qed.

Lemma collapse_collapse run : collapse (collapse run) = collapse run.
Proof.
  unfold collapse. destruct (3 <=? length run)%nat eqn:E.
  - reflexivity.
  - now rewrite E.
Qed.

Lemma normalizeFrom_idem_aux n :
  forall s, length s <= n ->
  forall i j, normalizeFrom i (normalizeFrom j s) = normalizeFrom j s.
Proof.
  induction n as [|n IH]; intros s Hlen i j.
  - destruct s; [reflexivity | simpl in Hlen; lia].
  - rewrite (normalizeFrom_run j s).
    set (run := takeWhile isSpace s).
    assert (Hstop : match dropWhile isSpace s with
                    | [] => True | c :: _ => isSpace c = false end).
    { destruct (dropWhile isSpace s) eqn:E; [exact I|].
      exact (dropWhile_head _ _ _ _ E). }
    set (tail := match dropWhile isSpace s with
                 | [] => []
                 | c :: s' => c :: normalizeFrom (S (j + length run)) s'
                 end).
    assert (Htail : match tail with
                    | [] => True | c :: _ => isSpace c = false end).
    { subst tail. destruct (dropWhile isSpace s); exact Hstop. }
    destruct (takeWhile_app_stop isSpace (collapse run) tail
                (collapse_spaces _ (takeWhile_all isSpace s)) Htail) as [Ht Hd].
    rewrite (normalizeFrom_run i), Ht, Hd, collapse_collapse. f_equal.
    subst tail. destruct (dropWhile isSpace s) as [|c s'] eqn:E;
      [reflexivity|].
    f_equal. apply IH.
    pose proof (dropWhile_length isSpace s) as Hl. rewrite E in Hl.
    simpl in Hl. lia.
Qed.

Lemma normalize_suffix_aux n :
  forall s, length s <= n ->
  forall i m,
    length (takeWhile isSpace (skipn m (normalizeFrom i s))) <= 3.
Proof.
  induction n as [|n IH]; intros s Hlen i m.
  - destruct s; [|simpl in Hlen; lia].
    rewrite normalizeFrom_nil. destruct m; simpl; lia.
  - rewrite (normalizeFrom_run i s).
    set (run := takeWhile isSpace s).
    assert (Hstop : match dropWhile isSpace s with
                    | [] => True | c :: _ => isSpace c = false end).
    { destruct (dropWhile isSpace s) eqn:E; [exact I|].
      exact (dropWhile_head _ _ _ _ E). }
    set (tail := match dropWhile isSpace s with
                 | [] => []
                 | c :: s' => c :: normalizeFrom (S (i + length run)) s'
                 end).
    assert (Htail : match tail with
                    | [] => True | c :: _ => isSpace c = false end).
    { subst tail. destruct (dropWhile isSpace s); exact Hstop. }
    rewrite skipn_app.
    assert (Hall : forallb isSpace (skipn m (collapse run)) = true).
    { pose proof (collapse_spaces _ (takeWhile_all isSpace s)) as Hc.
      fold run in Hc. rewrite <- (firstn_skipn m (collapse run)) in Hc.
      rewrite forallb_app in Hc. now apply andb_true_iff in Hc as [_ Hc]. }
    destruct (Nat.le_gt_cases (length (collapse run)) m) as [Hm|Hm].
    + rewrite skipn_all2 by exact Hm. cbn [app].
      subst tail. destruct (dropWhile isSpace s) as [|c s'] eqn:E.
      * destruct (m - length (collapse run)); simpl; lia.
      * destruct (m - length (collapse run)) as [|m'].
        -- cbn [skipn takeWhile]. rewrite Hstop. simpl. lia.
        -- cbn [skipn]. apply IH.
           pose proof (dropWhile_length isSpace s) as Hl. rewrite E in Hl.
           simpl in Hl. lia.
    + replace (m - length (collapse run)) with 0 by lia. cbn [skipn].
      destruct (takeWhile_app_stop isSpace _ tail Hall Htail) as [-> _].
      rewrite length_skipn. pose proof (collapse_length run). lia.
Qed.

(** C10: the white-space normalization used on context lines is
    idempotent, and its output has no run of white space longer than three
    units: from every position [m] of the output, the run of white space
    that starts there has length at most 3. *)
Theorem normalizeSpaces_idempotent_and_bounded (s : str) :
  normalizeSpaces (normalizeSpaces s) = normalizeSpaces s /\
  (forall m : nat,
     length (takeWhile isSpace (skipn m (normalizeSpaces s))) <= 3).
Proof.
  split.
  - exact (@normalizeFrom_idem_aux (length s) s (le_n _) 0 0).
  - intros m. exact (@normalize_suffix_aux (length s) s (le_n _) 0 m).
Qed.

(* ================================================================== *)
(** * The context matcher *)
(* ================================================================== *)

Lemma startsWith_spec (p s : str) :
  startsWith p s = true <-> exists after, s = p ++ after.
Proof.
  revert s. induction p as [|a p IH]; intros s; simpl.
  - split; [intros _; now exists s | reflexivity].
  - destruct s as [|b s].
    + split; [discriminate | intros [after H]; discriminate].
    + rewrite andb_true_iff, eqc_true, IH. split.
      * intros [-> [after ->]]. now exists after.
      * intros [after H]. injection H as -> ->. split; [reflexivity|].
        now exists after.
Qed.

Lemma includes_spec (s p : str) :
  includes s p = true <-> exists before after, s = before ++ p ++ after.
Proof.
  induction s as [|c s IH]; simpl.
  - rewrite orb_false_r, startsWith_spec. split.
    + intros [after H]. now exists [], after.
    + intros [before [after H]]. destruct before; [now exists after|].
      discriminate.
  - rewrite orb_true_iff, startsWith_spec, IH. split.
    + intros [[after H] | [before [after H]]].
      * now exists [], after.
      * exists (c :: before), after. simpl. now rewrite H.
    + intros [before [after H]]. destruct before as [|b before].
      * left. now exists after.
      * right. injection H as _ H. now exists before, after.
Qed.

Lemma skipn_cons_nth {A} (l : list A) i x rest :
  skipn i l = x :: rest -> nth_error l i = Some x /\ skipn (S i) l = rest.
Proof.
  revert i. induction l as [|y l IH]; intros i H.
  - destruct i; discriminate.
  - destruct i as [|i]; simpl in *.
    + now injection H as -> ->.
    + apply IH in H. exact H.
Qed.

(** The loop produces the windows of the matching lines, by increasing
    index. *)
Lemma findContextLoop_hits lines sl k todo :
  forall i, skipn i lines = todo ->
  exists hits : list nat,
    findContextLoop lines sl k (Z.of_nat i) todo
    = map (windowAt lines k) hits /\
    StronglySorted lt hits /\
    (forall j, In j hits <->
       i <= j /\ exists line, nth_error lines j = Some line /\
                              includes (toLowerCase line) sl = true).
Proof.
  induction todo as [|line todo IH]; intros i Hskip.
  - exists []. split; [reflexivity|]. split; [constructor|].
    intros j. split; [intros []|]. intros [Hij [l [Hn _]]].
    apply skipn_all_iff in Hskip.
    assert (j < length lines) by (apply nth_error_Some; congruence). lia.
  - apply skipn_cons_nth in Hskip as [Hnth Hskip].
    destruct (IH (S i) Hskip) as [hits [Heq [Hsorted Hin]]].
    cbn [findContextLoop].
    replace (Z.of_nat (S i)) with (Z.of_nat i + 1)%Z in Heq by lia.
    rewrite Heq.
    destruct (includes (toLowerCase line) sl) eqn:Hinc.
    + exists (i :: hits). split; [reflexivity|]. split.
      * constructor; [exact Hsorted|]. apply Forall_forall.
        intros j Hj. apply Hin in Hj. lia.
      * intros j. simpl. rewrite Hin. split.
        -- intros [<- | [Hj Hl]]; [|split; [lia | exact Hl]].
           split; [lia|]. now exists line.
        -- intros [Hj [l [Hn Hl]]].
           destruct (Nat.eq_dec i j) as [->|Hne]; [now left|].
           right. split; [lia|]. now exists l.
    + exists hits. split; [reflexivity|]. split; [exact Hsorted|].
      intros j. rewrite Hin. split.
      * intros [Hj Hl]. split; [lia | exact Hl].
      * intros [Hj [l [Hn Hl]]]. split; [|now exists l].
        destruct (Nat.eq_dec i j) as [->|Hne]; [|lia].
        rewrite Hnth in Hn. injection Hn as <-. congruence.
Qed.

Lemma findContextInFile_hits content term k :
  exists hits : list nat,
    findContextInFile content term k
    = map (windowAt (splitOn LF content) k) hits /\
    StronglySorted lt hits /\
    (forall i, In i hits <->
       exists line, nth_error (splitOn LF content) i = Some line /\
                    includes (toLowerCase line) (toLowerCase term) = true).
Proof.
  destruct (@findContextLoop_hits (splitOn LF content) (toLowerCase term) k
              (splitOn LF content) 0 eq_refl) as [hits [Heq [Hs Hin]]].
  exists hits. split; [exact Heq|]. split; [exact Hs|].
  intros i. rewrite Hin. split.
  - intros [_ H]. exact H.
  - intros H. split; [lia | exact H].
Qed.

(** ** Empty arguments *)

Lemma toLowerCase_nonempty (s : str) : s <> [] -> toLowerCase s <> [].
Proof. destruct s; [congruence | discriminate]. Qed.

Lemma includes_nil (s : str) : includes s [] = true.
Proof. destruct s; reflexivity. Qed.

Lemma findContextLoop_empty_term lines k todo i :
  length (findContextLoop lines [] k i todo) = length todo.
Proof.
  revert i. induction todo as [|line todo IH]; intros i; [reflexivity|].
  cbn [findContextLoop]. rewrite includes_nil. simpl. now rewrite IH.
Qed.

Lemma splitOn_nonempty sep s : splitOn sep s <> [].
Proof.
  destruct s as [|c s]; simpl; [discriminate|].
  destruct (eqc c sep); [discriminate|].
  destruct (splitOn sep s); discriminate.
Qed.

(** C4, as the code has it: an empty file text with a non-empty term
    yields no window, for every context size; an empty term matches every
    line, so the result then has one window per line of the text and is
    never empty. *)
Theorem findContextInFile_empty_arguments (content term : str) (k : Z)
    (Hterm : term <> []) :
  findContextInFile [] term k = [] /\
  length (findContextInFile content [] k) = length (splitOn LF content) /\
  findContextInFile content [] k <> [].
Proof.
  split; [|split].
  - unfold findContextInFile. simpl.
    destruct term as [|c term]; [congruence|]. reflexivity.
  - apply findContextLoop_empty_term.
  - intros H. apply (f_equal (@length _)) in H.
    unfold findContextInFile in H. cbn [toLowerCase map] in H.
    rewrite findContextLoop_empty_term in H.
    apply length_zero_iff_nil in H. exact (splitOn_nonempty _ _ H).
Qed.

Lemma findContextInFile_empty_arguments_witness :
  lit "b" <> [] /\
  findContextInFile [] (lit "b") 2 = [] /\
  length (findContextInFile (lit "ab") [] 2) = length (splitOn LF (lit "ab")) /\
  findContextInFile (lit "ab") [] 2 <> [].
Proof.
  split; [discriminate|].
  apply (@findContextInFile_empty_arguments (lit "ab") (lit "b") 2).
  discriminate.
Defined.

(** C4 as stated fails: with the empty term the one-line text "ab" yields
    a window. *)
Lemma findContextInFile_empty_term_matches :
  findContextInFile (lit "ab") [] 5
  = [mkWindow 1 [lit "ab"] 0].
Proof. reflexivity. Qed.

(* ================================================================== *)
(** * The context matcher on strings in full *)
(* ================================================================== *)

Section FullStrings.

Import Utf16.

Lemma startsWith_full_spec (p s : ustr) :
  startsWith p s = true <-> exists after, s = p ++ after.
Proof.
  revert s. induction p as [|a p IH]; intros s; simpl.
  - split; [intros _; now exists s | reflexivity].
  - destruct s as [|b s].
    + split; [discriminate | intros [after H]; discriminate].
    + rewrite andb_true_iff, N.eqb_eq, IH. split.
      * intros [-> [after ->]]. now exists after.
      * intros [after H]. injection H as -> ->. split; [reflexivity|].
        now exists after.
Qed.

Lemma includes_full_spec (s p : ustr) :
  includes s p = true <-> exists before after, s = before ++ p ++ after.
Proof.
  induction s as [|c s IH].
  - simpl. rewrite orb_false_r, startsWith_full_spec. split.
    + intros [after H]. now exists [], after.
    + intros [before [after H]]. destruct before; [|discriminate].
      now exists after.
  - cbn [includes]. rewrite orb_true_iff, startsWith_full_spec, IH. split.
    + intros [[after H] | [before [after H]]].
      * now exists [], after.
      * exists (c :: before), after. simpl. now rewrite H.
    + intros [before [after H]]. destruct before as [|b before].
      * left. now exists after.
      * right. injection H as _ H. now exists before, after.
Qed.

(** [toLowerCase] reads the rows of the code points of the string only:
    two versions of the case data that agree on them give the same
    result. *)
Lemma casedLetterNext_rows (ucd1 ucd2 : caseData) (l : list N) :
  (forall c, In c l ->
     cased ucd1 c = cased ucd2 c /\
     caseIgnorable ucd1 c = caseIgnorable ucd2 c) ->
  casedLetterNext ucd1 l = casedLetterNext ucd2 l.
Proof.
  induction l as [|c l IH]; intros H; [reflexivity|].
  cbn [casedLetterNext].
  destruct (H c (or_introl eq_refl)) as [-> ->].
  rewrite IH by (intros x Hx; apply H; now right). reflexivity.
Qed.

Lemma lowerFrom_rows (ucd1 ucd2 : caseData) (todo : list N) :
  forall before,
    (forall c, In c (before ++ todo) ->
       lowercaseMapping ucd1 c = lowercaseMapping ucd2 c /\
       cased ucd1 c = cased ucd2 c /\
       caseIgnorable ucd1 c = caseIgnorable ucd2 c) ->
    lowerFrom ucd1 before todo = lowerFrom ucd2 before todo.
Proof.
  induction todo as [|c rest IH]; intros before H; [reflexivity|].
  cbn [lowerFrom]. unfold finalSigma.
  rewrite (casedLetterNext_rows ucd1 ucd2 before)
    by (intros x Hx; apply H, in_or_app; now left).
  rewrite (casedLetterNext_rows ucd1 ucd2 rest)
    by (intros x Hx; apply H, in_or_app; right; now right).
  destruct (H c) as [-> _]; [apply in_or_app; right; now left|].
  rewrite (IH (c :: before)); [reflexivity|].
  intros x Hx. apply H. cbn [app] in Hx. apply in_or_app.
  destruct Hx as [<-|Hx]; [right; now left|].
  apply in_app_or in Hx as [Hx|Hx]; [now left | right; now right].
Qed.

Lemma toLowerCase_rows (ucd1 ucd2 : caseData) (s : ustr) :
  (forall c, In c (stringToCodePoints s) ->
     lowercaseMapping ucd1 c = lowercaseMapping ucd2 c /\
     cased ucd1 c = cased ucd2 c /\
     caseIgnorable ucd1 c = caseIgnorable ucd2 c) ->
  toLowerCase ucd1 s = toLowerCase ucd2 s.
Proof.
  intros H. unfold toLowerCase.
  now rewrite (lowerFrom_rows ucd1 ucd2 (stringToCodePoints s) [] H).
Qed.

Variable ucd : caseData.

(** The loop produces the windows of the lines that pass its test, by
    increasing index. *)
Lemma findContextLoop_full_hits lines sl k todo :
  forall i, skipn i lines = todo ->
  exists hits : list nat,
    findContextLoop ucd lines sl k (Z.of_nat i) todo
    = map (windowAt lines k) hits /\
    StronglySorted lt hits /\
    (forall j, In j hits <->
       i <= j /\ exists line, nth_error lines j = Some line /\
                              includes (toLowerCase ucd line) sl = true).
Proof.
  induction todo as [|line todo IH]; intros i Hskip.
  - exists []. split; [reflexivity|]. split; [constructor|].
    intros j. split; [intros []|]. intros [Hij [l [Hn _]]].
    apply skipn_all_iff in Hskip.
    assert (j < length lines) by (apply nth_error_Some; congruence). lia.
  - apply skipn_cons_nth in Hskip as [Hnth Hskip].
    destruct (IH (S i) Hskip) as [hits [Heq [Hsorted Hin]]].
    cbn [findContextLoop].
    replace (Z.of_nat (S i)) with (Z.of_nat i + 1)%Z in Heq by lia.
    rewrite Heq.
    destruct (includes (toLowerCase ucd line) sl) eqn:Hinc.
    + exists (i :: hits). split; [reflexivity|]. split.
      * constructor; [exact Hsorted|]. apply Forall_forall.
        intros j Hj. apply Hin in Hj. lia.
      * intros j. simpl. rewrite Hin. split.
        -- intros [<- | [Hj Hl]]; [|split; [lia | exact Hl]].
           split; [lia|]. now exists line.
        -- intros [Hj [l [Hn Hl]]].
           destruct (Nat.eq_dec i j) as [->|Hne]; [now left|].
           right. split; [lia|]. now exists l.
    + exists hits. split; [reflexivity|]. split; [exact Hsorted|].
      intros j. rewrite Hin. split.
      * intros [Hj Hl]. split; [lia | exact Hl].
      * intros [Hj [l [Hn Hl]]]. split; [|now exists l].
        destruct (Nat.eq_dec i j) as [->|Hne]; [|lia].
        rewrite Hnth in Hn. injection Hn as <-. congruence.
Qed.

Lemma windowAt_invariant (lines : list ustr) k i line :
  (0 <= k)%Z -> nth_error lines i = Some line ->
  let w := windowAt lines k i in
  (0 <= matchLine w < Z.of_nat (length (context w)))%Z /\
  nth_error (context w) (Z.to_nat (matchLine w)) = Some line /\
  (1 <= lineNumber w)%Z /\
  nth_error lines (Z.to_nat (lineNumber w - 1)) = Some line.
Proof.
  intros Hk Hnth w.
  assert (Hi : i < length lines) by (apply nth_error_Some; congruence).
  subst w. unfold windowAt. cbn [matchLine context lineNumber].
  set (n := Z.of_nat (length lines)).
  set (start := Z.max 0 (Z.of_nat i - k)).
  set (stop := Z.min n (Z.of_nat i + k + 1)).
  assert (Hstart : (0 <= start <= Z.of_nat i)%Z) by (subst start; lia).
  assert (Hstop : (Z.of_nat i + 1 <= stop <= n)%Z) by (subst stop n; lia).
  unfold slice. fold n. unfold sliceIndex.
  replace (start <? 0)%Z with false by (symmetry; apply Z.ltb_ge; lia).
  replace (stop <? 0)%Z with false by (symmetry; apply Z.ltb_ge; lia).
  rewrite (Z.min_l start n), (Z.min_l stop n) by lia.
  rewrite length_firstn, length_skipn, nth_error_firstn, nth_error_skipn.
  replace (Z.to_nat (Z.of_nat i - start) <? Z.to_nat (stop - start))
    with true by (symmetry; apply Nat.ltb_lt; lia).
  replace (Z.to_nat start + Z.to_nat (Z.of_nat i - start)) with i by lia.
  replace (Z.to_nat (Z.of_nat i + 1 - 1)) with i by lia.
  subst n. repeat split; try assumption; lia.
Qed.

(** ** Strings of units below 256 *)

Lemma latin1_cons u s :
  latin1 (u :: s) = true <-> (u < 256)%N /\ latin1 s = true.
Proof.
  unfold latin1. cbn [forallb]. now rewrite andb_true_iff, N.ltb_lt.
Qed.

Lemma latin1_app a b :
  latin1 (a ++ b) = true <-> latin1 a = true /\ latin1 b = true.
Proof. unfold latin1. now rewrite forallb_app, andb_true_iff. Qed.

Lemma stringToCodePoints_latin1 s :
  latin1 s = true -> stringToCodePoints s = s.
Proof.
  induction s as [|u s IH]; [reflexivity|].
  intros H. apply latin1_cons in H as [Hu Hs]. cbn [stringToCodePoints].
  replace (isLeadingSurrogate u) with false
    by (symmetry; unfold isLeadingSurrogate; apply andb_false_iff; left;
        apply N.leb_gt; lia).
  cbn [andb]. rewrite (IH Hs). now destruct s.
Qed.

Lemma lowerUnit_small u : (u < 256)%N -> (lowerUnit u < 256)%N.
Proof.
  unfold lowerUnit. intros H.
  destruct (_ || _) eqn:E; [|exact H].
  apply orb_true_iff in E as [E|E].
  - apply andb_true_iff in E as [_ E]. apply N.leb_le in E. lia.
  - apply andb_true_iff in E as [E _]. apply andb_true_iff in E as [_ E].
    apply N.leb_le in E. lia.
Qed.

Hypothesis rows : latin1Rows ucd.

Lemma lowerFrom_latin1 s :
  latin1 s = true -> forall before, lowerFrom ucd before s = map lowerUnit s.
Proof.
  induction s as [|c s IH]; [reflexivity|].
  intros H before. apply latin1_cons in H as [Hc Hs]. cbn [lowerFrom map].
  replace (c =? 931)%N with false by (symmetry; apply N.eqb_neq; lia).
  cbn [andb]. rewrite (rows c Hc), (IH Hs). reflexivity.
Qed.

(** On a string of units below 256, [toLowerCase] acts unit by unit. *)
Lemma toLowerCase_latin1 s :
  latin1 s = true -> toLowerCase ucd s = map lowerUnit s.
Proof.
  intros H. unfold toLowerCase.
  rewrite (stringToCodePoints_latin1 s H), (lowerFrom_latin1 s H).
  clear rows. induction s as [|c s IH]; [reflexivity|].
  apply latin1_cons in H as [Hc Hs]. cbn [map flat_map].
  rewrite (IH Hs). unfold codePointToUnits.
  pose proof (lowerUnit_small c Hc).
  replace (lowerUnit c <=? 65535)%N with true
    by (symmetry; apply N.leb_le; lia).
  reflexivity.
Qed.

(** On such strings the test of the source is containment up to case. *)
Lemma includes_lower_latin1 (line term : ustr) :
  latin1 line = true -> latin1 term = true ->
  (includes (toLowerCase ucd line) (toLowerCase ucd term) = true
   <-> containsIgnoringCase ucd line term).
Proof.
  intros Hl Ht. rewrite includes_full_spec, !toLowerCase_latin1 by assumption.
  unfold containsIgnoringCase. split.
  - intros [before [after H]].
    apply map_eq_app in H as [b [rest [-> [Hb H]]]].
    apply map_eq_app in H as [m [a [-> [Hm Ha]]]].
    exists b, m, a. split; [reflexivity|].
    apply latin1_app in Hl as [_ Hl]. apply latin1_app in Hl as [Hm' _].
    now rewrite !toLowerCase_latin1.
  - intros [b [m [a [-> Hm]]]].
    apply latin1_app in Hl as [_ Hl]. apply latin1_app in Hl as [Hm' _].
    rewrite !toLowerCase_latin1 in Hm by assumption.
    exists (map lowerUnit b), (map lowerUnit a).
    now rewrite !map_app, Hm.
Qed.

End FullStrings.

Section FullMatcher.

Import Utf16.

Lemma splitOn_latin1 content :
  latin1 content = true ->
  forall line, In line (splitOn LF content) -> latin1 line = true.
Proof.
  induction content as [|c s IH]; intros H line Hin.
  - destruct Hin as [<-|[]]. reflexivity.
  - apply latin1_cons in H as [Hc Hs]. cbn [splitOn] in Hin.
    destruct (c =? LF)%N.
    + destruct Hin as [<-|Hin]; [reflexivity | now apply IH].
    + destruct (splitOn LF s) as [|p ps] eqn:E.
      * destruct Hin as [<-|[]]. apply latin1_cons. now split.
      * destruct Hin as [<-|Hin].
        -- apply latin1_cons. split; [exact Hc|]. apply (IH Hs). now left.
        -- apply (IH Hs). now right.
Qed.

Lemma findContextInFile_full_hits ucd content term k :
  exists hits : list nat,
    findContextInFile ucd content term k
    = map (windowAt (splitOn LF content) k) hits /\
    StronglySorted lt hits /\
    (forall i, In i hits <->
       exists line, nth_error (splitOn LF content) i = Some line /\
                    includes (toLowerCase ucd line) (toLowerCase ucd term)
                    = true).
Proof.
  destruct (@findContextLoop_full_hits ucd (splitOn LF content)
              (toLowerCase ucd term) k (splitOn LF content) 0 eq_refl)
    as [hits [Heq [Hs Hin]]].
  exists hits. split; [exact Heq|]. split; [exact Hs|].
  intros i. rewrite Hin. split.
  - intros [_ H]. exact H.
  - intros H. split; [lia | exact H].
Qed.

(** The rows of the excerpt for the code points below 256. *)
Lemma sampleCaseData_rows : latin1Rows sampleCaseData.
Proof.
  intros c Hc. cbn [sampleCaseData lowercaseMapping].
  apply N.ltb_lt in Hc. now rewrite Hc.
Qed.

(** The two examples beyond the units below 256 hold for every version
    of the case data with the rows of their code points. *)
Lemma final_sigma_unmatched_in_every_version (ucd : caseData) :
  (forall c, In c [922; 927; 931; 924]%N ->
     lowercaseMapping ucd c = lowercaseMapping sampleCaseData c /\
     cased ucd c = cased sampleCaseData c /\
     caseIgnorable ucd c = caseIgnorable sampleCaseData c) ->
  findContextInFile ucd [922; 927; 931; 924; 927; 931]%N [922; 927; 931]%N 5
  = [].
Proof.
  intros H. unfold findContextInFile.
  change (splitOn LF [922; 927; 931; 924; 927; 931]%N)
    with [[922; 927; 931; 924; 927; 931]%N].
  cbn [findContextLoop].
  rewrite !(toLowerCase_rows ucd sampleCaseData)
    by (intros c Hc; apply H; cbn in Hc; cbn; tauto).
  reflexivity.
Qed.

Lemma dotted_capital_window_in_every_version (ucd : caseData) :
  (forall c, In c [304; 105]%N ->
     lowercaseMapping ucd c = lowercaseMapping sampleCaseData c /\
     cased ucd c = cased sampleCaseData c /\
     caseIgnorable ucd c = caseIgnorable sampleCaseData c) ->
  findContextInFile ucd [304%N] (units "i") 5 = [mkWindow 1 [[304%N]] 0].
Proof.
  intros H. unfold findContextInFile.
  change (splitOn LF [304%N]) with [[304%N]].
  cbn [findContextLoop].
  rewrite !(toLowerCase_rows ucd sampleCaseData)
    by (intros c Hc; apply H; cbn in Hc; cbn; tauto).
  reflexivity.
Qed.







End FullMatcher.

(* ================================================================== *)
(** * The domain classifier *)
(* ================================================================== *)

Lemma plain_class negated items c :
  classMatches false negated items c = xorb negated (classMem items c).
Proof. reflexivity. Qed.

Lemma code_eqb (a c : ascii) : (code a =? code c)%N = eqc a c.
Proof.
  unfold code, eqc. destruct (Ascii.eqb a c) eqn:E.
  - apply Ascii.eqb_eq in E. subst. apply N.eqb_refl.
  - apply N.eqb_neq. intros H. apply Ascii.eqb_neq in E. apply E.
    rewrite <- (ascii_N_embedding a), <- (ascii_N_embedding c). now f_equal.
Qed.

Lemma stripPrefix_ext (e1 e2 : ascii -> ascii -> bool) d s :
  (forall a c, e1 a c = e2 a c) -> stripPrefix e1 d s = stripPrefix e2 d s.
Proof.
  intros E. revert s. induction d as [|a d IH]; intros s; simpl;
    [reflexivity|].
  destruct s as [|c s]; [reflexivity|]. rewrite E, IH. reflexivity.
Qed.

Lemma run_literal_plain d k i s caps :
  run false (Literal d) k (mkState i s caps)
  = match stripPrefix eqc d s with
    | Some s' => k (mkState (i + length d) s' caps)
    | None => None
    end.
Proof.
  rewrite run_literal. cbn [canonicalize].
  now rewrite (stripPrefix_ext _ eqc d s code_eqb).
Qed.

(** A pattern that starts with [^] matches nowhere but at index 0. *)
Lemma search_bol ic r i s : search ic (Seq Bol r) (S i) s = None.
Proof.
  revert i. induction s as [|c s IH]; intros i; simpl; [reflexivity|].
  apply IH.
Qed.

Lemma search_bol_0 ic r s :
  search ic (Seq Bol r) 0 s
  = match matchAt ic (Seq Bol r) 0 s with
    | Some st => Some (0, st)
    | None => None
    end.
Proof.
  destruct s as [|c s]; cbn [search];
    destruct (matchAt ic (Seq Bol r) 0 _); try reflexivity.
  apply search_bol.
Qed.

(** ** The protocol prefix *)

Lemma run_opt_char ic a k i s caps :
  run ic (Opt (Char a)) k (mkState i s caps)
  = match s with
    | c :: s' =>
        if (canonicalize ic a =? canonicalize ic c)%N
        then orElse (k (mkState (S i) s' caps)) (k (mkState i s caps))
        else k (mkState i s caps)
    | [] => k (mkState i [] caps)
    end.
Proof.
  destruct s as [|c s']; cbn [run advance rest index captures];
    [reflexivity|].
  destruct (canonicalize ic a =? canonicalize ic c)%N; [|reflexivity].
  replace (Nat.eqb (S i) i) with false
    by (symmetry; apply Nat.eqb_neq; lia).
  reflexivity.
Qed.

Lemma stripPrefix_app eq d1 d2 s :
  stripPrefix eq (d1 ++ d2) s
  = match stripPrefix eq d1 s with
    | Some s1 => stripPrefix eq d2 s1
    | None => None
    end.
Proof.
  revert s. induction d1 as [|a d1 IH]; intros s; simpl; [reflexivity|].
  destruct s as [|c s]; [reflexivity|]. destruct (eq a c); [apply IH|].
  reflexivity.
Qed.

Lemma run_bol_0 ic k s caps :
  run ic Bol k (mkState 0 s caps) = k (mkState 0 s caps).
Proof. reflexivity. Qed.

Lemma protocol_matchAt s :
  matchAt false protocolRe 0 s
  = match stripPrefix eqc (lit "https://") s with
    | Some t => Some (mkState 8 t [])
    | None =>
        match stripPrefix eqc (lit "http://") s with
        | Some t => Some (mkState 7 t [])
        | None => None
        end
    end.
Proof.
  change (lit "https://") with (lit "http" ++ lit "s://").
  change (lit "http://") with (lit "http" ++ lit "://").
  rewrite !stripPrefix_app.
  unfold matchAt, protocolRe. cbn [SeqAll].
  rewrite run_seq, run_bol_0, run_seq, run_literal_plain.
  destruct (stripPrefix eqc (lit "http") s) as [s1|]; [|reflexivity].
  rewrite run_seq, run_opt_char.
  destruct s1 as [|c s1]; [reflexivity|].
  cbn [canonicalize]. rewrite code_eqb.
  change (stripPrefix eqc (lit "s://") (c :: s1))
    with (if eqc (chr "s") c then stripPrefix eqc (lit "://") s1 else None).
  destruct (eqc (chr "s") c) eqn:E.
  - apply eqc_true in E. subst c. rewrite !run_literal_plain.
    destruct (stripPrefix eqc (lit "://") s1); reflexivity.
  - rewrite run_literal_plain.
    destruct (stripPrefix eqc (lit "://") (c :: s1)); reflexivity.
Qed.

Lemma splitOn_hd sep s : hd [] (splitOn sep s) = takeWhile (fun c => negb (eqc c sep)) s.
Proof.
  induction s as [|c s IH]; simpl; [reflexivity|].
  destruct (eqc c sep); simpl; [reflexivity|].
  destruct (splitOn sep s); simpl in *; now rewrite <- IH.
Qed.

Lemma cleanDomain_spec s :
  cleanDomain s = takeWhile notSlash (dropProtocol s).
Proof.
  unfold cleanDomain. rewrite splitOn_hd. fold notSlash. f_equal.
  unfold replaceFirst, dropProtocol, protocolRe. cbn [SeqAll].
  rewrite search_bol_0.
  change (Seq Bol (Seq (Literal (lit "http"))
            (Seq (Opt (Char (chr "s"))) (Literal (lit "://")))))
    with protocolRe.
  rewrite protocol_matchAt.
  destruct (stripPrefix eqc (lit "https://") s) as [t|] eqn:E1.
  - cbn [index firstn app]. now rewrite (stripPrefix_skipn _ _ _ _ E1).
  - destruct (stripPrefix eqc (lit "http://") s) as [t|] eqn:E2;
      [|reflexivity].
    cbn [index firstn app]. now rewrite (stripPrefix_skipn _ _ _ _ E2).
Qed.

(** ** The domain shape *)

Lemma dropWhile_ext (p q : ascii -> bool) (s : str) :
  (forall c, p c = q c) -> dropWhile p s = dropWhile q s.
Proof.
  intros E. induction s as [|c s IH]; simpl; [reflexivity|].
  now rewrite E, IH.
Qed.

Lemma takeWhile_ext (p q : ascii -> bool) (s : str) :
  (forall c, p c = q c) -> takeWhile p s = takeWhile q s.
Proof.
  intros E. induction s as [|c s IH]; simpl; [reflexivity|].
  now rewrite E, IH.
Qed.

Lemma dropWhile_fixed p (s : str) :
  match s with [] => True | c :: _ => p c = false end -> dropWhile p s = s.
Proof. destruct s as [|c s]; simpl; [reflexivity|]. now intros ->. Qed.

Lemma dropWhile_skipn_run p (s : str) j :
  j <= length (takeWhile p s) -> dropWhile p (skipn j s) = dropWhile p s.
Proof.
  revert j. induction s as [|c s IH]; intros j Hj.
  - now destruct j.
  - destruct j as [|j]; [reflexivity|]. simpl in *.
    destruct (p c); simpl in *; [apply IH; lia | lia].
Qed.

Lemma alnum_hyphen c : isAlnum c = true -> isAlnumHyphen c = true.
Proof.
  unfold isAlnum, isAlnumHyphen, classMem. rewrite existsb_app.
  now intros ->.
Qed.

Lemma dot_not_alnum_hyphen c :
  eqc c (chr ".") = true -> isAlnumHyphen c = false.
Proof. intros H. apply eqc_true in H. subst c. reflexivity. Qed.

Lemma dot_not_alnum c : eqc c (chr ".") = true -> isAlnum c = false.
Proof. intros H. apply eqc_true in H. subst c. reflexivity. Qed.

Lemma dotTld_head s :
  dotTld s = true ->
  match s with [] => True | c :: _ => eqc c (chr ".") = true end.
Proof.
  destruct s as [|d [|a [|b s]]]; simpl; try discriminate.
  intros H. now repeat (apply andb_true_iff in H as [H _]).
Qed.

(** If the first unit after the alphanumerics is the dot, the run of
    alphanumerics and hyphens ends there too. *)
Lemma dotTld_same_run s :
  dotTld (dropWhile isAlnum s) = true ->
  dropWhile isAlnumHyphen s = dropWhile isAlnum s.
Proof.
  induction s as [|c s IH]; simpl; [discriminate|].
  destruct (isAlnum c) eqn:E.
  - rewrite (alnum_hyphen _ E). exact IH.
  - intros H. apply dotTld_head in H. now rewrite (dot_not_alnum_hyphen _ H).
Qed.

Lemma tld_accept j t caps :
  isSome (run false (Seq (Char (chr ".")) (AtLeast 2 (Class false alpha)))
            (fun y => Some y) (mkState j t caps))
  = dotTld t.
Proof.
  rewrite run_seq, run_char. cbn [canonicalize].
  destruct t as [|d t]; [reflexivity|]. rewrite code_eqb, eqc_sym.
  cbn [dotTld]. destruct (eqc d (chr ".")); [|now destruct t as [|? [|? ?]]].
  cbn [AtLeast]. rewrite run_seq, run_class.
  destruct t as [|a t]; [reflexivity|].
  change (classMatches false false alpha a) with (isAlpha a).
  destruct (isAlpha a); [|now destruct t].
  rewrite run_seq, run_class.
  destruct t as [|b t]; [reflexivity|].
  change (classMatches false false alpha b) with (isAlpha b).
  destruct (isAlpha b); [|reflexivity].
  rewrite run_star_class.
  erewrite starClass_accept; reflexivity.
Qed.

Lemma label_tail_accept j t caps :
  isSome (run false
            (Seq (Star (Class false alnum))
               (Seq (Char (chr ".")) (AtLeast 2 (Class false alpha))))
            (fun y => Some y) (mkState j t caps))
  = dotTld (dropWhile isAlnum t).
Proof.
  rewrite run_seq, run_star_class, starClass_det.
  - rewrite tld_accept. apply f_equal, dropWhile_ext. reflexivity.
  - intros c s' j' Hc. rewrite run_seq, run_char. cbn [canonicalize].
    rewrite code_eqb, eqc_sym.
    change (classMatches false false alnum c) with (isAlnum c) in Hc.
    destruct (eqc c (chr ".")) eqn:E; [|reflexivity].
    rewrite (dot_not_alnum _ E) in Hc. discriminate.
Qed.

Lemma domain_matchAt s :
  isSome (matchAt false domainRe 0 s) = domainPrefix s.
Proof.
  unfold matchAt, domainRe. cbn [SeqAll].
  rewrite run_seq, run_bol_0, run_seq, run_class.
  destruct s as [|c s]; [reflexivity|].
  change (classMatches false false alnum c) with (isAlnum c).
  cbn [domainPrefix]. destruct (isAlnum c); [|reflexivity].
  rewrite run_seq, run_star_class, andb_true_l.
  rewrite (starClass_ext _ isAlnumHyphen _ _ _ _
             (fun c => eq_refl : classMatches false false
                (alnum ++ [CChar (chr "-")]) c = isAlnumHyphen c)).
  rewrite starClass_some.
  - rewrite label_tail_accept. f_equal. apply dropWhile_fixed.
    destruct (dropWhile isAlnumHyphen s) as [|d t] eqn:E; [exact I|].
    apply dropWhile_head in E.
    destruct (isAlnum d) eqn:Ed; [|reflexivity].
    now rewrite (alnum_hyphen _ Ed) in E.
  - intros j Hj. rewrite !label_tail_accept. intros H.
    pose proof (dotTld_same_run _ H) as Hrun.
    rewrite dropWhile_skipn_run in Hrun by lia.
    rewrite Hrun, dropWhile_fixed; [exact H|].
    apply dotTld_head in H.
    destruct (dropWhile isAlnum (skipn j s)) as [|d t]; [exact I|].
    now apply dot_not_alnum.
Qed.

Lemma isDomain_spec s :
  isDomain s = domainPrefix (takeWhile notSlash (dropProtocol s)).
Proof.
  unfold isDomain, test, domainRe. cbn [SeqAll]. rewrite search_bol_0.
  rewrite cleanDomain_spec, <- domain_matchAt.
  unfold domainRe. cbn [SeqAll].
  now destruct (matchAt false _ 0 _).
Qed.

(** The shape [label(-label)*.tld] is accepted. *)
Lemma labels_dotTld b s :
  labelsThenTld b s = true -> dotTld (dropWhile isAlnumHyphen s) = true.
Proof.
  revert b. induction s as [|c s IH]; intros b;
    cbn [labelsThenTld dropWhile]; [discriminate|].
  destruct (isAlnum c) eqn:Ea.
  - rewrite (alnum_hyphen _ Ea). apply IH.
  - destruct (eqc c (chr "-")) eqn:Eh.
    + apply eqc_true in Eh. subst c.
      change (isAlnumHyphen (chr "-")) with true. cbv iota.
      intros H. apply andb_true_iff in H as [_ H].
      destruct s as [|d s]; [discriminate|].
      apply andb_true_iff in H as [_ H]. exact (IH _ H).
    + destruct (eqc c (chr ".")) eqn:Ed; [|discriminate].
      rewrite (dot_not_alnum_hyphen _ Ed). intros H.
      apply andb_true_iff in H as [H Hall].
      apply andb_true_iff in H as [_ Hlen].
      destruct s as [|a [|b' s]]; try discriminate.
      cbn [forallb] in Hall. cbn [dotTld]. rewrite Ed.
      apply andb_true_iff in Hall as [-> Hall].
      now apply andb_true_iff in Hall as [-> _].
Qed.

Lemma domainShape_accepted s : domainShape s = true -> domainPrefix s = true.
Proof.
  unfold domainShape. destruct s as [|c s]; [discriminate|].
  cbn [labelsThenTld domainPrefix].
  destruct (isAlnum c) eqn:Ea.
  - intros H. now rewrite (labels_dotTld _ _ H).
  - destruct (eqc c (chr "-")); [discriminate|].
    destruct (eqc c (chr ".")); discriminate.
Qed.

(** C5, as the code has it: the classifier removes a leading [http://] or
    [https://] and everything from the first slash on, and answers true
    exactly when what is left starts with an alphanumeric unit, a run of
    alphanumerics and hyphens, a dot and two letters, whatever follows.
    Every string of the shape [label(-label)*.tld] is accepted, and the
    four examples classify as the spec says. *)
Theorem isDomain_prefix_shape (searchTerm : str) :
  cleanDomain searchTerm = takeWhile notSlash (dropProtocol searchTerm) /\
  isDomain searchTerm = domainPrefix (cleanDomain searchTerm) /\
  (domainShape (cleanDomain searchTerm) = true -> isDomain searchTerm = true) /\
  isDomain (lit "example.com") = true /\
  isDomain (lit "https://example.com/path") = true /\
  isDomain (lit "user@example.com") = false /\
  isDomain (lit "1d69f42e-3e31-46cc-a349-0870d07b3b61") = false.
Proof.
  split; [apply cleanDomain_spec|]. split; [|split].
  - rewrite isDomain_spec. now rewrite cleanDomain_spec.
  - intros H. rewrite isDomain_spec, <- cleanDomain_spec.
    now apply domainShape_accepted.
  - repeat split; reflexivity.
Qed.

(** C5 as stated fails: after the two letters the classifier looks no
    further, and it lets a label end in a hyphen. *)
Lemma isDomain_accepts_other_shapes :
  isDomain (lit "example.com!") = true /\
  domainShape (cleanDomain (lit "example.com!")) = false /\
  isDomain (lit "a-.com") = true /\
  domainShape (cleanDomain (lit "a-.com")) = false.
Proof. repeat split; reflexivity. Qed.

(* ================================================================== *)
(** * The matcher on units below 256 *)
(* ================================================================== *)

(** The matcher of the first model is the matcher in full, on the
    strings of units below 256. *)

Lemma widen_latin1 (s : str) : Utf16.latin1 (widen s) = true.
Proof.
  induction s as [|c s IH]; [reflexivity|].
  apply latin1_cons. split; [apply N_ascii_bounded | exact IH].
Qed.

Lemma lowerUnit_code (c : ascii) :
  Utf16.lowerUnit (code c) = code (lowerChar c).
Proof. each_unit c. Qed.

Lemma widen_startsWith (p s : str) :
  Utf16.startsWith (widen p) (widen s) = startsWith p s.
Proof.
  revert s. induction p as [|a p IH]; intros [|b s]; try reflexivity.
  cbn [widen map Utf16.startsWith startsWith].
  rewrite code_eqb. f_equal. apply IH.
Qed.

Lemma widen_includes (s p : str) :
  Utf16.includes (widen s) (widen p) = includes s p.
Proof.
  induction s as [|c s IH].
  - cbn [widen map Utf16.includes includes].
    now rewrite <- widen_startsWith.
  - cbn [widen map Utf16.includes includes].
    change (map code s) with (widen s). rewrite IH. f_equal.
    exact (widen_startsWith p (c :: s)).
Qed.

Lemma widen_splitOn (s : str) :
  Utf16.splitOn Utf16.LF (widen s) = map widen (splitOn LF s).
Proof.
  induction s as [|c s IH]; [reflexivity|].
  cbn [widen map Utf16.splitOn splitOn].
  change (map code s) with (widen s). rewrite IH.
  change Utf16.LF with (code LF). rewrite code_eqb.
  destruct (eqc c LF); [reflexivity|].
  now destruct (splitOn LF s).
Qed.

Lemma slice_map {A B} (f : A -> B) (l : list A) a b :
  slice (map f l) a b = map f (slice l a b).
Proof.
  unfold slice. now rewrite length_map, skipn_map, firstn_map.
Qed.

Section Restriction.

Variable ucd : Utf16.caseData.
Hypothesis rows : Utf16.latin1Rows ucd.

Lemma widen_toLowerCase (s : str) :
  Utf16.toLowerCase ucd (widen s) = widen (toLowerCase s).
Proof.
  rewrite (toLowerCase_latin1 ucd rows _ (widen_latin1 s)).
  unfold widen, toLowerCase. rewrite !map_map.
  apply map_ext. intros c. apply lowerUnit_code.
Qed.

Lemma widen_findContextLoop lines sl k todo :
  forall i,
    Utf16.findContextLoop ucd (map widen lines) (widen sl) k i
      (map widen todo)
    = map widenWindow (findContextLoop lines sl k i todo).
Proof.
  induction todo as [|line todo IH]; intros i; [reflexivity|].
  cbn [map Utf16.findContextLoop findContextLoop].
  rewrite widen_toLowerCase, widen_includes, IH.
  destruct (includes (toLowerCase line) sl); [|reflexivity].
  cbn [map]. f_equal. unfold widenWindow.
  cbn [lineNumber context matchLine].
  now rewrite length_map, slice_map.
Qed.

(** On a text and a term of units below 256 the two models of the
    matcher give the same windows. *)
Lemma findContextInFile_widen (content term : str) (k : Z) :
  Utf16.findContextInFile ucd (widen content) (widen term) k
  = map widenWindow (findContextInFile content term k).
Proof.
  unfold Utf16.findContextInFile, findContextInFile.
  rewrite widen_splitOn, widen_toLowerCase.
  apply widen_findContextLoop.
Qed.

End Restriction.

(* ================================================================== *)
(** * The credential extractor *)
(* ================================================================== *)

(** ** Escaping the domain *)

Lemma escape_matchAt i s :
  matchAt false (Class false syntaxChars) i s
  = match s with
    | c :: s' => if isSyntaxChar c then Some (mkState (S i) s' []) else None
    | [] => None
    end.
Proof. unfold matchAt. now rewrite run_class. Qed.

(** The escaped text is read back as the text itself, unit for unit. *)
Lemma parseEscaped_escape_from i s :
  parseEscaped
    (replaceLoop false (Class false syntaxChars) (fun m => chr "\" :: m) i 0 s)
  = Literal s.
Proof.
  revert i. induction s as [|c s IH]; intros i; [reflexivity|].
  cbn [replaceLoop]. rewrite escape_matchAt.
  destruct (isSyntaxChar c) eqn:E.
  - cbn [index]. replace (S i - i) with 1 by lia.
    cbn [firstn app parseEscaped]. rewrite eqc_refl, IH. reflexivity.
  - cbn [parseEscaped]. destruct (eqc c (chr "\")) eqn:Eb.
    + apply eqc_true in Eb. subst c. discriminate.
    + now rewrite IH.
Qed.

Lemma parseEscaped_escape domain :
  parseEscaped (escapeRegExp domain) = Literal domain.
Proof. apply parseEscaped_escape_from. Qed.

(** ** Classes and characters under the [i] flag *)

Lemma sameLetter_colon c : sameLetter (chr ":") c = eqc c (chr ":").
Proof. each_unit c. Qed.

Lemma sameLetter_pipe c : sameLetter (chr "|") c = eqc c (chr "|").
Proof. each_unit c. Qed.

Lemma sameLetter_slash c : sameLetter (chr "/") c = eqc c (chr "/").
Proof. each_unit c. Qed.

Lemma not_colon_class c :
  classMatches true true [CChar (chr ":")] c = negb (eqc c (chr ":")).
Proof. each_unit c. Qed.

Lemma not_pipe_class c :
  classMatches true true [CChar (chr "|")] c = negb (eqc c (chr "|")).
Proof. each_unit c. Qed.

Lemma cred_colon_class c :
  classMatches true true [CChar (chr ":"); CSpace] c = credChar (chr ":") c.
Proof. each_unit c. Qed.

Lemma cred_colon_class_lf c :
  classMatches true true [CChar (chr ":"); CSpace; CChar LF] c
  = credChar (chr ":") c.
Proof. each_unit c. Qed.

Lemma cred_pipe_class c :
  classMatches true true [CChar (chr "|"); CSpace] c = credChar (chr "|") c.
Proof. each_unit c. Qed.

Lemma cred_pipe_class_lf c :
  classMatches true true [CChar (chr "|"); CSpace; CChar LF] c
  = credChar (chr "|") c.
Proof. each_unit c. Qed.

(** ** Groups of one or more class units *)

Lemma run_group ic n r k x :
  run ic (Group n r) k x
  = run ic r
      (fun y => k (setCapture n (firstn (index y - index x) (rest x)) y)) x.
Proof. reflexivity. Qed.

Lemma capture_of_run p (c : ascii) (s : str) i :
  p c = true ->
  firstn (S i + length (takeWhile p s) - i) (c :: s) = takeWhile p (c :: s).
Proof.
  intros Hc. replace (S i + length (takeWhile p s) - i)
    with (S (length (takeWhile p s))) by lia.
  cbn [firstn takeWhile]. rewrite Hc. f_equal. symmetry.
  apply takeWhile_firstn.
Qed.

(** Followed by something that refuses the units of the class, the group
    takes the longest run, which must not be empty. *)
Lemma run_group_plus_det ic n negated items k i s caps :
  (forall c s' j caps',
     classMatches ic negated items c = true ->
     k (mkState j (c :: s') caps') = None) ->
  run ic (Group n (Plus (Class negated items))) k (mkState i s caps)
  = if truthy (takeWhile (classMatches ic negated items) s)
    then k (mkState (i + length (takeWhile (classMatches ic negated items) s))
              (dropWhile (classMatches ic negated items) s)
              ((n, takeWhile (classMatches ic negated items) s) :: caps))
    else None.
Proof.
  intros Hk. rewrite run_group. unfold Plus. rewrite run_seq, run_class.
  destruct s as [|c s]; [reflexivity|]. cbn [takeWhile dropWhile].
  destruct (classMatches ic negated items c) eqn:Hc; [|reflexivity].
  rewrite run_star_class, starClass_det.
  - cbn [index rest truthy length]. unfold setCapture. cbn [index rest captures].
    rewrite (capture_of_run _ c s i Hc). cbn [takeWhile]. rewrite Hc.
    now replace (i + S (length (takeWhile (classMatches ic negated items) s)))
      with (S i + length (takeWhile (classMatches ic negated items) s)) by lia.
  - intros c' s' j Hc'. unfold setCapture. cbn [index rest captures].
    now apply Hk.
Qed.

(** At the end of the pattern the group takes the longest run. *)
Lemma run_group_plus_last ic n negated items i s caps :
  run ic (Group n (Plus (Class negated items))) (fun y => Some y)
    (mkState i s caps)
  = if truthy (takeWhile (classMatches ic negated items) s)
    then Some (mkState
                 (i + length (takeWhile (classMatches ic negated items) s))
                 (dropWhile (classMatches ic negated items) s)
                 ((n, takeWhile (classMatches ic negated items) s) :: caps))
    else None.
Proof.
  rewrite run_group. unfold Plus. rewrite run_seq, run_class.
  destruct s as [|c s]; [reflexivity|]. cbn [takeWhile dropWhile].
  destruct (classMatches ic negated items c) eqn:Hc; [|reflexivity].
  rewrite run_star_class. erewrite starClass_accept; [|reflexivity].
  cbn [index rest truthy length]. unfold setCapture. cbn [index rest captures].
  rewrite (capture_of_run _ c s i Hc). cbn [takeWhile]. rewrite Hc.
  now replace (i + S (length (takeWhile (classMatches ic negated items) s)))
    with (S i + length (takeWhile (classMatches ic negated items) s)) by lia.
Qed.

Lemma orElse_none_r {A} (a : option A) : orElse a None = a.
Proof. now destruct a. Qed.

Lemma run_opt ic r k x :
  run ic (Opt r) k x
  = orElse
      (run ic r (fun y => if Nat.eqb (index y) (index x) then None else k y) x)
      (k x).
Proof. reflexivity. Qed.

(** ** The common tail of the two patterns *)

Section Triple.

Variable d : ascii.
Hypothesis d_letter : forall c, sameLetter d c = eqc c d.
Hypothesis d_slash : eqc (chr "/") d = false.
Hypothesis d_not :
  forall c, classMatches true true [CChar d] c = negb (eqc c d).
Hypothesis d_cred :
  forall c, classMatches true true [CChar d; CSpace] c = credChar d c.
Hypothesis d_cred_lf :
  forall c, classMatches true true [CChar d; CSpace; CChar LF] c = credChar d c.

Lemma skipPath_length s : length (skipPath d s) <= length s.
Proof.
  destruct s as [|c s]; cbn [skipPath]; [lia|].
  destruct (eqc c (chr "/")); [|lia].
  rewrite dropWhile_length. cbn [length]. lia.
Qed.

(** The optional path, before a continuation that wants the delimiter. *)
Lemma run_path k i s caps :
  (forall c s' j, eqc c d = false -> k (mkState j (c :: s') caps) = None) ->
  run true (Opt (Seq (Char (chr "/")) (Star (Class true [CChar d])))) k
    (mkState i s caps)
  = k (mkState (i + (length s - length (skipPath d s))) (skipPath d s) caps).
Proof.
  intros Hk. rewrite run_opt, run_seq, run_char. cbn [index].
  destruct s as [|c s].
  - cbn [skipPath length orElse]. now rewrite Nat.add_0_r.
  - cbn [skipPath]. fold (sameLetter (chr "/") c).
    rewrite sameLetter_slash. destruct (eqc c (chr "/")) eqn:Es.
    + apply eqc_true in Es. subst c.
      rewrite run_star_class, starClass_det.
      * cbn [index].
        replace (Nat.eqb (S i + _) i) with false
          by (symmetry; apply Nat.eqb_neq; lia).
        rewrite (Hk _ _ _ d_slash), orElse_none_r.
        rewrite (takeWhile_ext _ (fun x => negb (eqc x d)) s d_not).
        rewrite (dropWhile_ext _ (fun x => negb (eqc x d)) s d_not).
        f_equal. f_equal. cbn [length].
        pose proof (takeWhile_length_le (fun x => negb (eqc x d)) s).
        rewrite dropWhile_length. lia.
      * intros c' s' j Hc'. rewrite d_not in Hc'. cbn [index].
        destruct (Nat.eqb j i); [reflexivity|]. apply Hk.
        now destruct (eqc c' d).
    + cbn [orElse]. f_equal. f_equal. lia.
Qed.

Lemma wants_delimiter r k c s' j caps :
  eqc c d = false ->
  run true (Seq (Char d) r) k (mkState j (c :: s') caps) = None.
Proof.
  intros H. rewrite run_seq, run_char. fold (sameLetter d c).
  now rewrite d_letter, H.
Qed.

Lemma credChar_not_delim c : credChar d c = true -> eqc c d = false.
Proof. unfold credChar. now destruct (eqc c d). Qed.

(** The tail of the patterns finds what [tripleTail] describes. *)
Lemma tripleRe_run i s :
  run true (tripleRe d) (fun y => Some y) (mkState i s [])
  = match tripleTail d s with
    | Some (u, p, after) =>
        Some (mkState (i + (length s - length after)) after [(2, p); (1, u)])
    | None => None
    end.
Proof.
  unfold tripleRe, tripleTail. cbn [SeqAll].
  rewrite run_seq, run_path by (intros; now apply wants_delimiter).
  pose proof (skipPath_length s) as Hlen.
  destruct (skipPath d s) as [|d1 s2]; [reflexivity|].
  rewrite run_seq, run_char. fold (sameLetter d d1). rewrite d_letter.
  destruct (eqc d1 d) eqn:E1; cbn [andb];
    [|now destruct (dropWhile (credChar d) s2)].
  rewrite run_seq, run_group_plus_det.
  2:{ intros c s' j caps' Hc. apply wants_delimiter.
      rewrite d_cred in Hc. now apply credChar_not_delim. }
  rewrite (takeWhile_ext _ (credChar d) s2 d_cred).
  rewrite (dropWhile_ext _ (credChar d) s2 d_cred).
  pose proof (takeWhile_dropWhile (credChar d) s2) as Hs2.
  apply (f_equal (@length _)) in Hs2. rewrite length_app in Hs2.
  destruct (dropWhile (credChar d) s2) as [|d2 s3];
    [now destruct (truthy (takeWhile (credChar d) s2))|].
  destruct (truthy (takeWhile (credChar d) s2)) eqn:Eu;
    [|now rewrite andb_false_r].
  rewrite run_seq, run_char. fold (sameLetter d d2). rewrite d_letter.
  destruct (eqc d2 d) eqn:E2; [|reflexivity].
  rewrite run_group_plus_last.
  rewrite (takeWhile_ext _ (credChar d) s3 d_cred_lf).
  rewrite (dropWhile_ext _ (credChar d) s3 d_cred_lf).
  pose proof (takeWhile_dropWhile (credChar d) s3) as Hs3.
  apply (f_equal (@length _)) in Hs3. rewrite length_app in Hs3.
  cbn [andb]. destruct (truthy (takeWhile (credChar d) s3)); [|reflexivity].
  f_equal. f_equal. cbn [length] in *. lia.
Qed.

Lemma tripleTail_length s u p after :
  tripleTail d s = Some (u, p, after) -> length after < length s.
Proof.
  unfold tripleTail. pose proof (skipPath_length s) as Hlen.
  destruct (skipPath d s) as [|d1 s2]; [discriminate|].
  pose proof (dropWhile_length (credChar d) s2) as H2.
  destruct (dropWhile (credChar d) s2) as [|d2 s3]; [discriminate|].
  destruct (_ && _); [|discriminate]. intros H. injection H as _ _ <-.
  pose proof (dropWhile_length (credChar d) s3) as H3.
  cbn [length] in *. lia.
Qed.

(** Username and password hold no white space and no delimiter, and are
    not empty. *)
Lemma tripleTail_clean s u p after :
  tripleTail d s = Some (u, p, after) ->
  forallb (credChar d) u = true /\ forallb (credChar d) p = true /\
  truthy u = true /\ truthy p = true.
Proof.
  unfold tripleTail.
  destruct (skipPath d s) as [|d1 s2]; [discriminate|].
  destruct (dropWhile (credChar d) s2) as [|d2 s3]; [discriminate|].
  destruct (_ && _) eqn:E; [|discriminate].
  intros H. injection H as <- <- _.
  apply andb_true_iff in E as [E Hp]. apply andb_true_iff in E as [_ Hu].
  repeat split; auto using takeWhile_all.
Qed.

End Triple.


(** ** The two patterns *)

Lemma colon_slash : eqc (chr "/") (chr ":") = false.
Proof. reflexivity. Qed.

Lemma pipe_slash : eqc (chr "/") (chr "|") = false.
Proof. reflexivity. Qed.

Lemma tripleBody_length d domain s u p after :
  tripleBody d domain s = Some (u, p, after) -> length after < length s.
Proof.
  unfold tripleBody.
  destruct (stripPrefix sameLetter domain s) as [s1|] eqn:E; [|discriminate].
  intros H. apply tripleTail_length in H.
  apply stripPrefix_length in E. lia.
Qed.

Lemma domain_triple_run d domain i s :
  (forall c, sameLetter d c = eqc c d) ->
  eqc (chr "/") d = false ->
  (forall c, classMatches true true [CChar d] c = negb (eqc c d)) ->
  (forall c, classMatches true true [CChar d; CSpace] c = credChar d c) ->
  (forall c, classMatches true true [CChar d; CSpace; CChar LF] c
             = credChar d c) ->
  run true (Seq (Literal domain) (tripleRe d)) (fun y => Some y)
    (mkState i s [])
  = match tripleBody d domain s with
    | Some (u, p, after) =>
        Some (mkState (i + (length s - length after)) after [(2, p); (1, u)])
    | None => None
    end.
Proof.
  intros H1 H2 H3 H4 H5. rewrite run_seq, run_literal. unfold tripleBody.
  change (fun a c => (canonicalize true a =? canonicalize true c)%N)
    with sameLetter.
  destruct (stripPrefix sameLetter domain s) as [s1|] eqn:E; [|reflexivity].
  rewrite (tripleRe_run d H1 H2 H3 H4 H5).
  destruct (tripleTail d s1) as [[[u p] after]|] eqn:Et; [|reflexivity].
  apply tripleTail_length in Et. apply stripPrefix_length in E.
  f_equal. f_equal. lia.
Qed.

Lemma pattern1_matchAt domain i s :
  matchAt true (pattern1 domain) i s
  = match tripleA domain s with
    | Some (u, p, after) =>
        Some (mkState (i + (length s - length after)) after [(2, p); (1, u)])
    | None => None
    end.
Proof.
  unfold matchAt, pattern1, tripleA. cbn [SeqAll].
  rewrite parseEscaped_escape.
  exact (domain_triple_run (chr ":") domain i s sameLetter_colon
           colon_slash not_colon_class cred_colon_class cred_colon_class_lf).
Qed.

Lemma letter_s_not_colon c :
  sameLetter (chr "s") c = true -> sameLetter (chr ":") c = false.
Proof. each_unit c. Qed.

Lemma stripProtocol_length s s2 :
  stripProtocol s = Some s2 -> length s2 < length s.
Proof.
  unfold stripProtocol.
  destruct (stripPrefix sameLetter (lit "http") s) as [s1|] eqn:E1;
    [|discriminate].
  apply stripPrefix_length in E1.
  destruct (stripPrefix sameLetter (lit "s://") s1) as [t|] eqn:E2.
  - intros H. injection H as <-. apply stripPrefix_length in E2.
    simpl in *. lia.
  - intros H. apply stripPrefix_length in H. simpl in *. lia.
Qed.

(** The optional protocol, before any continuation. *)
Lemma protocol_run k i s caps :
  run true (SeqAll [Literal (lit "http"); Opt (Char (chr "s"));
                    Literal (lit "://")]) k (mkState i s caps)
  = match stripProtocol s with
    | Some s2 => k (mkState (i + (length s - length s2)) s2 caps)
    | None => None
    end.
Proof.
  cbn [SeqAll]. unfold stripProtocol. rewrite run_seq, run_literal.
  change (fun a c => (canonicalize true a =? canonicalize true c)%N)
    with sameLetter.
  destruct (stripPrefix sameLetter (lit "http") s) as [s1|] eqn:E1;
    [|reflexivity].
  apply stripPrefix_length in E1.
  rewrite run_seq, run_opt_char.
  destruct s1 as [|c s1]; [now rewrite run_literal|].
  fold (sameLetter (chr "s") c).
  change (stripPrefix sameLetter (lit "s://") (c :: s1))
    with (if sameLetter (chr "s") c
          then stripPrefix sameLetter (lit "://") s1 else None).
  destruct (sameLetter (chr "s") c) eqn:Es.
  - rewrite !run_literal.
    change (fun a c => (canonicalize true a =? canonicalize true c)%N)
      with sameLetter.
    change (stripPrefix sameLetter (lit "://") (c :: s1)) with
      (if sameLetter (chr ":") c
       then stripPrefix sameLetter (lit "//") s1 else None).
    rewrite (letter_s_not_colon _ Es).
    destruct (stripPrefix sameLetter (lit "://") s1) as [s2|] eqn:E2;
      [|reflexivity].
    apply stripPrefix_length in E2. cbn [orElse].
    rewrite orElse_none_r. f_equal. f_equal. simpl in *. lia.
  - rewrite run_literal.
    change (fun a c => (canonicalize true a =? canonicalize true c)%N)
      with sameLetter.
    destruct (stripPrefix sameLetter (lit "://") (c :: s1)) as [s2|] eqn:E2;
      [|reflexivity].
    apply stripPrefix_length in E2. f_equal. f_equal. simpl in *. lia.
Qed.

Lemma pattern2_matchAt domain i s :
  matchAt true (pattern2 domain) i s
  = match tripleB domain s with
    | Some (u, p, after) =>
        Some (mkState (i + (length s - length after)) after [(2, p); (1, u)])
    | None => None
    end.
Proof.
  unfold matchAt, pattern2, tripleB.
  change (SeqAll (?a :: ?b :: ?l)) with (Seq a (SeqAll (b :: l))).
  rewrite parseEscaped_escape, run_seq, run_opt, protocol_run.
  change (SeqAll (?a :: ?b :: ?l)) with (Seq a (SeqAll (b :: l))).
  change (SeqAll _) with (tripleRe (chr "|")).
  pose proof (fun j t => domain_triple_run (chr "|") domain j t
                sameLetter_pipe pipe_slash not_pipe_class cred_pipe_class
                cred_pipe_class_lf) as Hrun.
  rewrite Hrun. cbn [index].
  destruct (stripProtocol s) as [s2|] eqn:Ep; [|reflexivity].
  apply stripProtocol_length in Ep.
  replace (Nat.eqb (i + (length s - length s2)) i) with false
    by (symmetry; apply Nat.eqb_neq; lia).
  rewrite Hrun.
  destruct (tripleBody (chr "|") domain s2) as [[[u p] after]|] eqn:E2.
  - cbn [orElse]. apply tripleBody_length in E2. f_equal. f_equal. lia.
  - cbn [orElse]. reflexivity.
Qed.

(** ** The loops over the matches *)

Lemma dropWhile_none p (s : str) :
  forallb (fun c => negb (p c)) s = true -> dropWhile p s = s.
Proof.
  destruct s as [|c s]; simpl; [reflexivity|].
  intros H. apply andb_true_iff in H as [H _]. now destruct (p c).
Qed.

Lemma trim_clean (x : str) :
  forallb (fun c => negb (isSpace c)) x = true -> trim x = x.
Proof.
  intros H. unfold trim, trimStart, trimEnd.
  rewrite (dropWhile_none _ _ H), dropWhile_none; [apply rev_involutive|].
  apply forallb_forall. intros c Hc. apply in_rev in Hc.
  exact (proj1 (forallb_forall _ _) H c Hc).
Qed.

Lemma credChar_no_space d (x : str) :
  forallb (credChar d) x = true ->
  forallb (fun c => negb (isSpace c)) x = true.
Proof.
  intros H. apply forallb_forall. intros c Hc.
  apply (proj1 (forallb_forall _ _) H) in Hc. unfold credChar in Hc.
  now destruct (isSpace c); [rewrite orb_true_r in Hc|].
Qed.

Lemma len_truthy (x : str) : truthy x = true -> (len x >? 0)%Z = true.
Proof.
  destruct x; [discriminate|]. intros _. unfold len. apply Z.gtb_lt.
  cbn [length]. lia.
Qed.

Section Scan.

Variable r : regex.
Variable triple : str -> option (str * str * str).
Variable d : ascii.

Hypothesis r_matchAt : forall i s,
  matchAt true r i s
  = match triple s with
    | Some (u, p, after) =>
        Some (mkState (i + (length s - length after)) after [(2, p); (1, u)])
    | None => None
    end.
Hypothesis triple_length : forall s u p after,
  triple s = Some (u, p, after) -> length after < length s.
Hypothesis triple_clean : forall s u p after,
  triple s = Some (u, p, after) ->
  forallb (credChar d) u = true /\ forallb (credChar d) p = true /\
  truthy u = true /\ truthy p = true.

Lemma addCredential_found i s u p after acc :
  triple s = Some (u, p, after) ->
  addCredential
    (mkState (i + (length s - length after)) after [(2, p); (1, u)]) acc
  = setAdd (u ++ chr ":" :: p) acc.
Proof.
  intros H. destruct (triple_clean _ _ _ _ H) as [Hu [Hp [Tu Tp]]].
  unfold addCredential, capture. cbn [captures lookupCapture Nat.eqb].
  rewrite (trim_clean _ (credChar_no_space _ _ Hu)).
  rewrite (trim_clean _ (credChar_no_space _ _ Hp)).
  now rewrite Tu, Tp, (len_truthy _ Tu), (len_truthy _ Tp).
Qed.

(** The [while] loop adds exactly the credentials of the scan, and ends. *)
Lemma execLoop_scan s :
  forall i skip acc,
    execLoop true r addCredential i skip s acc
    = Some (addAll (scanTriples triple skip s) acc).
Proof.
  induction s as [|c s IH]; intros i skip acc.
  - destruct skip as [|n]; [|reflexivity].
    cbn [execLoop scanTriples]. rewrite r_matchAt.
    destruct (triple []) as [[[u p] after]|] eqn:E; [|reflexivity].
    apply triple_length in E. simpl in E. lia.
  - destruct skip as [|n]; [|apply IH].
    cbn [execLoop scanTriples]. rewrite r_matchAt.
    destruct (triple (c :: s)) as [[[u p] after]|] eqn:E; [|apply IH].
    pose proof (triple_length _ _ _ _ E) as Hlen. cbn [index].
    replace (i + (length (c :: s) - length after) - i)
      with (S (length (c :: s) - length after - 1)) by lia.
    rewrite IH. unfold addAll. cbn [fold_left].
    now rewrite (addCredential_found i _ _ _ _ acc E).
Qed.

Lemma scanTriples_clean s :
  forall skip c, In c (scanTriples triple skip s) ->
  forallb (fun x => negb (isSpace x)) c = true.
Proof.
  assert (Hone : forall t u p after, triple t = Some (u, p, after) ->
            forallb (fun x => negb (isSpace x)) (u ++ chr ":" :: p) = true).
  { intros t u p after H. destruct (triple_clean _ _ _ _ H) as [Hu [Hp _]].
    rewrite forallb_app. cbn [forallb].
    rewrite (credChar_no_space _ _ Hu), (credChar_no_space _ _ Hp).
    reflexivity. }
  induction s as [|x s IH]; intros skip c.
  - destruct skip; [|intros []]. cbn [scanTriples].
    destruct (triple []) as [[[u p] after]|] eqn:E; [|intros []].
    intros [<-|[]]. exact (Hone _ _ _ _ E).
  - destruct skip as [|n]; [|apply IH]. cbn [scanTriples].
    destruct (triple (x :: s)) as [[[u p] after]|] eqn:E; [|apply IH].
    intros [<-|H]; [exact (Hone _ _ _ _ E) | exact (IH _ _ H)].
Qed.

End Scan.

(** ** Sets in insertion order *)

Lemma existsb_eqs x (l : list str) : existsb (eqs x) l = true <-> In x l.
Proof.
  rewrite existsb_exists. split.
  - intros [y [Hy E]]. apply eqs_true in E. now subst.
  - intros H. exists x. split; [exact H|]. now apply eqs_true.
Qed.

Lemma setAdd_In x c (l : list str) : In x (setAdd c l) <-> x = c \/ In x l.
Proof.
  unfold setAdd. destruct (existsb (eqs c) l) eqn:E.
  - apply existsb_eqs in E. split; [now right|].
    intros [->|H]; assumption.
  - rewrite in_app_iff. simpl. intuition.
Qed.

Lemma setAdd_NoDup c (l : list str) : NoDup l -> NoDup (setAdd c l).
Proof.
  intros H. unfold setAdd. destruct (existsb (eqs c) l) eqn:E; [exact H|].
  apply NoDup_app; [exact H | constructor; [intros []|constructor] |].
  intros x Hx [<-|[]].
  apply existsb_eqs in Hx. congruence.
Qed.

Lemma addAll_In x (l acc : list str) :
  In x (addAll l acc) <-> In x acc \/ In x l.
Proof.
  unfold addAll. revert acc. induction l as [|c l IH]; intros acc; simpl.
  - tauto.
  - rewrite IH, setAdd_In. intuition.
Qed.

Lemma addAll_NoDup (l acc : list str) : NoDup acc -> NoDup (addAll l acc).
Proof.
  unfold addAll. revert acc. induction l as [|c l IH]; intros acc H; simpl.
  - exact H.
  - apply IH, setAdd_NoDup, H.
Qed.

Lemma addAll_app (l1 l2 acc : list str) :
  addAll (l1 ++ l2) acc = addAll l2 (addAll l1 acc).
Proof. unfold addAll. apply fold_left_app. Qed.

(** The extractor always returns, and returns the found credentials as a
    set in the order of first occurrence. *)
Lemma extractCredentials_found text domain :
  extractCredentials text domain
  = Some (addAll (foundCredentials text domain) []).
Proof.
  unfold extractCredentials, foundCredentials.
  rewrite (execLoop_scan (pattern1 domain) (tripleA domain) (chr ":")
             (pattern1_matchAt domain)
             (tripleBody_length (chr ":") domain)).
  2:{ intros s u p after H. unfold tripleA, tripleBody in H.
      destruct (stripPrefix sameLetter domain s); [|discriminate].
      exact (tripleTail_clean _ _ _ _ _ H). }
  rewrite (execLoop_scan (pattern2 domain) (tripleB domain) (chr "|")
             (pattern2_matchAt domain)).
  - now rewrite addAll_app.
  - intros s u p after H. unfold tripleB in H.
    destruct (stripProtocol s) as [s2|] eqn:Ep.
    + destruct (tripleBody (chr "|") domain s2) as [[[u' p'] a']|] eqn:E2.
      * cbn [orElse] in H. injection H as <- <- <-.
        apply tripleBody_length in E2. apply stripProtocol_length in Ep. lia.
      * cbn [orElse] in H. exact (tripleBody_length _ _ _ _ _ _ H).
    + exact (tripleBody_length _ _ _ _ _ _ H).
  - assert (Hb : forall t u p after,
              tripleBody (chr "|") domain t = Some (u, p, after) ->
              forallb (credChar (chr "|")) u = true /\
              forallb (credChar (chr "|")) p = true /\
              truthy u = true /\ truthy p = true).
    { intros t u p after H. unfold tripleBody in H.
      destruct (stripPrefix sameLetter domain t); [|discriminate].
      exact (tripleTail_clean _ _ _ _ _ H). }
    intros s u p after H. unfold tripleB in H.
    destruct (stripProtocol s) as [s2|].
    + destruct (tripleBody (chr "|") domain s2) as [[[u' p'] a']|] eqn:E2.
      * cbn [orElse] in H. injection H as <- <- <-. exact (Hb _ _ _ _ E2).
      * cbn [orElse] in H. exact (Hb _ _ _ _ H).
    + exact (Hb _ _ _ _ H).
Qed.

(** ** Every credential found stands in the text *)

Lemma stripPrefix_split eq d s s' :
  stripPrefix eq d s = Some s' ->
  exists pre, s = pre ++ s' /\ stripPrefix eq d pre = Some [].
Proof.
  revert s. induction d as [|a d IH]; intros s; cbn [stripPrefix].
  - intros H. injection H as <-. now exists [].
  - destruct s as [|c s]; [discriminate|].
    destruct (eq a c) eqn:E; [|discriminate].
    intros H. destruct (IH _ H) as [pre [-> Hpre]].
    exists (c :: pre). split; [reflexivity|]. cbn [stripPrefix].
    now rewrite E.
Qed.

Lemma stripPrefix_join eq d1 d2 p1 p2 :
  stripPrefix eq d1 p1 = Some [] -> stripPrefix eq d2 p2 = Some [] ->
  stripPrefix eq (d1 ++ d2) (p1 ++ p2) = Some [].
Proof.
  revert p1. induction d1 as [|a d1 IH]; intros p1; cbn [stripPrefix app].
  - intros H. injection H as ->. now cbn [app].
  - destruct p1 as [|c p1]; [discriminate|]. cbn [app].
    destruct (eq a c); [apply IH | discriminate].
Qed.

Lemma skipPath_split d s :
  exists path,
    s = path ++ skipPath d s /\
    (path = [] \/
     exists q, path = chr "/" :: q /\
               forallb (fun x => negb (eqc x d)) q = true).
Proof.
  destruct s as [|c s]; [exists []; now split; [|left]|].
  cbn [skipPath]. destruct (eqc c (chr "/")) eqn:E.
  - apply eqc_true in E. subst c.
    exists (chr "/" :: takeWhile (fun x => negb (eqc x d)) s). split.
    + cbn [app]. now rewrite takeWhile_dropWhile.
    + right. eexists. split; [reflexivity | apply takeWhile_all].
  - exists []. split; [reflexivity | now left].
Qed.

Lemma truthy_nonempty (x : str) : truthy x = true -> x <> [].
Proof. destruct x; [discriminate | discriminate]. Qed.

Lemma tripleTail_sound d s u p after :
  tripleTail d s = Some (u, p, after) ->
  exists path,
    s = path ++ d :: u ++ d :: p ++ after /\
    (path = [] \/
     exists q, path = chr "/" :: q /\
               forallb (fun x => negb (eqc x d)) q = true) /\
    u <> [] /\ p <> [] /\
    forallb (credChar d) u = true /\ forallb (credChar d) p = true /\
    match after with [] => True | c :: _ => credChar d c = false end.
Proof.
  intros H. destruct (tripleTail_clean _ _ _ _ _ H) as [Hu [Hp [Tu Tp]]].
  unfold tripleTail in H.
  destruct (skipPath_split d s) as [path [Hs Hpath]].
  destruct (skipPath d s) as [|d1 s2]; [discriminate|].
  pose proof (takeWhile_dropWhile (credChar d) s2) as H2.
  destruct (dropWhile (credChar d) s2) as [|d2 s3]; [discriminate|].
  pose proof (takeWhile_dropWhile (credChar d) s3) as H3.
  destruct (eqc d1 d && eqc d2 d && _ && _) eqn:E; [|discriminate].
  injection H as <- <- <-.
  apply andb_true_iff in E as [E _]. apply andb_true_iff in E as [E _].
  apply andb_true_iff in E as [E1 E2]. apply eqc_true in E1, E2. subst d1 d2.
  exists path. split; [|split; [exact Hpath|]].
  - rewrite Hs. f_equal. f_equal. rewrite <- H2 at 1. f_equal. f_equal.
    now rewrite H3.
  - repeat split; auto using truthy_nonempty.
    destruct (dropWhile (credChar d) s3) as [|c r] eqn:Ed; [exact I|].
    exact (dropWhile_head _ _ _ _ Ed).
Qed.

Lemma tripleBody_sound d domain s u p after :
  tripleBody d domain s = Some (u, p, after) ->
  exists dom path,
    s = dom ++ path ++ d :: u ++ d :: p ++ after /\
    sameText domain dom /\
    (path = [] \/
     exists q, path = chr "/" :: q /\
               forallb (fun x => negb (eqc x d)) q = true) /\
    u <> [] /\ p <> [] /\
    forallb (credChar d) u = true /\ forallb (credChar d) p = true /\
    match after with [] => True | c :: _ => credChar d c = false end.
Proof.
  unfold tripleBody.
  destruct (stripPrefix sameLetter domain s) as [s1|] eqn:E; [|discriminate].
  intros H. destruct (stripPrefix_split _ _ _ _ E) as [dom [-> Hdom]].
  destruct (tripleTail_sound _ _ _ _ _ H) as [path [-> Hrest]].
  exists dom, path. split; [reflexivity|]. split; [exact Hdom | exact Hrest].
Qed.

Lemma stripProtocol_split s s2 :
  stripProtocol s = Some s2 ->
  exists proto, s = proto ++ s2 /\
                (sameText (lit "http://") proto \/
                 sameText (lit "https://") proto).
Proof.
  unfold stripProtocol.
  destruct (stripPrefix sameLetter (lit "http") s) as [s1|] eqn:E1;
    [|discriminate].
  destruct (stripPrefix_split _ _ _ _ E1) as [p1 [-> H1]].
  destruct (stripPrefix sameLetter (lit "s://") s1) as [t|] eqn:E2.
  - intros H. injection H as <-.
    destruct (stripPrefix_split _ _ _ _ E2) as [p2 [-> H2]].
    exists (p1 ++ p2). split; [now rewrite app_assoc|]. right.
    exact (stripPrefix_join _ (lit "http") (lit "s://") _ _ H1 H2).
  - intros H. destruct (stripPrefix_split _ _ _ _ H) as [p2 [-> H2]].
    exists (p1 ++ p2). split; [now rewrite app_assoc|]. left.
    exact (stripPrefix_join _ (lit "http") (lit "://") _ _ H1 H2).
Qed.

(** What the scan yields was found at some place of the text. *)
Lemma scanTriples_In triple s :
  forall skip c,
  In c (scanTriples triple skip s) ->
  exists before t u p after,
    s = before ++ t /\ triple t = Some (u, p, after) /\
    c = u ++ chr ":" :: p.
Proof.
  induction s as [|x s IH]; intros skip c.
  - destruct skip; [|intros []]. cbn [scanTriples].
    destruct (triple []) as [[[u p] after]|] eqn:E; [|intros []].
    intros [<-|[]]. now exists [], [], u, p, after.
  - assert (Hlater : forall n, In c (scanTriples triple n s) ->
              exists before t u p after,
                x :: s = before ++ t /\ triple t = Some (u, p, after) /\
                c = u ++ chr ":" :: p).
    { intros n H. destruct (IH _ _ H) as [b [t [u [p [a [-> Ht]]]]]].
      now exists (x :: b), t, u, p, a. }
    destruct skip as [|n]; [|apply Hlater]. cbn [scanTriples].
    destruct (triple (x :: s)) as [[[u p] after]|] eqn:E; [|apply Hlater].
    intros [<-|H]; [|exact (Hlater _ H)].
    now exists [], (x :: s), u, p, after.
Qed.

Lemma found_occurrence text domain c :
  In c (foundCredentials text domain) -> credentialOccurrence domain text c.
Proof.
  unfold foundCredentials, credentialOccurrence. rewrite in_app_iff.
  intros [H|H]; apply scanTriples_In in H
    as [before [t [u [p [after [-> [Ht ->]]]]]]].
  - destruct (tripleBody_sound _ _ _ _ _ _ Ht) as [dom [path [-> Hrest]]].
    exists before, [], dom, path, (chr ":"), u, p, after.
    split; [reflexivity|]. split; [reflexivity|].
    destruct Hrest as [H1 [H2 [H3 [H4 [H5 [H6 H7]]]]]].
    repeat split; auto.
  - unfold tripleB in Ht.
    assert (Hplain : forall proto t0,
              (proto = [] \/ sameText (lit "http://") proto \/
               sameText (lit "https://") proto) ->
              tripleBody (chr "|") domain t0 = Some (u, p, after) ->
              exists before0 proto0 dom path d username password after0,
                before ++ proto ++ t0
                = before0 ++ proto0 ++ dom ++ path ++
                  d :: username ++ d :: password ++ after0 /\
                u ++ chr ":" :: p = username ++ chr ":" :: password /\
                sameText domain dom /\
                (path = [] \/
                 exists q, path = chr "/" :: q /\
                           forallb (fun x => negb (eqc x d)) q = true) /\
                username <> [] /\ password <> [] /\
                forallb (credChar d) username = true /\
                forallb (credChar d) password = true /\
                match after0 with
                | [] => True
                | c :: _ => credChar d c = false
                end /\
                ((d = chr ":" /\ proto0 = []) \/
                 (d = chr "|" /\
                  (proto0 = [] \/ sameText (lit "http://") proto0 \/
                   sameText (lit "https://") proto0)))).
    { intros proto t0 Hproto Hb.
      destruct (tripleBody_sound _ _ _ _ _ _ Hb) as [dom [path [-> Hrest]]].
      exists before, proto, dom, path, (chr "|"), u, p, after.
      split; [reflexivity|]. split; [reflexivity|].
      destruct Hrest as [H1 [H2 [H3 [H4 [H5 [H6 H7]]]]]].
      repeat split; auto. }
    destruct (stripProtocol t) as [t2|] eqn:Ep.
    + destruct (stripProtocol_split _ _ Ep) as [proto [-> Hproto]].
      destruct (tripleBody (chr "|") domain t2) as [[[u' p'] a']|] eqn:E2.
      * cbn [orElse] in Ht. injection Ht as -> -> ->.
        apply (Hplain proto t2); [now right | exact E2].
      * cbn [orElse] in Ht.
        apply (Hplain [] (proto ++ t2)); [now left | exact Ht].
    + apply (Hplain [] t); [now left | exact Ht].
Qed.

(** C1: for every text and domain the extractor returns, as a list
    without repetition, exactly the credentials ["username:password"]
    found by the two patterns (colon-delimited after the domain and an
    optional path; pipe-delimited after an optional protocol, the domain
    and an optional path), the domain and protocol matched up to case,
    over the whole text; each of them stands in the text in one of the two
    encodings.  The two examples of the spec evaluate as stated. *)
Theorem extractCredentials_finds_both_patterns (text domain : str) :
  (exists creds,
     extractCredentials text domain = Some creds /\
     NoDup creds /\
     (forall c, In c creds <-> In c (foundCredentials text domain)) /\
     (forall c, In c creds -> credentialOccurrence domain text c)) /\
  extractCredentials (lit "example.com:alice:secret1" ++ [LF])
    (lit "example.com") = Some [lit "alice:secret1"] /\
  extractCredentials (lit "https://example.com/login|bob|pw2")
    (lit "example.com") = Some [lit "bob:pw2"].
Proof.
  split; [|split; reflexivity].
  exists (addAll (foundCredentials text domain) []).
  split; [apply extractCredentials_found|].
  split; [apply addAll_NoDup; constructor|].
  assert (H : forall c, In c (addAll (foundCredentials text domain) [])
                        <-> In c (foundCredentials text domain)).
  { intros c. rewrite addAll_In. simpl. tauto. }
  split; [exact H|].
  intros c Hc. apply found_occurrence. now apply H.
Qed.

(* ================================================================== *)
(** * Sorting by code units *)
(* ================================================================== *)

Lemma code_inj (a b : ascii) : code a = code b -> a = b.
Proof.
  unfold code. intros H.
  rewrite <- (ascii_N_embedding a), <- (ascii_N_embedding b). now f_equal.
Qed.

Lemma ltb_irrefl (a : str) : ltb a a = false.
Proof.
  induction a as [|x a IH]; simpl; [reflexivity|].
  now rewrite N.ltb_irrefl.
Qed.

Lemma ltb_trans (a b c : str) :
  ltb a b = true -> ltb b c = true -> ltb a c = true.
Proof.
  revert b c. induction a as [|x a IH]; intros [|y b] [|z c]; simpl;
    try discriminate; try reflexivity.
  destruct (code x <? code y)%N eqn:Exy, (code y <? code x)%N eqn:Eyx,
           (code y <? code z)%N eqn:Eyz, (code z <? code y)%N eqn:Ezy,
           (code x <? code z)%N eqn:Exz, (code z <? code x)%N eqn:Ezx;
    try reflexivity; try discriminate;
    rewrite ?N.ltb_lt, ?N.ltb_ge in *; try lia.
  apply IH.
Qed.

Lemma ltb_total (a b : str) :
  ltb a b = false -> ltb b a = false -> a = b.
Proof.
  revert b. induction a as [|x a IH]; intros [|y b]; simpl;
    try discriminate; try reflexivity.
  destruct (code x <? code y)%N eqn:Exy, (code y <? code x)%N eqn:Eyx;
    try discriminate.
  intros H1 H2. rewrite N.ltb_ge in *.
  assert (x = y) by (apply code_inj; lia). subst. f_equal. now apply IH.
Qed.

Lemma ltb_asym (a b : str) : ltb a b = true -> ltb b a = false.
Proof.
  intros H. destruct (ltb b a) eqn:E; [|reflexivity].
  pose proof (ltb_trans _ _ _ H E) as C. now rewrite ltb_irrefl in C.
Qed.

Lemma leb_total (a b : str) : leb a b = false -> leb b a = true.
Proof.
  unfold leb. intros H. apply negb_false_iff in H.
  now rewrite (ltb_asym _ _ H).
Qed.

Lemma leb_trans (a b c : str) :
  leb a b = true -> leb b c = true -> leb a c = true.
Proof.
  unfold leb. rewrite !negb_true_iff. intros Hba Hcb.
  destruct (ltb c a) eqn:Hca; [|reflexivity].
  destruct (ltb a b) eqn:Hab.
  - pose proof (ltb_trans _ _ _ Hca Hab). congruence.
  - assert (a = b) by now apply ltb_total. subst. congruence.
Qed.

Lemma insertSorted_perm x l : Permutation (insertSorted x l) (x :: l).
Proof.
  induction l as [|y l IH]; simpl; [reflexivity|].
  destruct (leb x y); [reflexivity|].
  rewrite IH. apply perm_swap.
Qed.

Lemma sort_perm l : Permutation (sort l) l.
Proof.
  induction l as [|x l IH]; simpl; [reflexivity|].
  rewrite insertSorted_perm. now constructor.
Qed.

Lemma insertSorted_sorted x l :
  StronglySorted leStr l -> StronglySorted leStr (insertSorted x l).
Proof.
  induction l as [|y l IH]; intros H; simpl.
  - repeat constructor.
  - inversion H as [|? ? Hs Hall]; subst.
    destruct (leb x y) eqn:E.
    + constructor; [exact H|]. constructor; [exact E|].
      eapply Forall_impl; [|exact Hall]. intros z Hz.
      exact (leb_trans _ _ _ E Hz).
    + constructor; [now apply IH|].
      apply (Permutation_Forall (Permutation_sym (insertSorted_perm x l))).
      constructor; [now apply leb_total | exact Hall].
Qed.

Lemma sort_sorted l : StronglySorted leStr (sort l).
Proof.
  induction l as [|x l IH]; simpl; [constructor|].
  now apply insertSorted_sorted.
Qed.

(** Sorted without repetition is strictly increasing. *)
Lemma sorted_strict l :
  NoDup l -> StronglySorted leStr l -> StronglySorted ltStr l.
Proof.
  induction l as [|x l IH]; intros Hnd Hs; [constructor|].
  inversion Hnd as [|? ? Hnotin Hnd']; subst.
  inversion Hs as [|? ? Hs' Hall]; subst.
  constructor; [now apply IH|].
  apply Forall_forall. intros y Hy.
  pose proof (proj1 (Forall_forall _ _) Hall y Hy) as Hle.
  unfold leStr, leb in Hle. apply negb_true_iff in Hle.
  unfold ltStr. destruct (ltb x y) eqn:E; [reflexivity|].
  assert (x = y) by now apply ltb_total. subst. contradiction.
Qed.

Lemma sort_strict l : NoDup l -> StronglySorted ltStr (sort l).
Proof.
  intros H. apply sorted_strict; [|apply sort_sorted].
  exact (Permutation_NoDup (Permutation_sym (sort_perm l)) H).
Qed.

(** ** Lines of a file *)

Lemma splitOn_line sep (line rest : str) :
  forallb (fun c => negb (eqc c sep)) line = true ->
  splitOn sep (line ++ sep :: rest) = line :: splitOn sep rest.
Proof.
  induction line as [|c line IH]; intros H.
  - cbn [app splitOn]. now rewrite eqc_refl.
  - cbn [forallb] in H. apply andb_true_iff in H as [Hc H].
    cbn [app splitOn]. apply negb_true_iff in Hc. rewrite Hc.
    now rewrite (IH H).
Qed.

(** Joined with LF and ended by LF, the lines are read back one per
    line, with the empty piece after the last LF. *)
Lemma splitOn_join lines :
  lines <> [] -> forallb noLF lines = true ->
  splitOn LF (join [LF] lines ++ [LF]) = lines ++ [[]].
Proof.
  induction lines as [|x lines IH]; intros Hne H; [congruence|].
  cbn [forallb] in H. apply andb_true_iff in H as [Hx H].
  destruct lines as [|y lines].
  - cbn [join app]. now rewrite (splitOn_line LF x [] Hx).
  - change (join [LF] (x :: y :: lines))
      with (x ++ [LF] ++ join [LF] (y :: lines)).
    rewrite <- !app_assoc. cbn [app].
    rewrite (splitOn_line LF x _ Hx). cbn [app]. f_equal.
    apply IH; [discriminate | exact H].
Qed.

(* ================================================================== *)
(** * The batch loop *)
(* ================================================================== *)

Lemma found_clean text domain c :
  In c (foundCredentials text domain) ->
  forallb (fun x => negb (isSpace x)) c = true.
Proof.
  unfold foundCredentials. rewrite in_app_iff. intros [H|H].
  - apply (scanTriples_clean (tripleA domain) (chr ":")) in H; [exact H|].
    intros s u p after Ht. unfold tripleA, tripleBody in Ht.
    destruct (stripPrefix sameLetter domain s); [|discriminate].
    exact (tripleTail_clean _ _ _ _ _ Ht).
  - apply (scanTriples_clean (tripleB domain) (chr "|")) in H; [exact H|].
    assert (Hb : forall t u p after,
              tripleBody (chr "|") domain t = Some (u, p, after) ->
              forallb (credChar (chr "|")) u = true /\
              forallb (credChar (chr "|")) p = true /\
              truthy u = true /\ truthy p = true).
    { intros t u p after Ht. unfold tripleBody in Ht.
      destruct (stripPrefix sameLetter domain t); [|discriminate].
      exact (tripleTail_clean _ _ _ _ _ Ht). }
    intros s u p after Ht. unfold tripleB in Ht.
    destruct (stripProtocol s) as [s2|].
    + destruct (tripleBody (chr "|") domain s2) as [[[u' p'] a']|] eqn:E2.
      * cbn [orElse] in Ht. injection Ht as <- <- <-. exact (Hb _ _ _ _ E2).
      * cbn [orElse] in Ht. exact (Hb _ _ _ _ Ht).
    + exact (Hb _ _ _ _ Ht).
Qed.

Lemma no_space_noLF (c : str) :
  forallb (fun x => negb (isSpace x)) c = true -> noLF c = true.
Proof.
  intros H. unfold noLF. apply forallb_forall. intros x Hx.
  apply (proj1 (forallb_forall _ _) H) in Hx.
  destruct (eqc x LF) eqn:E; [|reflexivity].
  apply eqc_true in E. subst x. discriminate.
Qed.

Lemma addAll_setAdd c (a acc : list str) :
  addAll (setAdd c a) acc = setAdd c (addAll a acc).
Proof.
  unfold setAdd at 1. destruct (existsb (eqs c) a) eqn:E.
  - apply existsb_eqs in E. unfold setAdd.
    assert (H : In c (addAll a acc)) by (apply addAll_In; now right).
    apply existsb_eqs in H. now rewrite H.
  - now rewrite addAll_app.
Qed.

(** Adding a list already made a set adds what the list itself adds. *)
Lemma addAll_addAll (l acc : list str) :
  addAll (addAll l []) acc = addAll l acc.
Proof.
  assert (H : forall a, addAll (addAll l a) acc = addAll l (addAll a acc)).
  { induction l as [|c l IH]; intros a; [reflexivity|].
    change (addAll (c :: l) a) with (addAll l (setAdd c a)).
    rewrite IH, addAll_setAdd. reflexivity. }
  apply H.
Qed.

Lemma fetchesOf_app t1 t2 : fetchesOf (t1 ++ t2) = fetchesOf t1 ++ fetchesOf t2.
Proof.
  induction t1 as [|e t1 IH]; [reflexivity|].
  destruct e; simpl; now rewrite IH.
Qed.

Section Batch.

Variable World : Type.
Variable getFilePreview : str -> str -> World -> fetched * World.
Variable getApiLimits : World -> limits * World.

(** The attempts are a prefix of the records, only the last one can be a
    quota failure, and without one every record is attempted. *)
Lemma attempts_prefix w records :
  let a := attempts getFilePreview w records in
  map fst a = firstn (length a) records /\
  forallb (fun x => negb (isQuotaFailure (snd x))) (removelast a) = true /\
  (stopped a = true ->
   exists r res, last a (r, res) = (r, res) /\ a <> [] /\
                 isQuotaFailure (snd (last a (r, res))) = true) /\
  (stopped a = false -> map fst a = records).
Proof.
  revert w. induction records as [|r records IH]; intros w.
  - cbn. repeat split; try reflexivity. discriminate.
  - cbn [attempts].
    destruct (getFilePreview (storageid r) (bucket r) w) as [res w'].
    destruct (isQuotaFailure res) eqn:E.
    + cbn. repeat split; try reflexivity.
      * intros _. exists r, res. repeat split; [discriminate | exact E].
      * unfold stopped. cbn. rewrite E. discriminate.
    + destruct (IH w') as [H1 [H2 [H3 H4]]].
      cbv zeta. split; [|split; [|split]].
      * cbn [map fst length firstn]. now rewrite H1.
      * destruct (attempts getFilePreview w' records) as [|x a] eqn:Ea; [reflexivity|].
        change (removelast ((r, res) :: x :: a))
          with ((r, res) :: removelast (x :: a)).
        cbn [forallb snd]. now rewrite E, H2.
      * unfold stopped. cbn [existsb snd]. rewrite E. cbn [orb]. intros Hs.
        destruct (H3 Hs) as [r' [res' [Hl [Hne Hq]]]].
        exists r', res'.
        destruct (attempts getFilePreview w' records) as [|x a] eqn:Ea; [congruence|].
        repeat split; [exact Hl | discriminate | exact Hq].
      * unfold stopped. cbn [existsb snd]. rewrite E. cbn [orb]. intros Hs.
        cbn [map fst]. now rewrite (H4 Hs).
Qed.

(** The state in which the loop ends, in terms of the attempts. *)
Lemma processRecords_attempts domainName processingCount records :
  forall st,
  let a := attempts getFilePreview (world st) records in
  exists st',
    processRecords getFilePreview domainName processingCount records st
    = Some st' /\
    processed st' = (processed st + Z.of_nat (length a))%Z /\
    errors st' = (errors st + failures a)%Z /\
    apiExhausted st' = apiExhausted st || stopped a /\
    allCredentials st'
    = addAll (flat_map (fun x => credentialsOf domainName (snd x)) a)
        (allCredentials st) /\
    fetchesOf (trace st') = fetchesOf (trace st) ++ map fst a /\
    (stopped a = true ->
     exists t, trace st' = t ++ [LogExhaustedAt (processed st');
                                 LogStopped (processed st' - 1)]) /\
    (existsb isWrite (trace st) = false -> existsb isWrite (trace st') = false).
Proof.
  induction records as [|r records IH]; intros st.
  - cbn. exists st. unfold failures, stopped. cbn.
    rewrite Z.add_0_r, orb_false_r, app_nil_r.
    repeat split; try reflexivity; try discriminate; auto; lia.
  - cbn [processRecords attempts].
    destruct (getFilePreview (storageid r) (bucket r) (world st))
      as [res w'] eqn:Ef.
    set (trace1 := if (Z.rem (processed st + 1) 10 =? 0)%Z
                   then trace st ++ [LogProgress (processed st + 1)
                                       processingCount]
                   else trace st).
    assert (Hf1 : fetchesOf trace1 = fetchesOf (trace st)).
    { subst trace1. destruct (Z.rem _ _ =? 0)%Z; [|reflexivity].
      rewrite fetchesOf_app. cbn. now rewrite app_nil_r. }
    assert (Hw1 : existsb isWrite (trace st) = false ->
                  existsb isWrite trace1 = false).
    { subst trace1. destruct (Z.rem _ _ =? 0)%Z; [|auto].
      intros H. rewrite existsb_app, H. reflexivity. }
    destruct res as [text|message].
    + rewrite extractCredentials_found.
      match goal with
      | |- context [processRecords _ _ _ records ?s] =>
          destruct (IH s) as [st' [Hrun [Hp [He [Ha [Hc [Hfe [Hst Hwr]]]]]]]]
      end.
      cbn [world processed errors apiExhausted allCredentials trace] in *.
      exists st'. cbn [isQuotaFailure]. cbv zeta.
      split; [exact Hrun|].
      split; [rewrite Hp; cbn [length]; lia|].
      split; [rewrite He; unfold failures;
              cbn [filter snd isFailure length]; lia|].
      split; [rewrite Ha; unfold stopped; reflexivity|].
      split; [rewrite Hc; cbn [flat_map snd credentialsOf];
              fold (addAll (addAll (foundCredentials text domainName) [])
                      (allCredentials st));
              now rewrite addAll_addAll, addAll_app|].
      split; [rewrite Hfe, fetchesOf_app, Hf1; cbn;
              now rewrite <- app_assoc|].
      split; [exact Hst|].
      intros H. apply Hwr. rewrite existsb_app, (Hw1 H). reflexivity.
    + change (quotaSignal message) with (isQuotaFailure (Failed message)).
      destruct (isQuotaFailure (Failed message)) eqn:Eq.
      * eexists. split; [reflexivity|].
        cbn [world processed errors apiExhausted allCredentials trace].
        unfold failures, stopped. cbn [length filter snd isFailure existsb
          flat_map credentialsOf map fst app]. rewrite Eq.
        split; [lia|]. split; [lia|].
        split; [now rewrite orb_true_r|].
        split; [reflexivity|].
        split; [rewrite !fetchesOf_app, Hf1; cbn; now rewrite app_nil_r|].
        split.
        -- intros _. eexists. reflexivity.
        -- intros H. rewrite !existsb_app, (Hw1 H). reflexivity.
      * match goal with
        | |- context [processRecords _ _ _ records ?s] =>
            destruct (IH s) as [st' [Hrun [Hp [He [Ha [Hc [Hfe [Hst Hwr]]]]]]]]
        end.
        cbn [world processed errors apiExhausted allCredentials trace] in *.
        exists st'. cbv zeta.
        split; [exact Hrun|].
        split; [rewrite Hp; cbn [length]; lia|].
        split; [rewrite He; unfold failures; cbn [filter snd isFailure length];
                lia|].
        split; [rewrite Ha; unfold stopped; cbn [existsb snd];
                now rewrite Eq|].
        split; [rewrite Hc; reflexivity|].
        split; [rewrite Hfe, fetchesOf_app, Hf1; cbn;
                now rewrite <- app_assoc|].
        split; [unfold stopped; cbn [existsb snd]; rewrite Eq; exact Hst|].
        intros H. apply Hwr. rewrite existsb_app, (Hw1 H). reflexivity.
Qed.

(** What follows the loop writes the accumulated credentials, sorted. *)
Lemma sort_nil_iff l : sort l = [] <-> l = [].
Proof.
  split; [|now intros ->]. intros H.
  apply Permutation_nil. rewrite <- H. apply sort_perm.
Qed.

Lemma finish_writes domainName processingCount (st : loopState World) :
  allCredentials st <> [] ->
  In (WriteFile (domainName ++ lit ".txt")
        (join [LF] (sort (allCredentials st)) ++ [LF]))
     (finish domainName processingCount st).
Proof.
  intros Hne. unfold finish.
  destruct (sort (allCredentials st)) as [|x l] eqn:E.
  - apply (proj1 (sort_nil_iff _)) in E. contradiction.
  - cbn [length]. replace (Z.of_nat (S (length l)) =? 0)%Z with false
      by (symmetry; apply Z.eqb_neq; lia).
    rewrite !in_app_iff. right. left. now left.
Qed.

Lemma finish_written domainName processingCount (st : loopState World)
    name content :
  existsb isWrite (trace st) = false ->
  In (WriteFile name content) (finish domainName processingCount st) ->
  name = domainName ++ lit ".txt" /\
  content = join [LF] (sort (allCredentials st)) ++ [LF] /\
  allCredentials st <> [].
Proof.
  intros Hnw. unfold finish.
  set (t2 := trace st ++ [LogProgress (processed st) processingCount]).
  set (t3 := if apiExhausted st && (processed st <? processingCount)%Z
             then t2 ++ [LogOnlySucceeded (processed st - errors st)]
             else t2).
  assert (H3 : forall n c, ~ In (WriteFile n c) t3).
  { intros n c H.
    assert (Hin : In (WriteFile n c) (trace st)).
    { subst t3 t2. destruct (_ && _); rewrite ?in_app_iff in H; cbn in H;
        intuition discriminate. }
    assert (existsb isWrite (trace st) = true); [|congruence].
    apply existsb_exists. now exists (WriteFile n c). }
  destruct (Z.of_nat (length (sort (allCredentials st))) =? 0)%Z eqn:E.
  - rewrite in_app_iff. intros [H|[H|[]]]; [now apply H3 in H | discriminate].
  - rewrite !in_app_iff. intros [H|[[H|[H|[]]]|H]].
    + now apply H3 in H.
    + injection H as <- <-. repeat split.
      intros Hnil. rewrite Hnil in E. discriminate.
    + discriminate.
    + destruct (errors st >? 0)%Z; [|contradiction].
      destruct H as [H|[]]. discriminate.
Qed.

Lemma limitCheck_no_write lim processingCount t :
  limitCheck lim processingCount = inr t -> existsb isWrite t = false.
Proof.
  unfold limitCheck. destruct lim as [m|[fv|]].
  - intros H. now injection H as <-.
  - destruct (CreditMax fv >? 0)%Z; [|intros H; now injection H as <-].
    destruct (Credit fv =? 0)%Z; [discriminate|].
    destruct (Credit fv <? processingCount)%Z; intros H; now injection H as <-.
  - intros H. now injection H as <-.
Qed.

Lemma limitCheck_inl_no_write lim processingCount t n c :
  limitCheck lim processingCount = inl t -> ~ In (WriteFile n c) t.
Proof.
  unfold limitCheck. destruct lim as [m|[fv|]]; try discriminate.
  destruct (CreditMax fv >? 0)%Z; [|discriminate].
  destruct (Credit fv =? 0)%Z.
  - intros H. injection H as <-. intros [H|[]]. discriminate.
  - destruct (Credit fv <? processingCount)%Z; discriminate.
Qed.

(** The test of the loop on the message of a failure, spelled out: the
    message contains 403, 429 or limit (a message that contains one of
    them is not empty, so the first test of the source adds nothing). *)
Lemma quotaSignal_spec (message : str) :
  quotaSignal message = true <->
  (exists before after, message = before ++ lit "403" ++ after) \/
  (exists before after, message = before ++ lit "429" ++ after) \/
  (exists before after, message = before ++ lit "limit" ++ after).
Proof.
  unfold quotaSignal. rewrite andb_true_iff, !orb_true_iff, !includes_spec.
  split.
  - intros [_ [[H|H]|H]]; auto.
  - intros H. split; [|tauto].
    destruct H as [H|[H|H]]; destruct H as [before [after ->]];
      destruct before; reflexivity.
Qed.

(** C7: in the batch loop, for every list of records, a fetch counts as
    a quota failure exactly when it fails with a message that contains
    403, 429 or limit, and a fetch that gives a text never does.  The
    loop ends in a state [st'] described by the attempts (the fetches in
    order, up to and including the first quota failure).  The previews
    requested are exactly those of the attempts, a prefix of the records,
    so nothing after a quota failure is fetched; only the last attempt
    can be a quota failure; when there is one, the loop sets
    [apiExhausted] and its last console lines tell the number of the
    failing file and the number of records it had gone through before
    it; every failure, of either kind, is counted in [errors], and
    without a quota failure every record is attempted; the credentials
    accumulated are those found in the texts fetched with success, and
    the part after the loop writes the file with all of them whenever
    there are any. *)
Theorem batch_loop_stops_on_quota_and_keeps_partial_results
    (domainName : str) (processingCount : Z) (records : list record)
    (st : loopState World) :
  let a := attempts getFilePreview (world st) records in
  (forall res,
     isQuotaFailure res = true <->
     exists message,
       res = Failed message /\
       ((exists before after, message = before ++ lit "403" ++ after) \/
        (exists before after, message = before ++ lit "429" ++ after) \/
        (exists before after, message = before ++ lit "limit" ++ after))) /\
  exists st',
    processRecords getFilePreview domainName processingCount records st
    = Some st' /\
    fetchesOf (trace st') = fetchesOf (trace st) ++ map fst a /\
    map fst a = firstn (length a) records /\
    forallb (fun x => negb (isQuotaFailure (snd x))) (removelast a) = true /\
    (stopped a = true ->
     apiExhausted st' = true /\
     (exists r res, last a (r, res) = (r, res) /\ a <> [] /\
                    isQuotaFailure (snd (last a (r, res))) = true) /\
     exists t,
       trace st'
       = t ++ [LogExhaustedAt (processed st + Z.of_nat (length a));
               LogStopped (processed st + Z.of_nat (length a) - 1)]) /\
    (stopped a = false -> map fst a = records) /\
    processed st' = (processed st + Z.of_nat (length a))%Z /\
    errors st' = (errors st + failures a)%Z /\
    allCredentials st'
    = addAll (flat_map (fun x => credentialsOf domainName (snd x)) a)
        (allCredentials st) /\
    (allCredentials st' <> [] ->
     In (WriteFile (domainName ++ lit ".txt")
           (join [LF] (sort (allCredentials st')) ++ [LF]))
        (finish domainName processingCount st')).
Proof.
  intros a. split.
  { intros [text|message]; cbn [isQuotaFailure].
    - split; [discriminate|]. intros [m [H _]]. discriminate.
    - rewrite quotaSignal_spec. split.
      + intros H. now exists message.
      + intros [m [H Hm]]. now injection H as ->. }
  destruct (processRecords_attempts domainName processingCount records st)
    as [st' [Hrun [Hp [He [Ha [Hc [Hf [Hs _]]]]]]]].
  destruct (attempts_prefix (world st) records) as [P1 [P2 [P3 P4]]].
  fold a in Hp, He, Ha, Hc, Hf, Hs, P1, P2, P3, P4.
  exists st'. repeat split; try assumption.
  - rewrite Ha, H. apply orb_true_r.
  - exact (P3 H).
  - destruct (Hs H) as [t Ht]. exists t. now rewrite <- Hp.
  - apply finish_writes.
Qed.

(** C2: a credential found by both patterns, or found several times, is
    once in the extractor's result; and whenever the batch writes its
    file, the content is the accumulated set of credentials (a list
    without repetition, the end state of the loop) sorted by code units
    in strictly increasing order, hence without duplicate lines, joined
    by LF and ended by LF, so that the file read back line by line gives
    exactly these credentials, one per line. *)
Theorem combolist_file_is_sorted_set
    (searchTerm : str) (records : list record) (limit : option Z)
    (w0 w1 : World) (effects : list effect) (name content : str)
    (Hrun : generateCombolist getFilePreview getApiLimits searchTerm records
              limit w0 = Some (effects, w1))
    (Hfile : In (WriteFile name content) effects) :
  (forall text domain,
     exists creds,
       extractCredentials text domain = Some creds /\
       forall c, In c (foundCredentials text domain) ->
                 count_occ (list_eq_dec ascii_dec) creds c = 1) /\
  exists (st : loopState World) (lines : list str),
    lines = sort (allCredentials st) /\
    content = join [LF] lines ++ [LF] /\
    splitOn LF content = lines ++ [[]] /\
    StronglySorted ltStr lines /\
    NoDup lines /\
    Permutation lines (allCredentials st) /\
    NoDup (allCredentials st) /\
    exists t,
      processRecords getFilePreview (cleanDomain searchTerm)
        (Z.of_nat (length (recordsToProcess records limit)))
        (recordsToProcess records limit) (mkLoop [] 0 0 false (snd (getApiLimits w0)) t)
      = Some st.
Proof.
  split.
  - intros text domain. exists (addAll (foundCredentials text domain) []).
    split; [apply extractCredentials_found|]. intros c Hc.
    apply NoDup_count_occ'; [apply addAll_NoDup; constructor|].
    apply addAll_In. now right.
  - unfold generateCombolist in Hrun.
    destruct (getApiLimits w0) as [lim w] eqn:El. cbn [snd].
    destruct (limitCheck lim _) as [t|t0] eqn:Ec.
    + injection Hrun as <- <-.
      now apply (limitCheck_inl_no_write _ _ _ name content) in Ec.
    + match type of Hrun with
      | context [processRecords _ ?dn ?pc ?rs ?s0] =>
          destruct (processRecords_attempts dn pc rs s0)
            as [st [Hst [_ [_ [_ [Hc [_ [_ Hw]]]]]]]];
          rewrite Hst in Hrun
      end.
      injection Hrun as <- <-.
      cbn [world allCredentials trace] in *.
      assert (Hnw : existsb isWrite (trace st) = false).
      { apply Hw. rewrite existsb_app, (limitCheck_no_write _ _ _ Ec).
        reflexivity. }
      destruct (finish_written _ _ _ _ _ Hnw Hfile) as [_ [-> Hne]].
      assert (Hnd : NoDup (allCredentials st)).
      { rewrite Hc. apply addAll_NoDup. constructor. }
      exists st, (sort (allCredentials st)).
      split; [reflexivity|]. split; [reflexivity|].
      split.
      { apply splitOn_join.
        - intros H. apply (proj1 (sort_nil_iff _)) in H. contradiction.
        - apply forallb_forall. intros c Hin.
          apply (Permutation_in _ (sort_perm _)) in Hin.
          rewrite Hc in Hin. apply addAll_In in Hin as [[]|Hin].
          apply in_flat_map in Hin as [[r res] [_ Hin]].
          destruct res as [text|m]; [|contradiction].
          apply no_space_noLF. exact (found_clean _ _ _ Hin). }
      split; [now apply sort_strict|].
      split; [exact (Permutation_NoDup (Permutation_sym (sort_perm _)) Hnd)|].
      split; [apply sort_perm|]. split; [exact Hnd|].
      eexists. exact Hst.
Qed.

End Batch.

(** ** A run of the batch on one record *)

Lemma combolist_file_is_sorted_set_witness :
  generateCombolist samplePreview sampleLimits (lit "https://example.com/x")
    [mkRecord (lit "id") (lit "b")] None tt
  = Some (sampleEffects, tt) /\
  In (WriteFile (lit "example.com.txt")
        (lit "alice:secret1" ++ [LF] ++ lit "bob:pw2" ++ [LF]))
     sampleEffects /\
  ((forall text domain,
      exists creds,
        extractCredentials text domain = Some creds /\
        forall c, In c (foundCredentials text domain) ->
                  count_occ (list_eq_dec ascii_dec) creds c = 1) /\
   exists (st : loopState unit) (lines : list str),
     lines = sort (allCredentials st) /\
     lit "alice:secret1" ++ [LF] ++ lit "bob:pw2" ++ [LF]
     = join [LF] lines ++ [LF] /\
     splitOn LF (lit "alice:secret1" ++ [LF] ++ lit "bob:pw2" ++ [LF])
     = lines ++ [[]] /\
     StronglySorted ltStr lines /\
     NoDup lines /\
     Permutation lines (allCredentials st) /\
     NoDup (allCredentials st) /\
     exists t,
       processRecords samplePreview (cleanDomain (lit "https://example.com/x"))
         (Z.of_nat (length (recordsToProcess [mkRecord (lit "id") (lit "b")]
                              None)))
         (recordsToProcess [mkRecord (lit "id") (lit "b")] None)
         (mkLoop [] 0 0 false (snd (sampleLimits tt)) t)
       = Some st).
Proof.
  assert (Hrun : generateCombolist samplePreview sampleLimits
                   (lit "https://example.com/x")
                   [mkRecord (lit "id") (lit "b")] None tt
                 = Some (sampleEffects, tt)) by (vm_compute; reflexivity).
  assert (Hfile : In (WriteFile (lit "example.com.txt")
                        (lit "alice:secret1" ++ [LF] ++ lit "bob:pw2" ++ [LF]))
                     sampleEffects)
    by (right; right; right; left; reflexivity).
  split; [exact Hrun|]. split; [exact Hfile|].
  exact (combolist_file_is_sorted_set unit samplePreview sampleLimits
           (lit "https://example.com/x") [mkRecord (lit "id") (lit "b")]
           None tt tt sampleEffects (lit "example.com.txt")
           (lit "alice:secret1" ++ [LF] ++ lit "bob:pw2" ++ [LF])
           Hrun Hfile).
Defined.

(* ================================================================== *)
(** * Visible length *)
(* ================================================================== *)

Lemma param_not_m c : isAnsiParam c = true -> eqc c (chr "m") = false.
Proof.
  intros H. destruct (eqc c (chr "m")) eqn:E; [|reflexivity].
  apply eqc_true in E. subst c. discriminate.
Qed.

Lemma ansiPrefix_length s rest :
  ansiPrefix s = Some rest -> length rest < length s.
Proof.
  unfold ansiPrefix. destruct s as [|e [|b s1]]; try discriminate.
  destruct (eqc e ESC && eqc b (chr "[")); [|discriminate].
  pose proof (dropWhile_length isAnsiParam s1) as Hl.
  destruct (dropWhile isAnsiParam s1) as [|m s2]; [discriminate|].
  destruct (eqc m (chr "m")); [|discriminate].
  intros H. injection H as <-. cbn [length] in *. lia.
Qed.

(** The styling pattern finds what [ansiPrefix] describes. *)
Lemma ansi_matchAt i s :
  matchAt false ansiRe i s
  = match ansiPrefix s with
    | Some rest => Some (mkState (i + (length s - length rest)) rest [])
    | None => None
    end.
Proof.
  unfold matchAt, ansiRe, ansiPrefix. cbn [SeqAll].
  rewrite run_seq, run_char. cbn [canonicalize].
  destruct s as [|e s]; [reflexivity|]. rewrite code_eqb, (eqc_sym ESC).
  destruct (eqc e ESC); [|now destruct s].
  rewrite run_seq, run_char. cbn [canonicalize].
  destruct s as [|b s]; [reflexivity|]. rewrite code_eqb, (eqc_sym (chr "[")).
  destruct (eqc b (chr "[")); [|reflexivity]. cbn [andb].
  rewrite run_seq, run_star_class, starClass_det.
  - change (classMatches false false
              [CRange (chr "0") (chr "9"); CChar (chr ";")])
      with isAnsiParam.
    pose proof (takeWhile_dropWhile isAnsiParam s) as Hs.
    apply (f_equal (@length _)) in Hs. rewrite length_app in Hs.
    rewrite run_char. cbn [canonicalize].
    destruct (dropWhile isAnsiParam s) as [|m s2]; [reflexivity|].
    rewrite code_eqb, (eqc_sym (chr "m")).
    destruct (eqc m (chr "m")); [|reflexivity].
    f_equal. f_equal. cbn [length] in *. lia.
  - intros c s' j Hc. rewrite run_char. cbn [canonicalize].
    rewrite code_eqb, (eqc_sym (chr "m")).
    change (classMatches false false
              [CRange (chr "0") (chr "9"); CChar (chr ";")] c)
      with (isAnsiParam c) in Hc.
    now rewrite (param_not_m _ Hc).
Qed.

Lemma stripFrom_nil i : stripFrom i [] = [].
Proof. reflexivity. Qed.

Lemma skipn_suffix {A} (pre rest : list A) :
  skipn (length (pre ++ rest) - length rest) (pre ++ rest) = rest.
Proof.
  rewrite length_app. replace (length pre + length rest - length rest)
    with (length pre) by lia.
  rewrite skipn_app, skipn_all, Nat.sub_diag. reflexivity.
Qed.

Lemma ansiPrefix_split s rest :
  ansiPrefix s = Some rest ->
  exists pre, s = pre ++ rest /\ pre <> [] /\
              forallb (fun c => negb (eqc c ESC)) (tl pre) = true.
Proof.
  unfold ansiPrefix. destruct s as [|e [|b s1]]; try discriminate.
  destruct (eqc e ESC && eqc b (chr "[")) eqn:E1; [|discriminate].
  pose proof (takeWhile_dropWhile isAnsiParam s1) as Hs.
  pose proof (takeWhile_all isAnsiParam s1) as Hall.
  destruct (dropWhile isAnsiParam s1) as [|m s2]; [discriminate|].
  destruct (eqc m (chr "m")) eqn:Em; [|discriminate].
  intros H. injection H as <-.
  exists (e :: b :: takeWhile isAnsiParam s1 ++ [m]).
  split; [|split; [discriminate|]].
  - cbn [app]. rewrite <- app_assoc. cbn [app]. now rewrite Hs.
  - apply andb_true_iff in E1 as [_ Eb].
    apply eqc_true in Eb, Em. subst b m.
    cbn [tl forallb]. rewrite forallb_app. cbn [forallb].
    change (negb (eqc (chr "[") ESC)) with true.
    change (negb (eqc (chr "m") ESC)) with true.
    rewrite andb_true_r. cbn [andb].
    apply forallb_forall. intros x Hx.
    apply (proj1 (forallb_forall _ _) Hall) in Hx.
    destruct (eqc x ESC) eqn:Ex; [|reflexivity].
    apply eqc_true in Ex. subst x. discriminate.
Qed.

Lemma stripFrom_cons i c s :
  stripFrom i (c :: s)
  = match ansiPrefix (c :: s) with
    | Some rest => stripFrom (i + (length (c :: s) - length rest)) rest
    | None => c :: stripFrom (S i) s
    end.
Proof.
  unfold stripFrom. cbn [replaceLoop]. rewrite ansi_matchAt.
  destruct (ansiPrefix (c :: s)) as [rest|] eqn:E; [|reflexivity].
  pose proof (ansiPrefix_length _ _ E) as Hl. cbn [index app].
  destruct (ansiPrefix_split _ _ E) as [pre [Hpre _]].
  pose proof (skipn_suffix pre rest) as Hsk. rewrite <- Hpre in Hsk.
  replace (i + (length (c :: s) - length rest) - i)
    with (S (length s - length rest)) by (cbn [length] in *; lia).
  rewrite replaceLoop_skip by (cbn [length] in *; lia).
  replace (length (c :: s) - length rest)
    with (S (length s - length rest)) in * by (cbn [length] in *; lia).
  cbn [skipn] in Hsk. rewrite Hsk. f_equal. lia.
Qed.

(** Where the loop starts makes no difference. *)
Lemma stripFrom_index_aux n :
  forall s, length s <= n -> forall i j, stripFrom i s = stripFrom j s.
Proof.
  induction n as [|n IH]; intros s Hn i j.
  - destruct s; [reflexivity | simpl in Hn; lia].
  - destruct s as [|c s]; [reflexivity|]. rewrite !stripFrom_cons.
    destruct (ansiPrefix (c :: s)) as [rest|] eqn:E.
    + apply IH. apply ansiPrefix_length in E. simpl in *. lia.
    + f_equal. apply IH. simpl in Hn. lia.
Qed.

Lemma stripFrom_index i s : stripFrom i s = stripAnsiCodes s.
Proof. apply (stripFrom_index_aux (length s)). lia. Qed.

(** The unfolding of [stripAnsiCodes]. *)
Lemma strip_cons c s :
  stripAnsiCodes (c :: s)
  = match ansiPrefix (c :: s) with
    | Some rest => stripAnsiCodes rest
    | None => c :: stripAnsiCodes s
    end.
Proof.
  unfold stripAnsiCodes, replaceAll. fold (stripFrom 0 (c :: s)).
  rewrite stripFrom_cons.
  destruct (ansiPrefix (c :: s)); now rewrite stripFrom_index.
Qed.

Lemma strip_nil : stripAnsiCodes [] = [].
Proof. reflexivity. Qed.

Lemma dropWhile_app p (a b : str) :
  dropWhile p (a ++ b)
  = match dropWhile p a with
    | [] => dropWhile p b
    | x :: r => x :: r ++ b
    end.
Proof.
  induction a as [|c a IH]; [reflexivity|]. cbn [app dropWhile].
  destruct (p c); [exact IH | reflexivity].
Qed.

Lemma ansiPrefix_needs_esc c s : eqc c ESC = false -> ansiPrefix (c :: s) = None.
Proof. intros H. unfold ansiPrefix. destruct s; [reflexivity|]. now rewrite H. Qed.

(** Text without ESC is kept as it is. *)
Lemma strip_plain pre r :
  forallb (fun c => negb (eqc c ESC)) pre = true ->
  stripAnsiCodes (pre ++ r) = pre ++ stripAnsiCodes r.
Proof.
  induction pre as [|c pre IH]; intros H; [reflexivity|].
  cbn [forallb] in H. apply andb_true_iff in H as [Hc H].
  apply negb_true_iff in Hc. cbn [app].
  rewrite strip_cons, (ansiPrefix_needs_esc _ _ Hc). now rewrite IH.
Qed.

(** A sequence found in [a] is found in [a ++ b]. *)
Lemma ansiPrefix_app a b rest :
  ansiPrefix a = Some rest -> ansiPrefix (a ++ b) = Some (rest ++ b).
Proof.
  unfold ansiPrefix. destruct a as [|e [|b0 s1]]; try discriminate.
  cbn [app]. destruct (eqc e ESC && eqc b0 (chr "[")); [|discriminate].
  rewrite dropWhile_app.
  destruct (dropWhile isAnsiParam s1) as [|m s2]; [discriminate|].
  destruct (eqc m (chr "m")); [|discriminate].
  intros H. now injection H as <-.
Qed.

(** A sequence that starts in [a] and ends in [b] takes from [b] units
    that are not ESC. *)
Lemma ansiPrefix_span a b rest :
  a <> [] -> ansiPrefix a = None -> ansiPrefix (a ++ b) = Some rest ->
  exists pre, b = pre ++ rest /\
              forallb (fun c => negb (eqc c ESC)) pre = true.
Proof.
  intros Hne Ha Hab.
  assert (Hparam : forall t, forallb (fun c => negb (eqc c ESC))
                               (takeWhile isAnsiParam t) = true).
  { intros t. apply forallb_forall. intros x Hx.
    apply (proj1 (forallb_forall _ _) (takeWhile_all isAnsiParam t)) in Hx.
    destruct (eqc x ESC) eqn:Ex; [|reflexivity].
    apply eqc_true in Ex. subst x. discriminate. }
  destruct a as [|e [|b0 s1]]; [congruence| |].
  - cbn [app] in Hab. unfold ansiPrefix in Hab.
    destruct b as [|b0 t]; [discriminate|].
    destruct (eqc e ESC && eqc b0 (chr "[")) eqn:E; [|discriminate].
    pose proof (takeWhile_dropWhile isAnsiParam t) as Ht.
    destruct (dropWhile isAnsiParam t) as [|m s2]; [discriminate|].
    destruct (eqc m (chr "m")) eqn:Em; [|discriminate].
    injection Hab as <-.
    exists (b0 :: takeWhile isAnsiParam t ++ [m]). split.
    + cbn [app]. rewrite <- app_assoc. cbn [app]. now rewrite Ht.
    + apply andb_true_iff in E as [_ Eb]. apply eqc_true in Eb, Em.
      subst b0 m. cbn [forallb]. rewrite forallb_app, Hparam. reflexivity.
  - cbn [app] in Hab. unfold ansiPrefix in Ha, Hab.
    destruct (eqc e ESC && eqc b0 (chr "[")); [|discriminate].
    rewrite dropWhile_app in Hab.
    destruct (dropWhile isAnsiParam s1) as [|x r].
    + pose proof (takeWhile_dropWhile isAnsiParam b) as Hb.
      destruct (dropWhile isAnsiParam b) as [|m s2]; [discriminate|].
      destruct (eqc m (chr "m")) eqn:Em; [|discriminate].
      injection Hab as <-.
      exists (takeWhile isAnsiParam b ++ [m]). split.
      * rewrite <- app_assoc. cbn [app]. now rewrite Hb.
      * apply eqc_true in Em. subst m. rewrite forallb_app, Hparam.
        reflexivity.
    + destruct (eqc x (chr "m")); discriminate.
Qed.

(** The visible length of a concatenation is at most the sum. *)
Lemma visibleLength_app_aux n :
  forall a, length a <= n ->
  forall b,
    (visibleLength (a ++ b) <= visibleLength a + visibleLength b)%Z.
Proof.
  unfold visibleLength, len.
  induction n as [|n IH]; intros a Hn b.
  - destruct a; [|simpl in Hn; lia]. cbn [app]. rewrite strip_nil.
    cbn [length]. lia.
  - destruct a as [|c a]; [cbn [app]; rewrite strip_nil; cbn [length]; lia|].
    rewrite (strip_cons c a).
    destruct (ansiPrefix (c :: a)) as [rest|] eqn:Ea.
    + change ((c :: a) ++ b) with (c :: a ++ b).
      rewrite (strip_cons c (a ++ b)).
      change (c :: a ++ b) with ((c :: a) ++ b).
      rewrite (ansiPrefix_app _ b _ Ea).
      apply IH. apply ansiPrefix_length in Ea. simpl in *. lia.
    + change ((c :: a) ++ b) with (c :: a ++ b).
      rewrite (strip_cons c (a ++ b)).
      change (c :: a ++ b) with ((c :: a) ++ b).
      destruct (ansiPrefix ((c :: a) ++ b)) as [rest|] eqn:Eab.
      * destruct (ansiPrefix_span (c :: a) b rest) as [pre [-> Hpre]];
          [discriminate | exact Ea | exact Eab |].
        rewrite (strip_plain pre rest Hpre), length_app. cbn [length]. lia.
      * specialize (IH a ltac:(simpl in Hn; lia) b). cbn [length]. lia.
Qed.

Lemma visibleLength_app a b :
  (visibleLength (a ++ b) <= visibleLength a + visibleLength b)%Z.
Proof. apply (visibleLength_app_aux (length a)). lia. Qed.

Lemma space_not_ansi w :
  isSpace w && (eqc w (chr "[") || isAnsiParam w || eqc w (chr "m")
                || eqc w ESC) = false.
Proof. each_unit w. Qed.

(** White space after [a] completes no sequence. *)
Lemma ansiPrefix_before_space a ws :
  forallb isSpace ws = true -> a <> [] -> ansiPrefix a = None ->
  ansiPrefix (a ++ ws) = None.
Proof.
  intros Hws Hne Ha.
  assert (Hhd : forall w t, ws = w :: t ->
            eqc w (chr "[") = false /\ isAnsiParam w = false /\
            eqc w (chr "m") = false).
  { intros w t ->. cbn [forallb] in Hws. apply andb_true_iff in Hws as [Hw _].
    pose proof (space_not_ansi w) as H. rewrite Hw in H. cbn [andb] in H.
    apply orb_false_iff in H as [H _]. apply orb_false_iff in H as [H H3].
    apply orb_false_iff in H as [H1 H2]. auto. }
  destruct a as [|e [|b0 s1]]; [congruence| |].
  - cbn [app]. unfold ansiPrefix. destruct ws as [|w t]; [reflexivity|].
    destruct (Hhd w t eq_refl) as [H1 _]. now rewrite H1, andb_false_r.
  - cbn [app]. unfold ansiPrefix in *.
    destruct (eqc e ESC && eqc b0 (chr "[")); [|reflexivity].
    rewrite dropWhile_app.
    destruct (dropWhile isAnsiParam s1) as [|x r].
    + destruct ws as [|w t]; [reflexivity|].
      destruct (Hhd w t eq_refl) as [_ [H2 H3]].
      cbn [dropWhile]. now rewrite H2, H3.
    + destruct (eqc x (chr "m")); [discriminate | reflexivity].
Qed.

Lemma spaces_no_esc ws :
  forallb isSpace ws = true ->
  forallb (fun c => negb (eqc c ESC)) ws = true.
Proof.
  intros H. apply forallb_forall. intros w Hw.
  apply (proj1 (forallb_forall _ _) H) in Hw.
  pose proof (space_not_ansi w) as Hs. rewrite Hw in Hs. cbn [andb] in Hs.
  apply orb_false_iff in Hs as [_ Hs]. now rewrite Hs.
Qed.

(** White space at the end stays, and takes part in no sequence. *)
Lemma strip_before_space_aux n :
  forall y, length y <= n ->
  forall ws, forallb isSpace ws = true ->
  stripAnsiCodes (y ++ ws) = stripAnsiCodes y ++ ws.
Proof.
  induction n as [|n IH]; intros y Hn ws Hws.
  - destruct y; [|simpl in Hn; lia]. cbn [app]. rewrite strip_nil.
    rewrite <- (app_nil_r ws) at 1.
    now rewrite (strip_plain ws [] (spaces_no_esc _ Hws)), strip_nil, app_nil_r.
  - destruct y as [|c y].
    + cbn [app]. rewrite strip_nil. rewrite <- (app_nil_r ws) at 1.
      now rewrite (strip_plain ws [] (spaces_no_esc _ Hws)), strip_nil,
        app_nil_r.
    + change ((c :: y) ++ ws) with (c :: y ++ ws).
      rewrite (strip_cons c (y ++ ws)), (strip_cons c y).
      change (c :: y ++ ws) with ((c :: y) ++ ws).
      destruct (ansiPrefix (c :: y)) as [rest|] eqn:Ey.
      * rewrite (ansiPrefix_app _ ws _ Ey). apply IH; [|exact Hws].
        apply ansiPrefix_length in Ey. simpl in *. lia.
      * rewrite (ansiPrefix_before_space (c :: y) ws Hws) by
          (discriminate || exact Ey).
        cbn [app]. f_equal. apply IH; [simpl in Hn; lia | exact Hws].
Qed.

Lemma trimEnd_split x :
  exists ws, x = trimEnd x ++ ws /\ forallb isSpace ws = true.
Proof.
  exists (rev (takeWhile isSpace (rev x))). unfold trimEnd. split.
  - rewrite <- rev_app_distr, takeWhile_dropWhile. now rewrite rev_involutive.
  - apply forallb_forall. intros c Hc. apply in_rev in Hc.
    exact (proj1 (forallb_forall _ _) (takeWhile_all isSpace (rev x)) c Hc).
Qed.

(** Trimming the end does not lengthen what is visible. *)
Lemma visibleLength_trimEnd x :
  (visibleLength (trimEnd x) <= visibleLength x)%Z.
Proof.
  destruct (trimEnd_split x) as [ws [Hx Hws]].
  unfold visibleLength, len. rewrite Hx at 2.
  rewrite (strip_before_space_aux (length (trimEnd x)) _ (le_n _) ws Hws).
  rewrite length_app. lia.
Qed.

(* ================================================================== *)
(** * The text wrapper *)
(* ================================================================== *)

Lemma push_ok parts w cur :
  lineInvariant parts w cur -> cur <> [] -> segmentOk parts w (trimEnd cur).
Proof.
  intros [H|[H|H]] Hne; [contradiction| |].
  - left. pose proof (visibleLength_trimEnd cur). lia.
  - destruct (Z_le_gt_dec (visibleLength cur) w) as [Hle|Hgt].
    + left. pose proof (visibleLength_trimEnd cur). lia.
    + right. exists cur. repeat split; [exact H | lia].
Qed.

Lemma len_positive (s : str) : (len s >? 0)%Z = true -> s <> [].
Proof. intros H ->. discriminate. Qed.

Lemma wrapStep_invariant parts w lines cur part :
  In part parts ->
  Forall (segmentOk parts w) lines -> lineInvariant parts w cur ->
  Forall (segmentOk parts w) (fst (wrapStep w (lines, cur) part)) /\
  lineInvariant parts w (snd (wrapStep w (lines, cur) part)).
Proof.
  intros Hpart Hlines Hcur. unfold wrapStep.
  destruct ((visibleLength cur + visibleLength part >? w)%Z
            && (len cur >? 0)%Z) eqn:E.
  - apply andb_true_iff in E as [_ Hlen]. apply len_positive in Hlen.
    assert (Hpush : Forall (segmentOk parts w) (lines ++ [trimEnd cur])).
    { apply Forall_app. split; [exact Hlines|].
      constructor; [now apply push_ok | constructor]. }
    destruct (test false wideGapRe part); cbn [fst snd]; split;
      try exact Hpush.
    + now left.
    + right. now right.
  - cbn [fst snd]. split; [exact Hlines|].
    apply andb_false_iff in E as [E|E].
    + right. left. pose proof (visibleLength_app cur part).
      rewrite Z.gtb_ltb, Z.ltb_ge in E. lia.
    + destruct cur as [|c cur]; [right; right; exact Hpart|].
      exfalso. unfold len in E. rewrite Z.gtb_ltb, Z.ltb_ge in E.
      cbn [length] in E. lia.
Qed.

Lemma wrapFold_invariant parts w ps :
  forall lines cur,
  incl ps parts ->
  Forall (segmentOk parts w) lines -> lineInvariant parts w cur ->
  Forall (segmentOk parts w) (fst (fold_left (wrapStep w) ps (lines, cur))) /\
  lineInvariant parts w (snd (fold_left (wrapStep w) ps (lines, cur))).
Proof.
  induction ps as [|part ps IH]; intros lines cur Hincl Hlines Hcur.
  - now split.
  - cbn [fold_left].
    destruct (wrapStep_invariant parts w lines cur part
                (Hincl part (or_introl eq_refl)) Hlines Hcur) as [H1 H2].
    destruct (wrapStep w (lines, cur) part) as [lines' cur'].
    apply IH; [|exact H1 | exact H2].
    intros x Hx. apply Hincl. now right.
Qed.

(** C6: for every line and every width, every segment produced by the
    wrapper has visible length (the length once the styling sequences are
    removed) at most the width, unless it is a single part of the split
    line, itself wider than the width, emitted alone (with its end
    trimmed, as every segment is). *)
Theorem wrapLine_segments_fit_or_are_single_tokens (text : str) (maxWidth : Z) :
  Forall (fun seg =>
            (visibleLength seg <= maxWidth)%Z \/
            exists part,
              In part (split false wrapSplitRe text) /\
              (maxWidth < visibleLength part)%Z /\
              seg = trimEnd part)
         (wrapLine text maxWidth).
Proof.
  unfold wrapLine. cbv zeta.
  match goal with
  | |- context [fold_left ?f ?ps ?init] => set (r := fold_left f ps init)
  end.
  assert (H : Forall (segmentOk (split false wrapSplitRe text) maxWidth)
                (fst r) /\
              lineInvariant (split false wrapSplitRe text) maxWidth (snd r)).
  { apply wrapFold_invariant;
      [intros x Hx; exact Hx | constructor | now left]. }
  destruct r as [lines cur]. cbn [fst snd] in H. destruct H as [Hlines Hcur].
  destruct (len (trim cur) >? 0)%Z eqn:E; [|exact Hlines].
  apply Forall_app. split; [exact Hlines|].
  constructor; [|constructor].
  apply (push_ok _ _ _ Hcur). intros ->. discriminate.
Qed.

(* ================================================================== *)
(** * Context lines of the preview *)
(* ================================================================== *)

Lemma normalizeFrom_index_aux n :
  forall s, length s <= n -> forall i j, normalizeFrom i s = normalizeFrom j s.
Proof.
  induction n as [|n IH]; intros s Hn i j.
  - destruct s; [reflexivity | simpl in Hn; lia].
  - rewrite (normalizeFrom_run i s), (normalizeFrom_run j s). f_equal.
    pose proof (dropWhile_length isSpace s) as Hl.
    destruct (dropWhile isSpace s) as [|c s']; [reflexivity|].
    f_equal. apply IH. simpl in Hl. lia.
Qed.

(** [normalizeSpaces] by maximal runs of white space: a run of three or
    more becomes three spaces, a shorter run stays. *)
Lemma normalizeSpaces_runs s :
  normalizeSpaces s
  = collapse (takeWhile isSpace s) ++
    match dropWhile isSpace s with
    | [] => []
    | c :: s' => c :: normalizeSpaces s'
    end.
Proof.
  unfold normalizeSpaces, replaceAll. fold (normalizeFrom 0 s).
  rewrite normalizeFrom_run. f_equal.
  destruct (dropWhile isSpace s) as [|c s']; [reflexivity|]. f_equal.
  apply (normalizeFrom_index_aux (length s')). lia.
Qed.

(** [lastIndexOf]: -1 when the unit does not occur, else the index of its
    last occurrence. *)
Lemma lastIndexOfFrom_spec c s :
  forall i found,
  let r := lastIndexOfFrom c i s found in
  (r = found /\ forallb (fun x => negb (eqc x c)) s = true) \/
  ((i <= r < i + len s)%Z /\
   nth_error s (Z.to_nat (r - i)) = Some c /\
   forallb (fun x => negb (eqc x c)) (skipn (S (Z.to_nat (r - i))) s) = true).
Proof.
  induction s as [|x s IH]; intros i found; cbn [lastIndexOfFrom].
  - left. now split.
  - cbv zeta. specialize (IH (i + 1)%Z (if eqc x c then i else found)).
    cbv zeta in IH.
    set (r := lastIndexOfFrom c (i + 1) s (if eqc x c then i else found)) in *.
    unfold len in *. cbn [length].
    destruct IH as [[Hr Hno]|[Hr [Hnth Hno]]].
    + destruct (eqc x c) eqn:E.
      * right. rewrite Hr. replace (i - i)%Z with 0%Z by lia.
        apply eqc_true in E. subst x. cbn. split; [lia|]. now split.
      * left. split; [exact Hr|]. cbn [forallb]. now rewrite E, Hno.
    + right. split; [lia|].
      replace (Z.to_nat (r - i)) with (S (Z.to_nat (r - (i + 1)))) by lia.
      cbn [nth_error skipn]. now split.
Qed.

Lemma lastIndexOf_spec c s :
  let r := lastIndexOf c s in
  (r = (-1)%Z /\ forallb (fun x => negb (eqc x c)) s = true) \/
  ((0 <= r < len s)%Z /\
   nth_error s (Z.to_nat r) = Some c /\
   forallb (fun x => negb (eqc x c)) (skipn (S (Z.to_nat r)) s) = true).
Proof.
  pose proof (lastIndexOfFrom_spec c s 0 (-1)) as H. cbv zeta in *.
  unfold lastIndexOf. rewrite Z.sub_0_r in H. exact H.
Qed.

Lemma zrange_In lo n z : (lo <= z < lo + Z.of_nat n)%Z -> In z (zrange lo n).
Proof.
  intros H. unfold zrange. apply in_map_iff.
  exists (Z.to_nat (z - lo)). split; [cbv beta; lia|]. apply in_seq. lia.
Qed.

Lemma seventy_percent_checked :
  forallb (fun w =>
             forallb (fun ls => agreesWithSeventyPercent ls w)
                     (zrange (-1) (Z.to_nat (Z.max w (-1) + 2))))
          (zrange (-10) 411) = true.
Proof. vm_compute. reflexivity. Qed.

Lemma seventy_percent_agreement lastSpace width :
  (-10 <= width <= 400)%Z -> (-1 <= lastSpace <= Z.max width (-1))%Z ->
  ((10 * lastSpace > 7 * width)%Z ->
   beyondSeventyPercent lastSpace width = true) /\
  (beyondSeventyPercent lastSpace width = true ->
   (10 * lastSpace >= 7 * width)%Z).
Proof.
  intros Hw Hls.
  pose proof (proj1 (forallb_forall _ _) seventy_percent_checked width
                (zrange_In (-10) 411 width ltac:(lia))) as H.
  cbv beta in H.
  pose proof (proj1 (forallb_forall _ _) H lastSpace
                (zrange_In (-1) (Z.to_nat (Z.max width (-1) + 2)) lastSpace
                   ltac:(lia))) as H'.
  cbv beta in H'. unfold agreesWithSeventyPercent in H'.
  apply andb_true_iff in H' as [H1 H2]. split.
  - intros Hgt. replace (10 * lastSpace >? 7 * width)%Z with true in H1
      by (symmetry; apply Z.gtb_lt; lia). exact H1.
  - intros Hb. rewrite Hb in H2. apply Z.geb_le in H2. lia.
Qed.

Section PreviewFacts.

Variable chalk : style -> str -> str.
Variable columns : option Z.

Lemma renderWindow_context searchTerm m i raw todo :
  (i =? matchLine m)%Z = false ->
  renderWindow chalk columns searchTerm m i (raw :: todo)
  = renderContextLine chalk columns
      (padStart 6 (toString (lineNumber m - matchLine m + i)))
      (normalizeSpaces raw)
    ++ renderWindow chalk columns searchTerm m (i + 1) todo.
Proof. intros H. cbn [renderWindow]. now rewrite H. Qed.

Lemma lastSpace_spec (line : str) (n : Z) :
  let r := lastIndexOf (chr " ") (substring0 line n) in
  (r = (-1)%Z /\
   forallb (fun x => negb (eqc x (chr " "))) (substring0 line n) = true) \/
  ((0 <= r < n)%Z /\
   nth_error line (Z.to_nat r) = Some (chr " ") /\
   forallb (fun x => negb (eqc x (chr " ")))
     (skipn (S (Z.to_nat r)) (substring0 line n)) = true).
Proof.
  cbv zeta. destruct (lastIndexOf_spec (chr " ") (substring0 line n))
    as [H|[Hr [Hnth Hno]]]; [now left|]. right.
  unfold substring0, len in *. rewrite length_firstn in Hr.
  rewrite nth_error_firstn in Hnth.
  destruct (Z.to_nat (lastIndexOf (chr " ") (firstn (Z.to_nat n) line))
            <? Z.to_nat n) eqn:E; [|discriminate].
  apply Nat.ltb_lt in E. repeat split; try assumption; lia.
Qed.

(** C8, as the code has it: a context line that is not the match line is
    first normalized (a run of three or more white-space units becomes
    exactly three spaces); if its visible length is at most the maximum
    width it is shown whole; otherwise it is cut, followed by the
    three-unit ellipsis: at the last space among the first [width - 3]
    units when the index of that space is greater than [width * 0.7] as
    computed on binary64 numbers, and at [width - 3] otherwise.  For
    widths up to 400 that test holds whenever the index is more than 70%
    of the width, and only when it is at least 70% of it. *)
Theorem context_line_rendering
    (m : matchWindow) (searchTerm : str) (i : Z) (raw : str)
    (todo : list str) :
  let line := normalizeSpaces raw in
  let width := maxLineWidth columns in
  let lastSpace := lastIndexOf (chr " ") (substring0 line (width - 3)) in
  let shown :=
    if (visibleLength line >? width)%Z
    then substring0 line
           (if beyondSeventyPercent lastSpace width
            then lastSpace else width - 3)
         ++ chalk Gray (lit "...")
    else line in
  line = collapse (takeWhile isSpace raw) ++
         match dropWhile isSpace raw with
         | [] => []
         | c :: s' => c :: normalizeSpaces s'
         end /\
  ((i =? matchLine m)%Z = false ->
   renderWindow chalk columns searchTerm m i (raw :: todo)
   = chalk Gray (chr " " ::
                 padStart 6 (toString (lineNumber m - matchLine m + i)) ++
                 lit ": ")
     ++ shown ++ [LF]
     ++ renderWindow chalk columns searchTerm m (i + 1) todo) /\
  ((lastSpace = (-1)%Z /\
    forallb (fun x => negb (eqc x (chr " ")))
      (substring0 line (width - 3)) = true) \/
   ((0 <= lastSpace < width - 3)%Z /\
    nth_error line (Z.to_nat lastSpace) = Some (chr " ") /\
    forallb (fun x => negb (eqc x (chr " ")))
      (skipn (S (Z.to_nat lastSpace)) (substring0 line (width - 3)))
    = true)) /\
  length (lit "...") = 3 /\
  ((-10 <= width <= 400)%Z ->
   ((10 * lastSpace > 7 * width)%Z ->
    beyondSeventyPercent lastSpace width = true) /\
   (beyondSeventyPercent lastSpace width = true ->
    (10 * lastSpace >= 7 * width)%Z)).
Proof.
  cbv zeta. split; [apply normalizeSpaces_runs|]. split; [|split; [|split]].
  - intros Hi. rewrite (renderWindow_context _ _ _ _ _ Hi).
    unfold renderContextLine, truncateAt.
    destruct (visibleLength (normalizeSpaces raw) >? maxLineWidth columns)%Z;
      now rewrite <- !app_assoc.
  - apply lastSpace_spec.
  - reflexivity.
  - intros Hw. apply seventy_percent_agreement; [exact Hw|].
    destruct (lastSpace_spec (normalizeSpaces raw) (maxLineWidth columns - 3))
      as [[H _]|[H _]]; lia.
Qed.

End PreviewFacts.

(** C8 as stated fails on a terminal 100 columns wide: the width is 90,
    and [90 * 0.7] is 62.99999999999999 on binary64 numbers, so a last
    space at index 63, which is exactly 70% of the width and not beyond
    it, is where the line is cut.  It also fails on runs that are not made
    of spaces: three TABs become three spaces. *)
Lemma cut_at_exactly_seventy_percent :
  let line := repeat (chr "a") 63 ++ chr " " :: repeat (chr "b") 40 in
  normalizeSpaces line = line /\
  maxLineWidth (Some 100%Z) = 90%Z /\
  (visibleLength line >? 90)%Z = true /\
  lastIndexOf (chr " ") (substring0 line (90 - 3)) = 63%Z /\
  (10 * 63 >? 7 * 90)%Z = false /\
  truncateAt (Some 100%Z) line = 63%Z /\
  normalizeSpaces (chr "a" :: repeat (ascii_of_nat 9) 3 ++ [chr "b"])
  = lit "a   b".
Proof. vm_compute. repeat split. Qed.

(* ================================================================== *)
(** * The file tree *)
(* ================================================================== *)

(** ** What a successful run has passed through *)

Lemma other_class a c : classMatches false true [CChar a] c = other a c.
Proof.
  rewrite plain_class. unfold classMem, other. cbn [existsb classItemMem].
  now rewrite orb_false_r, eqc_sym.
Qed.

Lemma stripPrefix_eqc d s s' : stripPrefix eqc d s = Some s' -> s = d ++ s'.
Proof.
  revert s. induction d as [|a d IH]; intros s; cbn [stripPrefix app].
  - intros H. now injection H as ->.
  - destruct s as [|c s]; [discriminate|].
    destruct (eqc a c) eqn:E; [|discriminate].
    apply eqc_true in E. subst c. intros H. now rewrite (IH _ H).
Qed.

Lemma run_literal_reach d k i s caps st :
  run false (Literal d) k (mkState i s caps) = Some st ->
  exists s', s = d ++ s' /\ k (mkState (i + length d) s' caps) = Some st.
Proof.
  rewrite run_literal_plain.
  destruct (stripPrefix eqc d s) as [s'|] eqn:E; [|discriminate].
  intros H. exists s'. split; [exact (stripPrefix_eqc _ _ _ E) | exact H].
Qed.

Lemma run_char_reach a k i s caps st :
  run false (Char a) k (mkState i s caps) = Some st ->
  exists s', s = a :: s' /\ k (mkState (S i) s' caps) = Some st.
Proof.
  rewrite run_char. destruct s as [|c s]; [discriminate|].
  cbn [canonicalize]. rewrite code_eqb.
  destruct (eqc a c) eqn:E; [|discriminate].
  apply eqc_true in E. subst c. intros H. now exists s.
Qed.

Lemma starClass_reach p k i s caps st :
  starClass p k i s caps = Some st ->
  exists m s', s = m ++ s' /\ forallb p m = true /\
               k (mkState (i + length m) s' caps) = Some st.
Proof.
  revert i. induction s as [|c s IH]; intros i; cbn [starClass].
  - intros H. exists [], []. rewrite Nat.add_0_r. now repeat split.
  - assert (Hstop : k (mkState i (c :: s) caps) = Some st ->
              exists m s', c :: s = m ++ s' /\ forallb p m = true /\
                           k (mkState (i + length m) s' caps) = Some st).
    { intros H. exists [], (c :: s). rewrite Nat.add_0_r. now repeat split. }
    destruct (p c) eqn:Hc; [|exact Hstop].
    destruct (starClass p k (S i) s caps) as [z|] eqn:E; cbn [orElse];
      [|exact Hstop].
    intros H. injection H as ->.
    destruct (IH _ E) as [m [s' [-> [Hm Hk]]]].
    exists (c :: m), s'. cbn [forallb length app]. rewrite Hc, Hm.
    repeat split. now replace (i + S (length m)) with (S i + length m) by lia.
Qed.

Lemma run_star_reach a k i s caps st :
  run false (Star (Class true [CChar a])) k (mkState i s caps) = Some st ->
  exists m s', s = m ++ s' /\ forallb (other a) m = true /\
               k (mkState (i + length m) s' caps) = Some st.
Proof.
  rewrite run_star_class, (starClass_ext _ (other a) _ _ _ _ (other_class a)).
  apply starClass_reach.
Qed.

Lemma run_plus_reach a k i s caps st :
  run false (Plus (Class true [CChar a])) k (mkState i s caps) = Some st ->
  exists m s', m <> [] /\ s = m ++ s' /\ forallb (other a) m = true /\
               k (mkState (i + length m) s' caps) = Some st.
Proof.
  unfold Plus. rewrite run_seq, run_class.
  destruct s as [|c s]; [discriminate|]. rewrite other_class.
  destruct (other a c) eqn:Hc; [|discriminate].
  intros H. apply run_star_reach in H as [m [s' [-> [Hm Hk]]]].
  exists (c :: m), s'. cbn [forallb length app]. rewrite Hc, Hm.
  repeat split; [discriminate|].
  now replace (i + S (length m)) with (S i + length m) by lia.
Qed.

Lemma run_group_reach n a k i s caps st :
  run false (Group n (Plus (Class true [CChar a]))) k (mkState i s caps)
  = Some st ->
  exists m s', m <> [] /\ s = m ++ s' /\ forallb (other a) m = true /\
               k (mkState (i + length m) s' ((n, m) :: caps)) = Some st.
Proof.
  rewrite run_group. intros H.
  apply run_plus_reach in H as [m [s' [Hne [-> [Hm Hk]]]]].
  exists m, s'. repeat split; try assumption.
  unfold setCapture in Hk. cbn [index rest captures] in Hk.
  replace (i + length m - i) with (length m + 0) in Hk by lia.
  now rewrite firstn_app_2, app_nil_r in Hk.
Qed.

(** ** The link patterns *)

(** ** The link patterns *)

Lemma linkAfter_reach t tail k i s caps st :
  run false (linkAfter t tail) k (mkState i s caps) = Some st ->
  exists d attrs path s' j,
    s = d ++ DQ :: attrs ++ t ++ path ++ s' /\
    d <> [] /\ forallb (other DQ) d = true /\
    forallb (other (chr ">")) attrs = true /\
    path <> [] /\ forallb (other DQ) path = true /\
    i < j /\
    run false tail k (mkState j s' ((2, path) :: (1, d) :: caps)) = Some st.
Proof.
  unfold linkAfter. rewrite run_seq. intros H.
  apply run_group_reach in H as [d [s1 [Hd [-> [Cd H]]]]].
  rewrite run_seq in H. apply run_char_reach in H as [s2 [-> H]].
  rewrite run_seq in H. apply run_star_reach in H as [attrs [s3 [-> [Ca H]]]].
  rewrite run_seq in H. apply run_literal_reach in H as [s4 [-> H]].
  rewrite run_seq in H. apply run_group_reach in H as [path [s5 [Hp [-> [Cp H]]]]].
  exists d, attrs, path, s5. eexists. repeat split; try eassumption.
  destruct d; [congruence | cbn [length]; lia].
Qed.

Lemma tailA_reach i s caps st :
  run false tailA (fun y => Some y) (mkState i s caps) = Some st ->
  exists name after,
    s = DQ :: chr ">" :: name ++ lit "</a>" ++ after /\
    name <> [] /\ forallb (other (chr "<")) name = true /\
    captures st = (3, name) :: caps.
Proof.
  unfold tailA. rewrite run_seq. intros H.
  apply run_literal_reach in H as [s1 [-> H]].
  rewrite run_seq in H. apply run_group_reach in H as [name [s2 [Hn [-> [Cn H]]]]].
  apply run_literal_reach in H as [after [-> H]]. injection H as <-.
  exists name, after. now repeat split.
Qed.

Lemma tailB_reach i s caps st :
  run false tailB (fun y => Some y) (mkState i s caps) = Some st ->
  exists attrs name after,
    s = DQ :: attrs ++ chr ">" :: name ++ lit "</a>" ++ after /\
    forallb (other (chr ">")) attrs = true /\
    name <> [] /\ forallb (other (chr "<")) name = true /\
    captures st = (3, name) :: caps.
Proof.
  unfold tailB. rewrite run_seq. intros H.
  apply run_char_reach in H as [s1 [-> H]].
  rewrite run_seq in H. apply run_star_reach in H as [attrs [s2 [-> [Ca H]]]].
  rewrite run_seq in H. apply run_char_reach in H as [s3 [-> H]].
  rewrite run_seq in H. apply run_group_reach in H as [name [s4 [Hn [-> [Cn H]]]]].
  apply run_literal_reach in H as [after [-> H]]. injection H as <-.
  exists attrs, name, after. now repeat split.
Qed.

(** A run never goes back: the state handed to the continuation is not
    before the start. *)
Lemma run_advances ic r :
  forall k x st,
    run ic r k x = Some st ->
    exists y, k y = Some st /\ index x <= index y.
Proof.
  induction r as [|a|negated items|r1 IH1 r2 IH2|r1 IH1 r2 IH2|r IH|r IH
                  |n r IH| |]; intros k x st; cbn [run].
  - intros H. exists x. split; [exact H | lia].
  - destruct (advance x) as [[c y]|] eqn:E; [|discriminate].
    destruct (_ =? _)%N; [|discriminate]. intros H. exists y.
    split; [exact H|]. unfold advance in E. destruct (rest x); [discriminate|].
    injection E as _ <-. cbn [index]. lia.
  - destruct (advance x) as [[c y]|] eqn:E; [|discriminate].
    destruct (classMatches _ _ _ _); [|discriminate]. intros H. exists y.
    split; [exact H|]. unfold advance in E. destruct (rest x); [discriminate|].
    injection E as _ <-. cbn [index]. lia.
  - intros H. apply IH1 in H as [y [H Hy]]. apply IH2 in H as [z [H Hz]].
    exists z. split; [exact H | lia].
  - destruct (run ic r1 k x) as [z|] eqn:E; cbn [orElse].
    + intros H. injection H as ->. now apply IH1.
    + now apply IH2.
  - generalize (length (rest x)). intros fuel. revert x.
    induction fuel as [|fuel IHf]; intros x; cbn [starLoop].
    + intros H. exists x. split; [exact H | lia].
    + match goal with |- orElse ?a _ = _ -> _ => destruct a as [z|] eqn:E end;
        cbn [orElse].
      * intros H. injection H as ->. apply IH in E as [y [E Hy]].
        destruct (Nat.eqb (index y) (index x)); [discriminate|].
        apply IHf in E as [z [E Hz]]. exists z. split; [exact E | lia].
      * intros H. exists x. split; [exact H | lia].
  - match goal with |- orElse ?a _ = _ -> _ => destruct a as [z|] eqn:E end;
      cbn [orElse].
    + intros H. injection H as ->. apply IH in E as [y [E Hy]].
      destruct (Nat.eqb (index y) (index x)); [discriminate|].
      exists y. split; [exact E | exact Hy].
    + intros H. exists x. split; [exact H | lia].
  - intros H. apply IH in H as [y [H Hy]].
    eexists. split; [exact H|]. exact Hy.
  - destruct (Nat.eqb (index x) 0); [|discriminate].
    intros H. exists x. split; [exact H | lia].
  - destruct (rest x); [|discriminate].
    intros H. exists x. split; [exact H | lia].
Qed.

Lemma linkAfter_progress t tail i s caps st :
  run false (linkAfter t tail) (fun y => Some y) (mkState i s caps) = Some st ->
  i < index st.
Proof.
  intros H. apply linkAfter_reach in H
    as [d [attrs [path [s' [j [_ [_ [_ [_ [_ [_ [Hj H]]]]]]]]]]]].
  apply run_advances in H as [y [H Hy]]. injection H as <-.
  cbn [index] in Hy. lia.
Qed.

(** Every match of a link pattern spans a link of the text, whose three
    strings are the three groups; the match is not empty. *)
Lemma link_matchAt p i s st :
  In p patterns -> matchAt false p i s = Some st ->
  i < index st /\
  exists pre s1 d path name,
    s = pre ++ s1 /\ linkStart s1 d path name /\ linkFields d path name /\
    captures st = [(3, name); (2, path); (1, d)].
Proof.
  unfold patterns, matchAt. intros [<-|[<-|[<-|[]]]] H.
  - change (run false
              (Seq (Literal (lit "<a " ++ hrefDid))
                 (linkAfter (lit "data-original-title=" ++ [DQ]) tailA))
              (fun y => Some y) (mkState i s []) = Some st) in H.
    rewrite run_seq in H. apply run_literal_reach in H as [s1 [-> H]].
    split.
    { apply linkAfter_progress in H. lia. }
    apply linkAfter_reach in H
      as [d [attrs [path [s2 [j [-> [Hd [Cd [Ca [Hp [Cp [_ H]]]]]]]]]]]].
    apply tailA_reach in H as [name [after [-> [Hn [Cn Hc]]]]].
    exists (lit "<a "), (hrefDid ++ d ++ DQ :: attrs ++
                         (lit "data-original-title=" ++ [DQ]) ++ path ++
                         DQ :: chr ">" :: name ++ lit "</a>" ++ after),
      d, path, name.
    split; [now rewrite <- app_assoc|]. split; [|split; [|exact Hc]].
    + exists (attrs ++ lit "data-original-"), [], after. split.
      * rewrite <- !app_assoc. reflexivity.
      * rewrite forallb_app, Ca. split; reflexivity.
    + now repeat split.
  - change (run false
              (Seq (Literal (lit "<a"))
                 (Seq (Plus (Class true [CChar (chr ">")]))
                    (Seq (Literal hrefDid)
                       (linkAfter (lit "data-original-title=" ++ [DQ])
                          tailB))))
              (fun y => Some y) (mkState i s []) = Some st) in H.
    rewrite run_seq in H. apply run_literal_reach in H as [s1 [-> H]].
    rewrite run_seq in H. apply run_plus_reach in H as [a0 [s2 [_ [-> [_ H]]]]].
    rewrite run_seq in H. apply run_literal_reach in H as [s3 [-> H]].
    split.
    { apply linkAfter_progress in H. lia. }
    apply linkAfter_reach in H
      as [d [attrs [path [s4 [j [-> [Hd [Cd [Ca [Hp [Cp [_ H]]]]]]]]]]]].
    apply tailB_reach in H as [attrs2 [name [after [-> [Ca2 [Hn [Cn Hc]]]]]]].
    exists (lit "<a" ++ a0), (hrefDid ++ d ++ DQ :: attrs ++
                         (lit "data-original-title=" ++ [DQ]) ++ path ++
                         DQ :: attrs2 ++ chr ">" :: name ++ lit "</a>" ++ after),
      d, path, name.
    split; [now rewrite <- app_assoc|]. split; [|split; [|exact Hc]].
    + exists (attrs ++ lit "data-original-"), attrs2, after. split.
      * rewrite <- !app_assoc. reflexivity.
      * rewrite forallb_app, Ca. split; [reflexivity | exact Ca2].
    + now repeat split.
  - change (run false
              (Seq (Literal hrefDid) (linkAfter (lit "title=" ++ [DQ]) tailB))
              (fun y => Some y) (mkState i s []) = Some st) in H.
    rewrite run_seq in H. apply run_literal_reach in H as [s1 [-> H]].
    split.
    { apply linkAfter_progress in H. lia. }
    apply linkAfter_reach in H
      as [d [attrs [path [s4 [j [-> [Hd [Cd [Ca [Hp [Cp [_ H]]]]]]]]]]]].
    apply tailB_reach in H as [attrs2 [name [after [-> [Ca2 [Hn [Cn Hc]]]]]]].
    exists [], (hrefDid ++ d ++ DQ :: attrs ++
                         (lit "title=" ++ [DQ]) ++ path ++
                         DQ :: attrs2 ++ chr ">" :: name ++ lit "</a>" ++ after),
      d, path, name.
    split; [reflexivity|]. split; [|split; [|exact Hc]].
    + exists attrs, attrs2, after. split.
      * rewrite <- !app_assoc. reflexivity.
      * split; assumption.
    + now repeat split.
Qed.

(** ** Loops over the matches of a pattern *)

Section ExecInvariant.

Context {A : Type}.
Variable ic : bool.
Variable r : regex.
Variable body : state -> A -> A.
Variable text : str.
Variable P : A -> Prop.

Hypothesis progress : forall i s st,
  matchAt ic r i s = Some st -> i < index st.
Hypothesis step : forall before s st acc,
  text = before ++ s -> matchAt ic r (length before) s = Some st ->
  P acc -> P (body st acc).

(** When no match is empty the [while] loop ends, and what the body keeps
    true at every match of the text holds at the end. *)
Lemma execLoop_invariant s :
  forall before skip acc,
    text = before ++ s -> P acc ->
    exists acc', execLoop ic r body (length before) skip s acc = Some acc' /\
                 P acc'.
Proof.
  induction s as [|c s IH]; intros before skip acc Ht Hacc.
  - destruct skip as [|n]; cbn [execLoop]; [|now exists acc].
    destruct (matchAt ic r (length before) []) as [st|] eqn:E;
      [|now exists acc].
    pose proof (progress _ _ _ E) as Hp.
    destruct (index st - length before) eqn:En; [lia|].
    eexists. split; [reflexivity|]. exact (step _ _ _ _ Ht E Hacc).
  - assert (Hnext : forall n acc0, P acc0 ->
              exists acc', execLoop ic r body (S (length before)) n s acc0
                           = Some acc' /\ P acc').
    { intros n acc0 H0.
      replace (S (length before)) with (length (before ++ [c]))
        by (rewrite length_app; cbn [length]; lia).
      apply IH; [|exact H0]. now rewrite <- app_assoc. }
    destruct skip as [|n]; cbn [execLoop]; [|now apply Hnext].
    destruct (matchAt ic r (length before) (c :: s)) as [st|] eqn:E;
      [|now apply Hnext].
    pose proof (progress _ _ _ E) as Hp.
    destruct (index st - length before) eqn:En; [lia|].
    apply Hnext. exact (step _ _ _ _ Ht E Hacc).
Qed.

End ExecInvariant.

(** ** The first directory of a path *)

Lemma firstDir_matchAt p :
  matchAt false firstDirRe 0 p
  = match takeWhile (other (chr "/")) p, dropWhile (other (chr "/")) p with
    | _ :: _, _ :: after =>
        Some (mkState (S (length (takeWhile (other (chr "/")) p))) after [])
    | _, _ => None
    end.
Proof.
  unfold matchAt, firstDirRe. cbn [SeqAll]. rewrite run_seq, run_bol_0.
  unfold Plus. rewrite !run_seq, run_class.
  destruct p as [|c p]; [reflexivity|]. cbn [takeWhile dropWhile].
  rewrite other_class. destruct (other (chr "/") c) eqn:Hc; [|reflexivity].
  rewrite run_star_class,
    (starClass_ext _ (other (chr "/")) _ _ _ _ (other_class (chr "/"))).
  rewrite starClass_det.
  - rewrite run_char.
    destruct (dropWhile (other (chr "/")) p) as [|x after] eqn:E;
      [reflexivity|].
    apply dropWhile_head in E. unfold other in E.
    apply negb_false_iff, eqc_true in E. subst x.
    cbn [canonicalize]. rewrite N.eqb_refl. cbn [length]. reflexivity.
  - intros x s' j Hx. rewrite run_char. cbn [canonicalize].
    rewrite code_eqb. unfold other in Hx. apply negb_true_iff in Hx.
    now rewrite eqc_sym, Hx.
Qed.

Lemma firstDir_replace p :
  replaceFirst false firstDirRe (fun _ => []) p = dropFirstDir p.
Proof.
  unfold replaceFirst, dropFirstDir.
  change firstDirRe
    with (Seq Bol (Seq (Plus (Class true [CChar (chr "/")])) (Char (chr "/")))).
  rewrite search_bol_0.
  change (Seq Bol (Seq (Plus (Class true [CChar (chr "/")])) (Char (chr "/"))))
    with firstDirRe.
  rewrite firstDir_matchAt.
  pose proof (takeWhile_dropWhile (other (chr "/")) p) as Hp.
  pose proof (dropWhile_skipn (other (chr "/")) p) as Hs.
  destruct (takeWhile (other (chr "/")) p) as [|a t]; [reflexivity|].
  destruct (dropWhile (other (chr "/")) p) as [|x after]; [reflexivity|].
  cbn [index firstn app]. rewrite <- Hp at 1.
  replace (S (length (a :: t))) with (length ((a :: t) ++ [x]))
    by (rewrite length_app; cbn [length]; lia).
  replace ((a :: t) ++ x :: after) with (((a :: t) ++ [x]) ++ after)
    by now rewrite <- app_assoc.
  now rewrite skipn_app, skipn_all, Nat.sub_diag.
Qed.

(** The path splits at its first slash, unless it has none or starts with
    one. *)
Lemma dropFirstDir_spec p :
  (exists dir, p = dir ++ chr "/" :: dropFirstDir p /\ dir <> [] /\
               forallb (other (chr "/")) dir = true) \/
  (dropFirstDir p = p /\
   (forallb (other (chr "/")) p = true \/
    exists after, p = chr "/" :: after)).
Proof.
  unfold dropFirstDir.
  pose proof (takeWhile_dropWhile (other (chr "/")) p) as Hp.
  pose proof (takeWhile_all (other (chr "/")) p) as Ha.
  destruct (dropWhile (other (chr "/")) p) as [|x after] eqn:E.
  - right. rewrite app_nil_r in Hp. rewrite Hp in Ha.
    destruct (takeWhile (other (chr "/")) p); auto.
  - pose proof (dropWhile_head _ _ _ _ E) as Hx. unfold other in Hx.
    apply negb_false_iff, eqc_true in Hx. subst x.
    destruct (takeWhile (other (chr "/")) p) as [|a t] eqn:Et.
    + right. split; [reflexivity|]. right. exists after. now rewrite <- Hp.
    + left. exists (a :: t). repeat split; [now rewrite Hp | discriminate | exact Ha].
Qed.

(** ** The scan of the page *)

Lemma orStr_first (a b : str) : a <> [] -> orStr a b = a.
Proof. destruct a; [congruence | reflexivity]. Qed.

Lemma addFile_invariant html before s st p files :
  In p patterns -> html = before ++ s ->
  matchAt false p (length before) s = Some st ->
  treeInvariant html files -> treeInvariant html (addFile st files).
Proof.
  intros Hp Ht Hm [Hnd [Hall Hrel]].
  destruct (link_matchAt _ _ _ _ Hp Hm)
    as [_ [pre [s1 [d [path [name [-> [Hlink [Hf Hc]]]]]]]]].
  unfold addFile, capture. rewrite Hc. cbn [lookupCapture Nat.eqb].
  destruct (existsb (fun f => eqs (did f) d) files) eqn:E; [now repeat split|].
  destruct Hf as [Hd [Cd [Hpa [Cpa [Hn Cn]]]]].
  rewrite (orStr_first path _ Hpa), (orStr_first name _ Hn), firstDir_replace.
  split.
  - rewrite map_app. cbn [map did]. apply NoDup_app; [exact Hnd | | ].
    + constructor; [intros [] | constructor].
    + intros x Hx [<-|[]]. apply in_map_iff in Hx as [f [Hfd Hin]].
      assert (existsb (fun f0 => eqs (did f0) d) files = true) as Hex.
      { apply existsb_exists. exists f. split; [exact Hin|]. now apply eqs_true. }
      congruence.
  - split.
    + apply Forall_app. split; [exact Hall|]. constructor; [|constructor].
      unfold linkOf. cbn [did fullPath fileName].
      split; [|now repeat split].
      exists (before ++ pre), s1.
      split; [now rewrite <- app_assoc | exact Hlink].
    + apply Forall_app. split; [exact Hrel|]. now constructor.
Qed.

Lemma parsePatterns_invariant html todo :
  (forall p, In p todo -> In p patterns) ->
  forall files, treeInvariant html files ->
  exists files', parsePatterns todo html files = Some files' /\
                 treeInvariant html files'.
Proof.
  induction todo as [|p todo IH]; intros Hin files Hinv.
  - now exists files.
  - cbn [parsePatterns].
    assert (Hp : In p patterns) by (apply Hin; now left).
    destruct (execLoop_invariant false p addFile html (treeInvariant html)
                (fun i s st H => proj1 (link_matchAt p i s st Hp H))
                (fun before s st acc Ht Hm Hacc =>
                   addFile_invariant html before s st p acc Hp Ht Hm Hacc)
                html [] 0 files eq_refl Hinv)
      as [files1 [E H1]].
    cbn [length] in E. rewrite E.
    destruct (Z.of_nat (length files1) >? 0)%Z; [now exists files1|].
    apply IH; [|exact H1]. intros q Hq. apply Hin. now right.
Qed.

Lemma parseFileTree_invariant html :
  exists files, parseFileTree html = Some files /\ treeInvariant html files.
Proof.
  apply parsePatterns_invariant; [auto|].
  split; [constructor | split; constructor].
Qed.

(** X1: [parseFileTree] returns for every page (none of its loops runs
    for ever), and no two entries of the result have the same [did]: of
    several links with one [did] the first is kept.  On the sample page,
    whose links carry the dids abc, abc and zz, the first pattern finds
    the first link only, and the other patterns are not tried. *)
Theorem parseFileTree_distinct_dids (html : str) :
  (exists files, parseFileTree html = Some files /\ NoDup (map did files)) /\
  parseFileTree sampleHtml
  = Some [mkFile (lit "abc") (lit "dir/sub/file.txt") (lit "file.txt")
            (lit "sub/file.txt")] /\
  option_map (map did) (parsePatterns (tl patterns) sampleHtml [])
  = Some [lit "abc"; lit "zz"].
Proof.
  split; [|split; vm_compute; reflexivity].
  destruct (parseFileTree_invariant html) as [files [E [H _]]].
  now exists files.
Qed.

(** X2: every entry returned stands in the page as a link: somewhere in
    the page there is the [href] with the entry's [did] between double
    quotes, then attributes without [>], a [title] attribute with the
    entry's path, attributes without [>], the [>], the entry's name and
    the closing tag.  The did and the path are not empty and hold no
    double quote; the name is not empty and holds no [<]. *)
Theorem parseFileTree_entries_are_links (html : str) :
  exists files, parseFileTree html = Some files /\ Forall (linkOf html) files.
Proof.
  destruct (parseFileTree_invariant html) as [files [E [_ [H _]]]].
  now exists files.
Qed.

(** X3: the relative path of every entry is its path without the first
    directory: the path is [dir/relativePath] for a non-empty [dir]
    without slash, or, when the path has no slash or starts with one, the
    relative path is the whole path. *)
Theorem parseFileTree_relative_paths (html : str) :
  exists files,
    parseFileTree html = Some files /\
    Forall (fun f =>
              (exists dir,
                 fullPath f = dir ++ chr "/" :: relativePath f /\
                 dir <> [] /\ forallb (other (chr "/")) dir = true) \/
              (relativePath f = fullPath f /\
               (forallb (other (chr "/")) (fullPath f) = true \/
                exists after, fullPath f = chr "/" :: after)))
           files.
Proof.
  destruct (parseFileTree_invariant html) as [files [E [_ [_ H]]]].
  exists files. split; [exact E|].
  apply (Forall_impl _ (P := relativeOf)); [|exact H].
  intros f Hf. unfold relativeOf in Hf. rewrite Hf. apply dropFirstDir_spec.
Qed.

(** X4: a page in which the text [href=Q/?did=] (Q the double quote)
    does not occur gives the empty list. *)
Theorem parseFileTree_without_links (html : str)
    (Hnone : includes html hrefDid = false) :
  parseFileTree html = Some [].
Proof.
  destruct (parseFileTree_invariant html) as [files [E [_ [H _]]]].
  rewrite E. destruct files as [|f files]; [reflexivity|].
  apply Forall_inv in H. destruct H as [[before [s [-> Hl]]] _].
  destruct Hl as [a1 [a2 [after [-> _]]]].
  assert (includes (before ++ hrefDid ++ did f ++ DQ :: a1 ++ lit "title=" ++
                    DQ :: fullPath f ++ DQ :: a2 ++ chr ">" :: fileName f ++
                    lit "</a>" ++ after) hrefDid = true) as Hin.
  { apply includes_spec. eexists before, _. reflexivity. }
  congruence.
Qed.

Lemma parseFileTree_without_links_witness :
  includes (lit "<html><a href=x>no link</a></html>") hrefDid = false /\
  parseFileTree (lit "<html><a href=x>no link</a></html>") = Some [].
Proof.
  split; [reflexivity|].
  apply (parseFileTree_without_links
           (lit "<html><a href=x>no link</a></html>")).
  reflexivity.
Defined.

(* ================================================================== *)
(** * What the wrapper keeps *)
(* ================================================================== *)

(** The separator pattern of the wrapper matches the longest run of white
    space, when there is one, and captures it. *)
Lemma wrapSplit_matchAt i s :
  matchAt false wrapSplitRe i s
  = if truthy (takeWhile isSpace s)
    then Some (mkState (i + length (takeWhile isSpace s)) (dropWhile isSpace s)
                 [(1, takeWhile isSpace s)])
    else None.
Proof.
  unfold matchAt, wrapSplitRe. rewrite run_group. cbn [run].
  fold (run false (AtLeast 3 reSpace)). fold (run false (Plus reSpace)).
  assert (Hplus : forall k, run false (Plus reSpace) k (mkState i s [])
            = match s with
              | c :: s' =>
                  if isSpace c then starClass isSpace k (S i) s' [] else None
              | [] => None
              end).
  { intros k. unfold Plus, reSpace. rewrite run_seq, run_class.
    destruct s as [|c s']; [reflexivity|]. rewrite space_class.
    destruct (isSpace c); [|reflexivity].
    now rewrite run_star_class, (starClass_ext _ isSpace _ _ _ _ space_class). }
  assert (Hcap : forall c s', isSpace c = true ->
            starClass isSpace
              (fun y => Some (setCapture 1
                                (firstn (index y - i) (c :: s')) y))
              (S i) s' []
            = Some (mkState (i + length (takeWhile isSpace (c :: s')))
                      (dropWhile isSpace (c :: s'))
                      [(1, takeWhile isSpace (c :: s'))])).
  { intros c s' Hc. erewrite starClass_accept; [|reflexivity].
    unfold setCapture. cbn [index rest captures takeWhile dropWhile].
    rewrite Hc. rewrite (capture_of_run isSpace c s' i Hc).
    cbn [takeWhile length]. rewrite Hc.
    now replace (i + S (length (takeWhile isSpace s')))
      with (S i + length (takeWhile isSpace s')) by lia. }
  destruct (run false (AtLeast 3 reSpace) _ (mkState i s [])) as [z|] eqn:E;
    cbn [orElse index rest].
  - (* three or more *)
    cbn [AtLeast] in E. unfold reSpace in E.
    rewrite run_seq, run_class in E.
    destruct s as [|c1 s]; [discriminate|]. rewrite space_class in E.
    destruct (isSpace c1) eqn:H1; [|discriminate].
    rewrite run_seq, run_class in E.
    destruct s as [|c2 s]; [discriminate|]. rewrite space_class in E.
    destruct (isSpace c2) eqn:H2; [|discriminate].
    rewrite run_seq, run_class in E.
    destruct s as [|c3 s]; [discriminate|]. rewrite space_class in E.
    destruct (isSpace c3) eqn:H3; [|discriminate].
    rewrite run_star_class,
      (starClass_ext _ isSpace _ _ _ _ space_class) in E.
    erewrite starClass_accept in E; [|reflexivity].
    injection E as <-. unfold setCapture. cbn [index rest captures].
    cbn [takeWhile dropWhile]. rewrite H1, H2, H3. cbn [truthy length].
    f_equal. f_equal; [lia|].
    match goal with
    | |- context [firstn ?n _] =>
        assert (n = S (S (S (length (takeWhile isSpace s))))) as ->
          by (destruct i as [|[|[|?]]]; lia)
    end.
    cbn [firstn]. now rewrite <- takeWhile_firstn.
  - rewrite Hplus. destruct s as [|c s']; [reflexivity|].
    cbn [takeWhile]. destruct (isSpace c) eqn:Hc; [|reflexivity].
    cbn [truthy]. rewrite (Hcap c s' Hc). cbn [takeWhile]. now rewrite Hc.
Qed.

(** The parts of the split, put together, are the text. *)
Lemma splitLoop_concat s :
  forall p i skip cur,
    concat (splitLoop false wrapSplitRe p i skip cur s) = cur ++ skipn skip s.
Proof.
  induction s as [|c s IH]; intros p i skip cur.
  - destruct skip; cbn [splitLoop concat skipn]; now rewrite !app_nil_r.
  - destruct skip as [|n]; cbn [splitLoop].
    + rewrite wrapSplit_matchAt.
      destruct (truthy (takeWhile isSpace (c :: s))) eqn:E.
      * cbn [index capture captures lookupCapture Nat.eqb].
        cbn [takeWhile] in *. destruct (isSpace c) eqn:Hc; [|discriminate].
        cbn [length].
        replace (i + S (length (takeWhile isSpace s)) - i)
          with (S (length (takeWhile isSpace s))) by lia.
        cbn [concat]. rewrite IH. cbn [app skipn]. f_equal. f_equal.
        rewrite <- dropWhile_skipn. apply takeWhile_dropWhile.
      * rewrite IH. cbn [skipn]. now rewrite <- app_assoc.
    + rewrite IH. reflexivity.
Qed.

Lemma split_concat text : concat (split false wrapSplitRe text) = text.
Proof.
  unfold split. destruct text as [|c s].
  - rewrite wrapSplit_matchAt. reflexivity.
  - now rewrite splitLoop_concat.
Qed.

Lemma unspaced_app a b : unspaced (a ++ b) = unspaced a ++ unspaced b.
Proof. apply filter_app. Qed.

Lemma unspaced_spaces ws : forallb isSpace ws = true -> unspaced ws = [].
Proof.
  induction ws as [|c ws IH]; [reflexivity|]. cbn [forallb unspaced filter].
  intros H. apply andb_true_iff in H as [Hc Hws]. rewrite Hc. cbn [negb].
  exact (IH Hws).
Qed.

Lemma unspaced_trimEnd x : unspaced (trimEnd x) = unspaced x.
Proof.
  destruct (trimEnd_split x) as [ws [Hx Hws]]. rewrite Hx at 2.
  now rewrite unspaced_app, (unspaced_spaces _ Hws), app_nil_r.
Qed.

Lemma dropWhile_nil_all p (s : str) : dropWhile p s = [] -> forallb p s = true.
Proof.
  induction s as [|c s IH]; [reflexivity|]. cbn [dropWhile forallb].
  destruct (p c); [exact IH | discriminate].
Qed.

Lemma unspaced_trim_nil x : trim x = [] -> unspaced x = [].
Proof.
  unfold trim. intros H. rewrite <- (takeWhile_dropWhile isSpace x).
  rewrite unspaced_app, (unspaced_spaces _ (takeWhile_all _ _)).
  cbn [app]. fold (trimStart x). rewrite <- unspaced_trimEnd, H. reflexivity.
Qed.

(** A part that the wide-gap test accepts is white space only. *)
Lemma wideGap_spaces part :
  test false wideGapRe part = true -> forallb isSpace part = true.
Proof.
  unfold test, wideGapRe. cbn [SeqAll]. rewrite search_bol_0.
  unfold matchAt. rewrite run_seq, run_bol_0. cbn [AtLeast]. unfold reSpace.
  destruct (run false _ _ _) as [st|] eqn:E; [intros _ | discriminate].
  rewrite !run_seq, run_class in E.
  destruct part as [|c1 s]; [discriminate|]. rewrite space_class in E.
  destruct (isSpace c1) eqn:H1; [|discriminate].
  rewrite run_seq, run_class in E.
  destruct s as [|c2 s]; [discriminate|]. rewrite space_class in E.
  destruct (isSpace c2) eqn:H2; [|discriminate].
  rewrite run_seq, run_class in E.
  destruct s as [|c3 s]; [discriminate|]. rewrite space_class in E.
  destruct (isSpace c3) eqn:H3; [|discriminate].
  rewrite run_star_class, (starClass_ext _ isSpace _ _ _ _ space_class) in E.
  apply starClass_reach in E as [m [s' [-> [Hm E]]]].
  cbn [run rest] in E. destruct s'; [|discriminate].
  cbn [forallb]. rewrite H1, H2, H3, app_nil_r. exact Hm.
Qed.

Lemma wrapStep_unspaced w lines cur part :
  unspaced (concat (fst (wrapStep w (lines, cur) part)) ++
            snd (wrapStep w (lines, cur) part))
  = unspaced (concat lines ++ cur) ++ unspaced part.
Proof.
  unfold wrapStep.
  destruct ((visibleLength cur + visibleLength part >? w)%Z
            && (len cur >? 0)%Z).
  - destruct (test false wideGapRe part) eqn:E; cbn [fst snd];
      rewrite concat_app; cbn [concat]; rewrite !app_nil_r.
    + rewrite (unspaced_spaces _ (wideGap_spaces _ E)), app_nil_r.
      now rewrite !unspaced_app, unspaced_trimEnd.
    + now rewrite !unspaced_app, unspaced_trimEnd.
  - cbn [fst snd]. now rewrite app_assoc, unspaced_app.
Qed.

Lemma wrapFold_unspaced w parts :
  forall lines cur,
    unspaced (concat (fst (fold_left (wrapStep w) parts (lines, cur))) ++
              snd (fold_left (wrapStep w) parts (lines, cur)))
    = unspaced (concat lines ++ cur) ++ unspaced (concat parts).
Proof.
  induction parts as [|part parts IH]; intros lines cur; cbn [fold_left concat].
  - now rewrite app_nil_r.
  - pose proof (wrapStep_unspaced w lines cur part) as H.
    destruct (wrapStep w (lines, cur) part) as [lines' cur'].
    cbn [fst snd] in H. now rewrite IH, H, (unspaced_app part), <- app_assoc.
Qed.

Lemma trimEnd_trimEnd x : trimEnd (trimEnd x) = trimEnd x.
Proof.
  unfold trimEnd. rewrite rev_involutive. f_equal.
  destruct (dropWhile isSpace (rev x)) as [|c s] eqn:E; [reflexivity|].
  cbn [dropWhile]. now rewrite (dropWhile_head _ _ _ _ E).
Qed.

Lemma wrapStep_trimmed w lines cur part :
  Forall (fun seg => trimEnd seg = seg) lines ->
  Forall (fun seg => trimEnd seg = seg) (fst (wrapStep w (lines, cur) part)).
Proof.
  intros H. unfold wrapStep.
  destruct ((visibleLength cur + visibleLength part >? w)%Z
            && (len cur >? 0)%Z); [|exact H].
  destruct (test false wideGapRe part); cbn [fst]; apply Forall_app;
    (split; [exact H | constructor; [apply trimEnd_trimEnd | constructor]]).
Qed.

Lemma wrapFold_trimmed w parts :
  forall lines cur,
    Forall (fun seg => trimEnd seg = seg) lines ->
    Forall (fun seg => trimEnd seg = seg)
      (fst (fold_left (wrapStep w) parts (lines, cur))).
Proof.
  induction parts as [|part parts IH]; intros lines cur H; cbn [fold_left].
  - exact H.
  - pose proof (wrapStep_trimmed w lines cur part H) as H1.
    destruct (wrapStep w (lines, cur) part) as [lines' cur'].
    now apply IH.
Qed.

(** X5: the wrapper loses nothing but white space: the units of the
    segments that are not white space are, in order, those of the text;
    no segment ends in white space; and a text that has a unit other than
    white space gives at least one segment. *)
Theorem wrapLine_keeps_all_but_white_space (text : str) (maxWidth : Z) :
  unspaced (concat (wrapLine text maxWidth)) = unspaced text /\
  Forall (fun seg => trimEnd seg = seg) (wrapLine text maxWidth) /\
  (unspaced text <> [] -> wrapLine text maxWidth <> []).
Proof.
  assert (H1 : unspaced (concat (wrapLine text maxWidth)) = unspaced text).
  { unfold wrapLine.
    match goal with
    | |- context [let (_, _) := ?r in _] =>
        assert (H : unspaced (concat (fst r) ++ snd r) = unspaced text)
          by (rewrite wrapFold_unspaced, split_concat; reflexivity);
        destruct r as [lines cur]
    end.
    cbn [fst snd] in H. rewrite <- H.
    destruct (len (trim cur) >? 0)%Z eqn:E.
    - rewrite concat_app. cbn [concat]. rewrite app_nil_r.
      now rewrite !unspaced_app, unspaced_trimEnd.
    - rewrite unspaced_app. rewrite (unspaced_trim_nil cur), app_nil_r;
        [reflexivity|].
      destruct (trim cur); [reflexivity|]. discriminate. }
  split; [exact H1|]. split.
  - unfold wrapLine.
    match goal with
    | |- context [let (_, _) := ?r in _] =>
        assert (H : Forall (fun seg => trimEnd seg = seg) (fst r))
          by (apply wrapFold_trimmed; constructor);
        destruct r as [lines cur]
    end.
    cbn [fst] in H. destruct (len (trim cur) >? 0)%Z; [|exact H].
    apply Forall_app. split; [exact H|].
    constructor; [apply trimEnd_trimEnd | constructor].
  - intros Hne Hnil. rewrite Hnil in H1. cbn [concat unspaced filter] in H1.
    now apply Hne.
Qed.

(* ================================================================== *)
(** * The rows of a window *)
(* ================================================================== *)

Lemma firstn_skipn_seq {A} (d : A) (l : list A) :
  forall c s, s + c <= length l ->
  firstn c (skipn s l) = map (fun n => nth n l d) (seq s c).
Proof.
  induction c as [|c IH]; intros s Hs; [reflexivity|].
  destruct (skipn s l) as [|x rest] eqn:E.
  - apply skipn_all_iff in E. lia.
  - apply skipn_cons_nth in E as [Hn Hrest]. cbn [firstn seq map].
    rewrite (nth_error_nth _ _ d Hn), <- Hrest. f_equal. apply IH. lia.
Qed.

Lemma flat_map_seq_shift {B} (f : nat -> list B) d :
  forall c s,
    flat_map f (seq (s + d) c) = flat_map (fun j => f (j + d)) (seq s c).
Proof.
  induction c as [|c IH]; intros s; [reflexivity|].
  cbn [seq flat_map]. f_equal. apply (IH (S s)).
Qed.

Lemma nth_map_seq {B} (f : nat -> B) (d : B) :
  forall c s j, j < c -> nth j (map f (seq s c)) d = f (s + j).
Proof.
  induction c as [|c IH]; intros s j Hj; [lia|].
  destruct j as [|j]; cbn [seq map nth]; [now rewrite Nat.add_0_r|].
  rewrite IH by lia. f_equal. lia.
Qed.

Lemma flat_map_ext_In {A B} (f g : A -> list B) (l : list A) :
  (forall x, In x l -> f x = g x) -> flat_map f l = flat_map g l.
Proof.
  induction l as [|x l IH]; intros H; [reflexivity|]. cbn [flat_map].
  rewrite (H x (or_introl eq_refl)), IH; [reflexivity|].
  intros y Hy. apply H. now right.
Qed.

Section RowFacts.

Variable chalk : style -> str -> str.
Variable columns : option Z.

(** The loop over the context of a window, row by row. *)
Lemma renderWindow_rows searchTerm m todo :
  forall i,
    renderWindow chalk columns searchTerm m i todo
    = flat_map
        (fun j =>
           renderRow chalk columns searchTerm
             ((i + Z.of_nat j =? matchLine m)%Z)
             (lineNumber m - matchLine m + (i + Z.of_nat j))%Z
             (nth j todo []))
        (seq 0 (length todo)).
Proof.
  induction todo as [|raw todo IH]; intros i; [reflexivity|].
  cbn [renderWindow length seq flat_map nth]. rewrite Z.add_0_r.
  unfold renderRow at 1. f_equal.
  rewrite IH, (flat_map_seq_shift _ 1 (length todo) 0).
  apply flat_map_ext. intros j. rewrite Nat.add_1_r. cbn [nth].
  now replace (i + 1 + Z.of_nat j)%Z with (i + Z.of_nat (S j))%Z by lia.
Qed.

(** The rows of the window of a line: the lines [first] to [last] of the
    file, each under its own number. *)
Lemma windowAt_rows searchTerm lines k hit :
  (0 <= k)%Z -> hit < length lines ->
  let w := windowAt lines k hit in
  exists first last : nat,
    Z.of_nat first = Z.max 1 (lineNumber w - k) /\
    Z.of_nat last = Z.min (Z.of_nat (length lines)) (lineNumber w + k) /\
    context w
    = map (fun n => nth (n - 1) lines []) (seq first (last + 1 - first)) /\
    renderWindow chalk columns searchTerm w 0 (context w)
    = flat_map
        (fun n =>
           renderRow chalk columns searchTerm
             ((Z.of_nat n =? lineNumber w)%Z) (Z.of_nat n)
             (nth (n - 1) lines []))
        (seq first (last + 1 - first)).
Proof.
  intros Hk Hhit w.
  set (start := Z.to_nat (Z.max 0 (Z.of_nat hit - k))).
  set (stop := Z.to_nat (Z.min (Z.of_nat (length lines))
                           (Z.of_nat hit + k + 1))).
  assert (Hctx : context w = firstn (stop - start) (skipn start lines)).
  { subst w. unfold windowAt. cbn [context]. unfold slice, sliceIndex.
    replace (Z.max 0 (Z.of_nat hit - k) <? 0)%Z with false
      by (symmetry; apply Z.ltb_ge; lia).
    replace (Z.min (Z.of_nat (length lines)) (Z.of_nat hit + k + 1) <? 0)%Z
      with false by (symmetry; apply Z.ltb_ge; lia).
    f_equal; [|f_equal]; subst start stop; lia. }
  assert (Hnth : context w
                 = map (fun n => nth n lines []) (seq start (stop - start))).
  { rewrite Hctx. apply firstn_skipn_seq. subst start stop. lia. }
  assert (Hlen : length (context w) = stop - start)
    by (rewrite Hnth, length_map, length_seq; reflexivity).
  exists (S start), stop.
  replace (stop + 1 - S start) with (stop - start) by lia.
  split; [subst w start; unfold windowAt; cbn [lineNumber]; lia|].
  split; [subst w stop; unfold windowAt; cbn [lineNumber]; lia|].
  split.
  - rewrite Hnth, <- seq_shift, map_map. apply map_ext. intros n.
    now rewrite Nat.sub_1_r.
  - rewrite renderWindow_rows, Hlen.
    change (S start) with (1 + start).
    rewrite (Nat.add_comm 1 start), <- (Nat.add_0_l (start + 1)).
    rewrite (flat_map_seq_shift _ (start + 1) (stop - start) 0).
    apply flat_map_ext_In. intros j Hj. apply in_seq in Hj.
    assert (Hw : (lineNumber w - matchLine w = Z.of_nat start + 1)%Z).
    { subst w start. unfold windowAt. cbn [lineNumber matchLine]. lia. }
    assert (Hm : (lineNumber w = Z.of_nat hit + 1)%Z) by reflexivity.
    replace (nth j (context w) []) with (nth (j + (start + 1) - 1) lines []).
    2:{ rewrite Hnth, nth_map_seq by lia. f_equal. lia. }
    rewrite Hw.
    replace (Z.of_nat start + 1 + (0 + Z.of_nat j))%Z
      with (Z.of_nat (j + (start + 1))) by lia.
    f_equal.
    assert (Hml : (matchLine w = Z.of_nat hit - Z.of_nat start)%Z).
    { subst w start. unfold windowAt. cbn [matchLine]. lia. }
    rewrite Hml, Hm.
    destruct (0 + Z.of_nat j =? Z.of_nat hit - Z.of_nat start)%Z eqn:E1;
      destruct (Z.of_nat (j + (start + 1)) =? Z.of_nat hit + 1)%Z eqn:E2;
      try reflexivity;
      [apply Z.eqb_eq in E1; apply Z.eqb_neq in E2
      |apply Z.eqb_neq in E1; apply Z.eqb_eq in E2]; lia.
Qed.

(** X6: in the preview of the windows of [findContextInFile], for a
    context size [0 <= k], the rows of a window are the lines of the file
    from number [max 1 (lineNumber - k)] to number
    [min (number of lines) (lineNumber + k)], in order, each under its own
    line number in the file, and the row rendered as the match line is
    the one whose number is the window's [lineNumber]. *)
Theorem preview_rows_carry_file_line_numbers
    (content searchTerm : str) (k : Z) (Hk : (0 <= k)%Z) :
  let lines := splitOn LF content in
  Forall (fun w =>
            exists first last : nat,
              Z.of_nat first = Z.max 1 (lineNumber w - k) /\
              Z.of_nat last
              = Z.min (Z.of_nat (length lines)) (lineNumber w + k) /\
              context w
              = map (fun n => nth (n - 1) lines [])
                  (seq first (last + 1 - first)) /\
              renderWindow chalk columns searchTerm w 0 (context w)
              = flat_map
                  (fun n =>
                     renderRow chalk columns searchTerm
                       ((Z.of_nat n =? lineNumber w)%Z) (Z.of_nat n)
                       (nth (n - 1) lines []))
                  (seq first (last + 1 - first)))
         (findContextInFile content searchTerm k).
Proof.
  intros lines.
  destruct (findContextInFile_hits content searchTerm k)
    as [hits [-> [_ Hin]]].
  apply Forall_map, Forall_forall. intros hit Hhit.
  apply Hin in Hhit as [line [Hn _]].
  apply windowAt_rows; [exact Hk|]. apply nth_error_Some. subst lines.
  congruence.
Qed.

End RowFacts.

Lemma preview_rows_carry_file_line_numbers_witness :
  (0 <= 1)%Z /\
  Forall (fun w =>
            exists first last : nat,
              Z.of_nat first = Z.max 1 (lineNumber w - 1) /\
              Z.of_nat last
              = Z.min (Z.of_nat (length (splitOn LF (lit "ab" ++ [LF] ++ lit "cd"))))
                  (lineNumber w + 1) /\
              context w
              = map (fun n => nth (n - 1) (splitOn LF (lit "ab" ++ [LF] ++ lit "cd")) [])
                  (seq first (last + 1 - first)) /\
              renderWindow (fun _ s => s) None (lit "C") w 0 (context w)
              = flat_map
                  (fun n =>
                     renderRow (fun _ s => s) None (lit "C")
                       ((Z.of_nat n =? lineNumber w)%Z) (Z.of_nat n)
                       (nth (n - 1) (splitOn LF (lit "ab" ++ [LF] ++ lit "cd")) []))
                  (seq first (last + 1 - first)))
         (findContextInFile (lit "ab" ++ [LF] ++ lit "cd") (lit "C") 1).
Proof.
  split; [lia|].
  apply (preview_rows_carry_file_line_numbers (fun _ s => s) None
           (lit "ab" ++ [LF] ++ lit "cd") (lit "C") 1).
  lia.
Defined.

(* ================================================================== *)
(** * A whole run of the batch *)
(* ================================================================== *)

Section BatchRun.

Variable World : Type.
Variable getFilePreview : str -> str -> World -> fetched * World.
Variable getApiLimits : World -> limits * World.

Lemma limitCheck_fetches lim processingCount :
  match limitCheck lim processingCount with
  | inl t => noCredit lim = true /\ fetchesOf t = [] /\ filter isWrite t = []
  | inr t => noCredit lim = false /\ fetchesOf t = [] /\ filter isWrite t = []
  end.
Proof.
  unfold limitCheck, noCredit. destruct lim as [m|[fv|]]; [now repeat split| |now repeat split].
  destruct (CreditMax fv >? 0)%Z; [|now repeat split].
  destruct (Credit fv =? 0)%Z; [now repeat split|].
  destruct (Credit fv <? processingCount)%Z; now repeat split.
Qed.

Lemma finish_effects domainName processingCount (st : loopState World) :
  fetchesOf (finish domainName processingCount st) = fetchesOf (trace st) /\
  (filter isWrite (trace st) = [] ->
   filter isWrite (finish domainName processingCount st)
   = if (Z.of_nat (length (sort (allCredentials st))) =? 0)%Z then []
     else [WriteFile (domainName ++ lit ".txt")
             (join [LF] (sort (allCredentials st)) ++ [LF])]).
Proof.
  unfold finish.
  destruct (apiExhausted st && (processed st <? processingCount)%Z);
    destruct (Z.of_nat (length (sort (allCredentials st))) =? 0)%Z;
    destruct (errors st >? 0)%Z;
    rewrite ?fetchesOf_app, ?filter_app; cbn [fetchesOf filter isWrite app];
    rewrite ?app_nil_r; (split; [reflexivity|]); intros ->; reflexivity.
Qed.

Lemma filter_isWrite_nil t : existsb isWrite t = false -> filter isWrite t = [].
Proof.
  induction t as [|e t IH]; [reflexivity|]. cbn [existsb filter].
  destruct (isWrite e); [discriminate|]. exact IH.
Qed.

Lemma existsb_isWrite_nil t : filter isWrite t = [] -> existsb isWrite t = false.
Proof.
  induction t as [|e t IH]; [reflexivity|]. cbn [existsb filter].
  destruct (isWrite e); [discriminate|]. exact IH.
Qed.

(** The whole run, in terms of the limits and the attempts. *)
Lemma generateCombolist_run searchTerm records limit w0 :
  let toProcess := recordsToProcess records limit in
  let lim := fst (getApiLimits w0) in
  let w1 := snd (getApiLimits w0) in
  let a := attempts getFilePreview w1 toProcess in
  exists effects w2,
    generateCombolist getFilePreview getApiLimits searchTerm records limit w0
    = Some (effects, w2) /\
    fetchesOf effects = (if noCredit lim then [] else map fst a) /\
    (filter isWrite effects = [] \/
     exists content,
       noCredit lim = false /\
       filter isWrite effects
       = [WriteFile (cleanDomain searchTerm ++ lit ".txt") content]).
Proof.
  intros toProcess lim w1 a. unfold generateCombolist.
  fold toProcess. subst lim w1 a.
  destruct (getApiLimits w0) as [lim w1]. cbn [fst snd].
  pose proof (limitCheck_fetches lim (Z.of_nat (length toProcess))) as Hl.
  destruct (limitCheck lim (Z.of_nat (length toProcess))) as [t|t0].
  - destruct Hl as [-> [Hf Hw]]. exists t, w1. repeat split; auto.
  - destruct Hl as [-> [Hf Hw]].
    match goal with
    | |- context [processRecords _ ?d ?pc _ ?s] =>
        destruct (processRecords_attempts World getFilePreview d pc toProcess s)
          as [st' [Hrun [_ [_ [_ [_ [Hfe [_ Hnw]]]]]]]]
    end.
    cbn [world trace] in Hrun, Hfe, Hnw. rewrite Hrun.
    eexists _, _. split; [reflexivity|].
    destruct (finish_effects (cleanDomain searchTerm)
                (Z.of_nat (length toProcess)) st') as [H1 H2].
    split.
    + rewrite H1, Hfe, fetchesOf_app, Hf. reflexivity.
    + rewrite H2.
      * destruct (_ =? 0)%Z; [now left|]. right. eexists. split; reflexivity.
      * apply filter_isWrite_nil, Hnw. apply existsb_isWrite_nil.
        rewrite filter_app, Hw. reflexivity.
Qed.


(** X8: the check of the limits stops the batch in one case only: when
    the limits are obtained and report, for ["/file/view"], a positive
    maximum and no credit left; then no preview is requested and no file
    is written.  In every other case (the limits cannot be obtained, the
    entry is missing, its maximum is not positive, or some credit is
    left, even less than the number of records) the batch requests the
    previews of the records to process, up to the first quota failure. *)
Theorem generateCombolist_stops_only_without_credit
    (searchTerm : str) (records : list record) (limit : option Z)
    (w0 : World) :
  let lim := fst (getApiLimits w0) in
  let a := attempts getFilePreview (snd (getApiLimits w0))
             (recordsToProcess records limit) in
  exists effects w2,
    generateCombolist getFilePreview getApiLimits searchTerm records limit w0
    = Some (effects, w2) /\
    (noCredit lim = true ->
     fetchesOf effects = [] /\ filter isWrite effects = []) /\
    (noCredit lim = false -> fetchesOf effects = map fst a) /\
    (forall message, noCredit (LimitsFailed message) = false) /\
    noCredit (Limits None) = false /\
    (forall fv, noCredit (Limits (Some fv)) = true <->
                (0 < CreditMax fv)%Z /\ Credit fv = 0%Z).
Proof.
  intros lim a.
  destruct (generateCombolist_run searchTerm records limit w0)
    as [effects [w2 [Hrun [Hf Hw]]]].
  exists effects, w2. fold lim in Hf, Hw. fold a in Hf.
  split; [exact Hrun|]. split; [|split; [|split; [|split]]].
  - intros E. rewrite E in Hf. split; [exact Hf|].
    destruct Hw as [Hw|[c [Hc _]]]; [exact Hw | congruence].
  - intros E. now rewrite E in Hf.
  - reflexivity.
  - reflexivity.
  - intros fv. cbn [noCredit].
    rewrite andb_true_iff, Z.gtb_lt, Z.eqb_eq. reflexivity.
Qed.

End BatchRun.

(* ================================================================== *)
(** * The domain name *)
(* ================================================================== *)

Lemma stripPrefix_eqc_In d s s' c :
  stripPrefix eqc d s = Some s' -> In c d -> In c s.
Proof.
  intros H Hc. rewrite (stripPrefix_eqc _ _ _ H). apply in_or_app. now left.
Qed.

Lemma dropProtocol_no_slash s :
  forallb notSlash s = true -> dropProtocol s = s.
Proof.
  intros Hs. unfold dropProtocol.
  assert (Hno : ~ In (chr "/") s).
  { intros Hin. apply (proj1 (forallb_forall _ _) Hs) in Hin.
    discriminate. }
  destruct (stripPrefix eqc (lit "https://") s) as [t|] eqn:E1.
  - exfalso. apply Hno. apply (stripPrefix_eqc_In _ _ _ _ E1).
    cbn. auto 10.
  - destruct (stripPrefix eqc (lit "http://") s) as [t|] eqn:E2;
      [|reflexivity].
    exfalso. apply Hno. apply (stripPrefix_eqc_In _ _ _ _ E2).
    cbn. auto 10.
Qed.

Lemma takeWhile_fixed p (s : str) : forallb p s = true -> takeWhile p s = s.
Proof.
  induction s as [|c s IH]; [reflexivity|]. cbn [forallb takeWhile].
  intros H. apply andb_true_iff in H as [-> H]. now rewrite IH.
Qed.

(** X13: the domain name that the batch derives from the search term
    holds no slash; deriving it again changes nothing; the classifier
    gives the same answer on the search term and on its domain name; and
    when the classifier accepts the search term (the case in which the
    combolist is offered) the domain name, the stem of the name of the
    file written, starts with an alphanumeric unit and holds a dot. *)
Theorem cleanDomain_is_stable (searchTerm : str) :
  forallb notSlash (cleanDomain searchTerm) = true /\
  cleanDomain (cleanDomain searchTerm) = cleanDomain searchTerm /\
  isDomain (cleanDomain searchTerm) = isDomain searchTerm /\
  (isDomain searchTerm = true ->
   exists c rest,
     cleanDomain searchTerm = c :: rest /\ isAlnum c = true /\
     In (chr ".") rest).
Proof.
  assert (H1 : forallb notSlash (cleanDomain searchTerm) = true)
    by (rewrite cleanDomain_spec; apply takeWhile_all).
  assert (H2 : cleanDomain (cleanDomain searchTerm) = cleanDomain searchTerm).
  { rewrite (cleanDomain_spec (cleanDomain searchTerm)).
    now rewrite (dropProtocol_no_slash _ H1), (takeWhile_fixed _ _ H1). }
  split; [exact H1|]. split; [exact H2|]. split.
  - unfold isDomain. now rewrite H2.
  - rewrite isDomain_spec, <- cleanDomain_spec.
    destruct (cleanDomain searchTerm) as [|c rest]; [discriminate|].
    cbn [domainPrefix]. intros H. apply andb_true_iff in H as [Hc Hd].
    exists c, rest. repeat split; [exact Hc|].
    rewrite <- (takeWhile_dropWhile isAlnumHyphen rest). apply in_or_app.
    right. destruct (dropWhile isAlnumHyphen rest) as [|d [|a [|b t]]];
      try discriminate.
    cbn [dotTld] in Hd. apply andb_true_iff in Hd as [Hd _].
    apply andb_true_iff in Hd as [Hd _]. apply eqc_true in Hd. subst d.
    now left.
Qed.

(* ================================================================== *)
(** * The case of the domain *)
(* ================================================================== *)

(** Two domains that are the same up to case are stripped from a text
    alike. *)
Lemma stripPrefix_folded d1 d2 s :
  sameText d1 d2 ->
  stripPrefix sameLetter d1 s = stripPrefix sameLetter d2 s.
Proof.
  unfold sameText. revert d2 s.
  induction d1 as [|a d1 IH]; intros d2 s; cbn [stripPrefix].
  - intros H. injection H as ->. reflexivity.
  - destruct d2 as [|b d2]; [discriminate|].
    destruct (sameLetter a b) eqn:Eab; [|discriminate]. intros H.
    cbn [stripPrefix]. destruct s as [|c s]; [reflexivity|].
    unfold sameLetter in *. apply N.eqb_eq in Eab. rewrite Eab.
    destruct (_ =? _)%N; [|reflexivity]. now apply IH.
Qed.

Lemma scanTriples_ext t1 t2 s :
  (forall x, t1 x = t2 x) ->
  forall skip, scanTriples t1 skip s = scanTriples t2 skip s.
Proof.
  intros E. induction s as [|c s IH]; intros skip.
  - destruct skip; cbn [scanTriples]; [|reflexivity]. now rewrite E.
  - destruct skip as [|n]; cbn [scanTriples]; [|apply IH]. rewrite E.
    destruct (t2 (c :: s)) as [[[u p] after]|]; [|apply IH].
    now rewrite IH.
Qed.

(** X14: the extractor does not look at the case of the domain: two
    domains of the same length whose units the [i] flag of the pattern
    takes for the same (equal after [Canonicalize], unit by unit), such as
    "Example.COM" and "example.com", give the same credentials, in the
    same order, on every text. *)
Theorem extractCredentials_ignores_domain_case
    (text domain1 domain2 : str)
    (Hcase : sameText domain1 domain2) :
  extractCredentials text domain1 = extractCredentials text domain2.
Proof.
  rewrite !extractCredentials_found. unfold foundCredentials.
  assert (Hb : forall d s, tripleBody d domain1 s = tripleBody d domain2 s).
  { intros d s. unfold tripleBody.
    now rewrite (stripPrefix_folded _ _ s Hcase). }
  rewrite (scanTriples_ext (tripleA domain1) (tripleA domain2))
    by (intros x; apply Hb).
  rewrite (scanTriples_ext (tripleB domain1) (tripleB domain2)).
  - reflexivity.
  - intros x. unfold tripleB. destruct (stripProtocol x); now rewrite !Hb.
Qed.

Lemma extractCredentials_ignores_domain_case_witness :
  sameText (lit "Example.COM") (lit "example.com") /\
  extractCredentials (lit "EXAMPLE.com:alice:secret1") (lit "Example.COM")
  = extractCredentials (lit "EXAMPLE.com:alice:secret1") (lit "example.com").
Proof.
  split; [reflexivity|].
  apply (extractCredentials_ignores_domain_case
           (lit "EXAMPLE.com:alice:secret1") (lit "Example.COM")
           (lit "example.com")).
  reflexivity.
Defined.

(* ================================================================== *)
(** * What the normalization keeps *)
(* ================================================================== *)

Lemma unspaced_collapse run :
  forallb isSpace run = true -> unspaced (collapse run) = [].
Proof. intros H. apply unspaced_spaces, collapse_spaces, H. Qed.

Lemma collapse_shorter run : length (collapse run) <= length run.
Proof.
  unfold collapse. destruct (3 <=? length run)%nat eqn:E; [|lia].
  apply Nat.leb_le in E. cbn [lit list_ascii_of_string length]. exact E.
Qed.

Lemma normalizeFrom_keeps n :
  forall s, length s <= n ->
  forall i,
    unspaced (normalizeFrom i s) = unspaced s /\
    length (normalizeFrom i s) <= length s /\
    ((forall m, length (takeWhile isSpace (skipn m s)) < 3) ->
     normalizeFrom i s = s).
Proof.
  induction n as [|n IH]; intros s Hlen i.
  - destruct s; [|simpl in Hlen; lia]. now repeat split.
  - rewrite (normalizeFrom_run i s).
    pose proof (takeWhile_dropWhile isSpace s) as Hs.
    pose proof (takeWhile_all isSpace s) as Hrun.
    pose proof (collapse_shorter (takeWhile isSpace s)) as Hc.
    assert (Hshort : (forall m, length (takeWhile isSpace (skipn m s)) < 3) ->
                     collapse (takeWhile isSpace s) = takeWhile isSpace s).
    { intros Hm. specialize (Hm 0). cbn [skipn] in Hm. unfold collapse.
      now replace (3 <=? length (takeWhile isSpace s))%nat with false
        by (symmetry; apply Nat.leb_gt; exact Hm). }
    assert (Hlater : forall c s',
              dropWhile isSpace s = c :: s' ->
              (forall m, length (takeWhile isSpace (skipn m s)) < 3) ->
              forall m, length (takeWhile isSpace (skipn m s')) < 3).
    { intros c s' E Hm m.
      specialize (Hm (S m + length (takeWhile isSpace s))).
      rewrite <- skipn_skipn, <- dropWhile_skipn, E in Hm. exact Hm. }
    remember (takeWhile isSpace s) as run eqn:Erun.
    destruct (dropWhile isSpace s) as [|c s'] eqn:E.
    + rewrite app_nil_r in *. subst s. split; [|split].
      * now rewrite (unspaced_collapse _ Hrun), (unspaced_spaces _ Hrun).
      * exact Hc.
      * exact Hshort.
    + assert (Hl : length s' < length s)
        by (rewrite <- Hs, length_app; cbn [length]; lia).
      destruct (IH s' ltac:(lia) (S (i + length run))) as [H1 [H2 H3]].
      split; [|split].
      * rewrite <- Hs, !unspaced_app.
        rewrite (unspaced_collapse _ Hrun), (unspaced_spaces _ Hrun).
        cbn [app]. unfold unspaced in *. cbn [filter]. now rewrite H1.
      * rewrite <- Hs. rewrite !length_app. cbn [length]. lia.
      * intros Hm. rewrite (Hshort Hm), (H3 (Hlater c s' eq_refl Hm)).
        exact Hs.
Qed.

(** X16: the normalization changes white space only: the units of the
    line that are not white space are kept, in order; the result is never
    longer than the line; and a line in which no run of white space has
    three units or more is returned as it is. *)
Theorem normalizeSpaces_changes_white_space_only (line : str) :
  unspaced (normalizeSpaces line) = unspaced line /\
  length (normalizeSpaces line) <= length line /\
  ((forall m, length (takeWhile isSpace (skipn m line)) < 3) ->
   normalizeSpaces line = line).
Proof. exact (normalizeFrom_keeps (length line) line (le_n _) 0). Qed.

(* ================================================================== *)
(** * The number of files to process *)
(* ================================================================== *)

Lemma slice_firstn {A} (l : list A) (n : Z) :
  (0 <= n <= Z.of_nat (length l))%Z -> slice l 0 n = firstn (Z.to_nat n) l.
Proof.
  intros Hn. unfold slice, sliceIndex. cbn [Z.ltb Z.compare].
  replace (n <? 0)%Z with false by (symmetry; apply Z.ltb_ge; lia).
  rewrite Z.min_l, Z.min_l by lia. cbn [Z.to_nat skipn]. f_equal. lia.
Qed.

Lemma truthy_len (s : str) : (len s =? 0)%Z = negb (truthy s).
Proof. destruct s; reflexivity. Qed.

(** X9: an answer to the prompt "How many files to process?" that its
    validation accepts is either blank, and then the limit is [null] and
    the batch processes every record, or it starts (after white space and
    an optional sign) with the digits of a number [n] between 1 and the
    number of records, and then the limit is [n] and the batch processes
    exactly the first [n] records.  What follows the digits is not
    looked at. *)
Theorem accepted_file_limit_is_within_range
    (records : list record) (input : str)
    (Hvalid : validateFileLimit (Z.of_nat (length records)) input = Valid) :
  (trim input = [] /\ limitOf input = None /\
   recordsToProcess records (limitOf input) = records) \/
  (exists n : Z,
     parseInt (trim input) = Some n /\ limitOf input = Some n /\
     (1 <= n <= Z.of_nat (length records))%Z /\
     recordsToProcess records (limitOf input) = firstn (Z.to_nat n) records /\
     Z.of_nat (length (recordsToProcess records (limitOf input))) = n).
Proof.
  unfold validateFileLimit, limitOf in *. rewrite truthy_len in Hvalid.
  destruct (truthy input) eqn:Ei; cbn [negb orb andb] in *.
  - destruct (truthy (trim input)) eqn:Et; cbn [negb] in *.
    + right. destruct (parseInt (trim input)) as [n|]; [|discriminate].
      destruct (n <? 1)%Z eqn:E1; [discriminate|].
      destruct (n >? Z.of_nat (length records))%Z eqn:E2; [discriminate|].
      apply Z.ltb_ge in E1. rewrite Z.gtb_ltb in E2. apply Z.ltb_ge in E2.
      exists n. split; [reflexivity|]. split; [reflexivity|].
      split; [lia|].
      assert (Hr : recordsToProcess records (Some n)
                   = firstn (Z.to_nat n) records).
      { unfold recordsToProcess, limited.
        replace (n =? 0)%Z with false by (symmetry; apply Z.eqb_neq; lia).
        cbn [negb]. apply slice_firstn. lia. }
      split; [exact Hr|]. rewrite Hr, length_firstn. lia.
    + left. destruct (trim input); [|discriminate]. now repeat split.
  - left. destruct input; [|discriminate]. now repeat split.
Qed.

Lemma accepted_file_limit_is_within_range_witness :
  validateFileLimit
    (Z.of_nat (length [mkRecord (lit "a") (lit "b"); mkRecord (lit "c") (lit "d");
                       mkRecord (lit "e") (lit "f")]))
    (lit " 2 files ") = Valid /\
  ((trim (lit " 2 files ") = [] /\ limitOf (lit " 2 files ") = None /\
    recordsToProcess
      [mkRecord (lit "a") (lit "b"); mkRecord (lit "c") (lit "d");
       mkRecord (lit "e") (lit "f")] (limitOf (lit " 2 files "))
    = [mkRecord (lit "a") (lit "b"); mkRecord (lit "c") (lit "d");
       mkRecord (lit "e") (lit "f")]) \/
   (exists n : Z,
      parseInt (trim (lit " 2 files ")) = Some n /\
      limitOf (lit " 2 files ") = Some n /\
      (1 <= n <= Z.of_nat (length [mkRecord (lit "a") (lit "b");
                                   mkRecord (lit "c") (lit "d");
                                   mkRecord (lit "e") (lit "f")]))%Z /\
      recordsToProcess
        [mkRecord (lit "a") (lit "b"); mkRecord (lit "c") (lit "d");
         mkRecord (lit "e") (lit "f")] (limitOf (lit " 2 files "))
      = firstn (Z.to_nat n)
          [mkRecord (lit "a") (lit "b"); mkRecord (lit "c") (lit "d");
           mkRecord (lit "e") (lit "f")] /\
      Z.of_nat
        (length
           (recordsToProcess
              [mkRecord (lit "a") (lit "b"); mkRecord (lit "c") (lit "d");
               mkRecord (lit "e") (lit "f")] (limitOf (lit " 2 files "))))
      = n)).
Proof.
  split; [reflexivity|].
  apply (accepted_file_limit_is_within_range
           [mkRecord (lit "a") (lit "b"); mkRecord (lit "c") (lit "d");
            mkRecord (lit "e") (lit "f")] (lit " 2 files ")).
  reflexivity.
Defined.

(* ================================================================== *)
(** * Browsing the previews *)
(* ================================================================== *)

Lemma navChoices_next totalPages page :
  In NavNext (navChoices totalPages page) <-> (page < totalPages - 1)%Z.
Proof.
  unfold navChoices. destruct (page <? totalPages - 1)%Z eqn:E1;
    destruct (page >? 0)%Z; cbn [app In];
    (apply Z.ltb_lt in E1 || apply Z.ltb_ge in E1);
    split; intros H; try lia; auto;
    repeat (destruct H as [H|H]; try discriminate); contradiction.
Qed.

Lemma navChoices_prev totalPages page :
  In NavPrev (navChoices totalPages page) <-> (0 < page)%Z.
Proof.
  unfold navChoices. destruct (page <? totalPages - 1)%Z;
    destruct (page >? 0)%Z eqn:E2; cbn [app In];
    rewrite Z.gtb_ltb in E2;
    (apply Z.ltb_lt in E2 || apply Z.ltb_ge in E2);
    split; intros H; try lia; auto;
    repeat (destruct H as [H|H]; try discriminate); contradiction.
Qed.

(** X10: in the preview loop, as long as the answers are taken from the
    choices offered, the page stays within the records (so the record of
    the page shown always exists); ['download'] and ['back'] are always
    offered, ['next'] exactly when a page follows and ['prev'] exactly
    when one precedes; and the default choice is always one of the
    choices offered. *)
Theorem preview_page_stays_within_records
    (totalPages : Z) (b : browser)
    (Hrecords : (1 <= totalPages)%Z) (Hb : browsed totalPages b) :
  (0 <= currentPage b < totalPages)%Z /\
  In NavDownload (navChoices totalPages (currentPage b)) /\
  In NavBack (navChoices totalPages (currentPage b)) /\
  (In NavNext (navChoices totalPages (currentPage b))
   <-> (currentPage b + 1 < totalPages)%Z) /\
  (In NavPrev (navChoices totalPages (currentPage b))
   <-> (0 <= currentPage b - 1)%Z) /\
  exists choice,
    defaultChoice totalPages b = Some choice /\
    In choice (navChoices totalPages (currentPage b)).
Proof.
  assert (Hpage : (0 <= currentPage b < totalPages)%Z).
  { induction Hb as [|b a b' Hb IH Hin Hnav]; [cbn; lia|].
    destruct a; cbn [navigate] in Hnav; try discriminate;
      injection Hnav as <-; cbn [currentPage].
    - apply navChoices_next in Hin. lia.
    - apply navChoices_prev in Hin. lia.
    - exact IH. }
  split; [exact Hpage|].
  split; [unfold navChoices; rewrite !in_app_iff; cbn; auto|].
  split; [unfold navChoices; rewrite !in_app_iff; cbn; auto|].
  split; [rewrite navChoices_next; lia|].
  split; [rewrite navChoices_prev; lia|].
  unfold defaultChoice.
  destruct (match lastAction b with Some NavNext => true | _ => false end
            && (currentPage b <? totalPages - 1)%Z) eqn:E1.
  { exists NavNext. split; [reflexivity|]. apply navChoices_next.
    apply andb_true_iff in E1 as [_ E1]. now apply Z.ltb_lt in E1. }
  destruct (match lastAction b with Some NavPrev => true | _ => false end
            && (currentPage b >? 0)%Z) eqn:E2.
  { exists NavPrev. split; [reflexivity|]. apply navChoices_prev.
    apply andb_true_iff in E2 as [_ E2]. rewrite Z.gtb_ltb in E2.
    now apply Z.ltb_lt in E2. }
  unfold navChoices.
  destruct (currentPage b <? totalPages - 1)%Z;
    destruct (currentPage b >? 0)%Z; cbn [app length hd_error];
    eexists; (split; [reflexivity|]); cbn; auto.
Qed.

Lemma preview_page_stays_within_records_witness :
  (1 <= 3)%Z /\ browsed 3 (mkBrowser 1 (Some NavNext)) /\
  (0 <= currentPage (mkBrowser 1 (Some NavNext)) < 3)%Z /\
  In NavDownload (navChoices 3 (currentPage (mkBrowser 1 (Some NavNext)))) /\
  In NavBack (navChoices 3 (currentPage (mkBrowser 1 (Some NavNext)))) /\
  (In NavNext (navChoices 3 (currentPage (mkBrowser 1 (Some NavNext))))
   <-> (currentPage (mkBrowser 1 (Some NavNext)) + 1 < 3)%Z) /\
  (In NavPrev (navChoices 3 (currentPage (mkBrowser 1 (Some NavNext))))
   <-> (0 <= currentPage (mkBrowser 1 (Some NavNext)) - 1)%Z) /\
  exists choice,
    defaultChoice 3 (mkBrowser 1 (Some NavNext)) = Some choice /\
    In choice (navChoices 3 (currentPage (mkBrowser 1 (Some NavNext)))).
Proof.
  assert (Hb : browsed 3 (mkBrowser 1 (Some NavNext))).
  { apply (browsed_step 3 (mkBrowser 0 None) NavNext);
      [constructor | now left | reflexivity]. }
  split; [lia|]. split; [exact Hb|].
  apply (preview_page_stays_within_records 3 (mkBrowser 1 (Some NavNext)));
    [lia | exact Hb].
Defined.

(* ================================================================== *)
(** * The room for the preview *)
(* ================================================================== *)

Lemma linesPerMatch_3 : linesPerMatch 3 = 11%Z.
Proof. reflexivity. Qed.

Lemma availableLines_min rows : (3 <= availableLines rows)%Z.
Proof. unfold availableLines. lia. Qed.

Lemma layout_checked : forallb layoutFits (zrange 0 1001) = true.
Proof. vm_compute. reflexivity. Qed.

(** X11: whatever the height of the terminal, the context size handed to
    [findContextInFile] is between 1 and 4 and the number of matches
    handed to [formatPreview] is at least 1.  On terminals of up to 1000
    lines, the number of matches is the whole number of times that the
    estimate [ceil ((2 * contextLines + 1) * 1.5)] of the lines of a match
    fits the room left, or 1 when it does not fit; and it does fit
    whenever the room has at least five lines, that is on terminals of 18
    lines or more. *)
Theorem preview_layout_bounds (rows : option Z) :
  let contextLines := fst (previewLayout rows) in
  let maxMatches := snd (previewLayout rows) in
  (1 <= contextLines <= 4)%Z /\ (1 <= maxMatches)%Z /\
  (forall r, rows = Some r -> (0 <= r <= 1000)%Z ->
     maxMatches
     = Z.max 1 (availableLines rows / linesPerMatch contextLines) /\
     ((18 <= r)%Z ->
      (maxMatches * linesPerMatch contextLines <= availableLines rows)%Z)).
Proof.
  cbv zeta. split; [|split].
  - unfold previewLayout. rewrite linesPerMatch_3.
    pose proof (availableLines_min rows) as Hmin.
    destruct (11 >? availableLines rows)%Z eqn:E.
    + cbn [fst]. rewrite Z.gtb_ltb in E. apply Z.ltb_lt in E.
      assert (H : (availableLines rows = 3 \/ availableLines rows = 4 \/
                   availableLines rows = 5 \/ availableLines rows = 6 \/
                   availableLines rows = 7 \/ availableLines rows = 8 \/
                   availableLines rows = 9 \/ availableLines rows = 10)%Z)
        by lia.
      repeat (destruct H as [H|H];
              [rewrite H; vm_compute; (split; discriminate) | idtac]).
      rewrite H. vm_compute. split; discriminate.
    + destruct (availableLines rows >=? 15)%Z; [cbn [fst]; lia|].
      destruct (availableLines rows >=? 10)%Z; cbn [fst]; lia.
  - unfold previewLayout.
    destruct (_ >? _)%Z; [cbn [snd]; lia|].
    destruct (_ >=? 15)%Z; [cbn [snd]; unfold matchesThatFit; lia|].
    destruct (_ >=? 10)%Z; cbn [snd]; unfold matchesThatFit; lia.
  - intros r -> Hr.
    pose proof (proj1 (forallb_forall _ _) layout_checked r
                  (zrange_In 0 1001 r ltac:(lia))) as H.
    unfold layoutFits in H. cbv zeta in H.
    apply andb_true_iff in H as [H1 H2]. apply Z.eqb_eq in H1.
    split; [exact H1|]. intros H18.
    replace (5 <=? availableLines (Some r))%Z with true in H2.
    + now apply Z.leb_le in H2.
    + symmetry. apply Z.leb_le. unfold availableLines.
      destruct (r =? 0)%Z eqn:E0; [apply Z.eqb_eq in E0; lia|]. lia.
Qed.

(* ================================================================== *)
(** * Names of files *)
(* ================================================================== *)

Lemma splitOn_pieces sep s :
  Forall (fun p => forallb (fun c => negb (eqc c sep)) p = true)
         (splitOn sep s).
Proof.
  induction s as [|c s IH]; cbn [splitOn]; [repeat constructor|].
  destruct (eqc c sep) eqn:E; [now constructor|].
  destruct (splitOn sep s) as [|p ps]; [repeat constructor; cbn; now rewrite E|].
  inversion IH as [|? ? Hp Hps]; subst. constructor; [|exact Hps].
  cbn [forallb]. now rewrite E, Hp.
Qed.

Lemma join_splitOn sep s : join [sep] (splitOn sep s) = s.
Proof.
  induction s as [|c s IH]; [reflexivity|]. cbn [splitOn].
  pose proof (splitOn_nonempty sep s) as Hne.
  destruct (eqc c sep) eqn:E.
  - apply eqc_true in E. subst c.
    destruct (splitOn sep s) as [|p ps]; [congruence|].
    change (join [sep] ([] :: p :: ps)) with ([] ++ [sep] ++ join [sep] (p :: ps)).
    now rewrite IH.
  - destruct (splitOn sep s) as [|p ps]; [congruence|].
    rewrite <- IH. now destruct ps.
Qed.

Lemma join_last sep (l : list str) x :
  l <> [] -> join sep (l ++ [x]) = join sep l ++ sep ++ x.
Proof.
  induction l as [|y l IH]; [congruence|]. intros _.
  destruct l as [|z l]; [reflexivity|].
  change (join sep ((y :: z :: l) ++ [x]))
    with (y ++ sep ++ join sep ((z :: l) ++ [x])).
  rewrite IH by discriminate.
  change (join sep (y :: z :: l)) with (y ++ sep ++ join sep (z :: l)).
  now rewrite <- !app_assoc.
Qed.

(** X12: the file name shown for a record, and used for its download, is
    the part of the record's name after its last slash: it holds no
    slash, the name is a directory part (empty, or ended by a slash)
    followed by it, and it is empty exactly when the name ends with a
    slash.  A record without name, or with an empty one, gets the
    fallback. *)
Theorem recordFileName_is_last_segment (name fallback : str) :
  recordFileName None fallback = fallback /\
  recordFileName (Some []) fallback = fallback /\
  (name <> [] ->
   let fileName := recordFileName (Some name) fallback in
   forallb notSlash fileName = true /\
   (exists dir,
      name = dir ++ fileName /\
      (dir = [] \/ exists d, dir = d ++ [chr "/"])) /\
   (fileName = [] <-> exists d, name = d ++ [chr "/"])).
Proof.
  split; [reflexivity|]. split; [reflexivity|]. intros Hname fileName.
  assert (Hf : fileName = last (splitOn (chr "/") name) []).
  { subst fileName. unfold recordFileName. destruct name; [congruence|].
    reflexivity. }
  pose proof (splitOn_nonempty (chr "/") name) as Hne.
  pose proof (splitOn_pieces (chr "/") name) as Hp.
  pose proof (join_splitOn (chr "/") name) as Hj.
  destruct (exists_last Hne) as [l [x Hl]]. rewrite Hl in Hf, Hp, Hj.
  rewrite last_last in Hf. subst x.
  assert (Hclean : forallb notSlash fileName = true).
  { apply Forall_app in Hp as [_ Hp]. now inversion Hp. }
  assert (Hdir : exists dir,
            name = dir ++ fileName /\
            (dir = [] \/ exists d, dir = d ++ [chr "/"])).
  { destruct l as [|y l].
    - exists []. split; [now rewrite <- Hj | now left].
    - rewrite join_last in Hj by discriminate.
      exists (join [chr "/"] (y :: l) ++ [chr "/"]). split.
      + now rewrite <- Hj, <- app_assoc.
      + right. now eexists. }
  split; [exact Hclean|]. split; [exact Hdir|]. split.
  - intros E. destruct Hdir as [dir [Hn [->|[d ->]]]].
    + rewrite E in Hn. cbn in Hn. congruence.
    + exists d. now rewrite Hn, E, app_nil_r.
  - intros [d Hd]. destruct Hdir as [dir [Hn _]].
    destruct fileName as [|c f] using rev_ind; [reflexivity|].
    exfalso. rewrite Hn, app_assoc in Hd. apply app_inj_tail in Hd as [_ Hc].
    rewrite forallb_app in Hclean. apply andb_true_iff in Hclean as [_ Hc'].
    cbn [forallb] in Hc'. subst c. discriminate.
Qed.

(* ================================================================== *)
(** * A refused preview *)
(* ================================================================== *)

Section FetchFacts.

Variable World : Type.
Variable fetch : str -> World -> (response + str) * World.
Variable API_KEY : str.

(** X15: when the service refuses the preview of a record with the
    status 403 or 429, whatever the status text, the message of the error
    that [getFilePreview] throws carries the quota signal, so the batch
    loop stops at this record: it is counted as an error, the quota flag
    is set, no credential is added and no later record is requested. *)
Theorem refused_preview_stops_the_batch
    (domainName : str) (processingCount : Z) (r : record)
    (later : list record) (st : loopState World) (answer : response)
    (w' : World)
    (Hfetch : fetch (previewUrl API_KEY (storageid r) (bucket r)) (world st)
              = (inl answer, w'))
    (Hrefused : ok answer = false)
    (Hstatus : status answer = 403%Z \/ status answer = 429%Z) :
  exists st',
    processRecords (getFilePreview World fetch API_KEY) domainName
      processingCount (r :: later) st = Some st' /\
    apiExhausted st' = true /\
    errors st' = (errors st + 1)%Z /\
    processed st' = (processed st + 1)%Z /\
    allCredentials st' = allCredentials st /\
    fetchesOf (trace st') = fetchesOf (trace st) ++ [r] /\
    world st' = w'.
Proof.
  cbn [processRecords]. unfold getFilePreview. rewrite Hfetch, Hrefused.
  cbn [negb].
  assert (Hq : quotaSignal
                 (lit "Get file preview failed: " ++
                  toString (status answer) ++ chr " " :: statusText answer)
               = true).
  { unfold quotaSignal. apply andb_true_iff. split; [reflexivity|].
    destruct Hstatus as [-> | ->].
    - rewrite (proj2 (includes_spec _ (lit "403"))); [reflexivity|].
      exists (lit "Get file preview failed: "), (chr " " :: statusText answer).
      reflexivity.
    - rewrite (proj2 (includes_spec _ (lit "429"))); [now rewrite orb_true_r|].
      exists (lit "Get file preview failed: "), (chr " " :: statusText answer).
      reflexivity. }
  rewrite Hq. eexists. split; [reflexivity|].
  cbn [apiExhausted errors processed allCredentials trace world].
  repeat split.
  rewrite !fetchesOf_app. cbn [fetchesOf]. rewrite app_nil_r.
  destruct (Z.rem (processed st + 1) 10 =? 0)%Z; [|reflexivity].
  rewrite fetchesOf_app. cbn [fetchesOf]. now rewrite app_nil_r.
Qed.

End FetchFacts.

Lemma refused_preview_stops_the_batch_witness :
  busyService (previewUrl (lit "key") (storageid (mkRecord (lit "id") (lit "b")))
                 (bucket (mkRecord (lit "id") (lit "b"))))
    (world (mkLoop [] 0 0 false tt []))
  = (inl (mkResponse false 429 (lit "Too Many Requests") []), tt) /\
  ok (mkResponse false 429 (lit "Too Many Requests") []) = false /\
  (status (mkResponse false 429 (lit "Too Many Requests") []) = 403%Z \/
   status (mkResponse false 429 (lit "Too Many Requests") []) = 429%Z) /\
  exists st',
    processRecords (getFilePreview unit busyService (lit "key"))
      (lit "example.com") 2
      [mkRecord (lit "id") (lit "b"); mkRecord (lit "id2") (lit "b")]
      (mkLoop [] 0 0 false tt []) = Some st' /\
    apiExhausted st' = true /\
    errors st' = (errors (mkLoop [] 0 0 false tt []) + 1)%Z /\
    processed st' = (processed (mkLoop [] 0 0 false tt []) + 1)%Z /\
    allCredentials st' = allCredentials (mkLoop [] 0 0 false tt []) /\
    fetchesOf (trace st')
    = fetchesOf (trace (mkLoop [] 0 0 false tt [])) ++
      [mkRecord (lit "id") (lit "b")] /\
    world st' = tt.
Proof.
  split; [reflexivity|]. split; [reflexivity|]. split; [now right|].
  apply (refused_preview_stops_the_batch unit busyService (lit "key")
           (lit "example.com") 2 (mkRecord (lit "id") (lit "b"))
           [mkRecord (lit "id2") (lit "b")] (mkLoop [] 0 0 false tt [])
           (mkResponse false 429 (lit "Too Many Requests") []) tt).
  - reflexivity.
  - reflexivity.
  - now right.
Defined.

(* ================================================================== *)
(** * The export *)
(* ================================================================== *)

Lemma splitOn_plain sep (s : str) :
  forallb (fun c => negb (eqc c sep)) s = true -> splitOn sep s = [s].
Proof.
  induction s as [|c s IH]; [reflexivity|]. cbn [forallb splitOn].
  intros H. apply andb_true_iff in H as [Hc H]. apply negb_true_iff in Hc.
  now rewrite Hc, (IH H).
Qed.

Lemma splitOn_join_plain lines :
  lines <> [] -> forallb noLF lines = true ->
  splitOn LF (join [LF] lines) = lines.
Proof.
  induction lines as [|x lines IH]; intros Hne H; [congruence|].
  cbn [forallb] in H. apply andb_true_iff in H as [Hx H].
  destruct lines as [|y lines].
  - cbn [join]. now apply splitOn_plain.
  - change (join [LF] (x :: y :: lines))
      with (x ++ LF :: join [LF] (y :: lines)).
    rewrite (splitOn_line LF x _ Hx). f_equal.
    apply IH; [discriminate | exact H].
Qed.

(** X17: the file of the export holds the system ids of the records
    that have a non-empty one, in the order of the records, one per line
    and without a final line break: read back line by line it gives
    exactly these ids (none of which holds a line break); when no record
    has a system id the file is empty. *)
Theorem exported_ids_read_back (systemids : list (option str)) :
  let ids :=
    filter truthy
      (map (fun id => match id with Some s => s | None => [] end) systemids) in
  (ids = [] -> exportContent systemids = []) /\
  (ids <> [] -> forallb noLF ids = true ->
   splitOn LF (exportContent systemids) = ids) /\
  Forall (fun id => id <> [] /\ In (Some id) systemids) ids.
Proof.
  intros ids. unfold exportContent. fold ids. split; [|split].
  - now intros ->.
  - apply splitOn_join_plain.
  - apply Forall_forall. intros id Hid. subst ids.
    apply filter_In in Hid as [Hin Ht]. split; [now apply truthy_nonempty|].
    apply in_map_iff in Hin as [[s|] [Hs Hin]]; subst; [exact Hin|].
    discriminate.
Qed.

(* ================================================================== *)
(** * Styling and its removal *)
(* ================================================================== *)

Lemma ansiPrefix_sgr params rest :
  forallb isAnsiParam params = true ->
  ansiPrefix (sgr params ++ rest) = Some rest.
Proof.
  intros Hp. unfold sgr, ansiPrefix. cbn [app].
  rewrite !eqc_refl. cbn [andb]. rewrite <- app_assoc. cbn [app].
  assert (Hd : dropWhile isAnsiParam (params ++ chr "m" :: rest)
               = chr "m" :: rest)
    by (apply (takeWhile_app_stop isAnsiParam params (chr "m" :: rest) Hp);
        reflexivity).
  now rewrite Hd, eqc_refl.
Qed.

Lemma strip_sgr params rest :
  forallb isAnsiParam params = true ->
  stripAnsiCodes (sgr params ++ rest) = stripAnsiCodes rest.
Proof.
  intros Hp. pose proof (ansiPrefix_sgr params rest Hp) as H.
  unfold sgr in *. cbn [app] in *. now rewrite strip_cons, H.
Qed.

Lemma strip_sgrs l rest :
  Forall (fun p => forallb isAnsiParam p = true) l ->
  stripAnsiCodes (sgrs l ++ rest) = stripAnsiCodes rest.
Proof.
  induction l as [|p l IH]; intros H; [reflexivity|].
  inversion H as [|? ? Hp Hl]; subst. unfold sgrs. cbn [map concat].
  rewrite <- app_assoc, (strip_sgr _ _ Hp). now apply IH.
Qed.

Lemma strip_shorter n :
  forall s, length s <= n -> length (stripAnsiCodes s) <= length s.
Proof.
  induction n as [|n IH]; intros s Hn.
  - destruct s; [cbn; lia | cbn in Hn; lia].
  - destruct s as [|c s]; [cbn; lia|]. rewrite strip_cons.
    destruct (ansiPrefix (c :: s)) as [rest|] eqn:E.
    + apply ansiPrefix_length in E. cbn [length] in *.
      specialize (IH rest ltac:(lia)). lia.
    + cbn [length] in *. specialize (IH s ltac:(lia)). lia.
Qed.

Lemma replaceLoop_ext ic r (f g : str -> str) :
  (forall m, f m = g m) ->
  forall s i skip, replaceLoop ic r f i skip s = replaceLoop ic r g i skip s.
Proof.
  intros E. induction s as [|c s IH]; intros i skip.
  - destruct skip; cbn [replaceLoop]; [|reflexivity].
    destruct (matchAt ic r i []); [|reflexivity]. now rewrite E.
  - destruct skip as [|n]; cbn [replaceLoop]; [|apply IH].
    destruct (matchAt ic r i (c :: s)) as [st|]; [|now rewrite IH].
    rewrite E. destruct (index st - i); now rewrite IH.
Qed.

Section Styled.

Variable before after : list str.
Hypothesis before_codes : Forall (fun p => forallb isAnsiParam p = true) before.
Hypothesis after_codes : Forall (fun p => forallb isAnsiParam p = true) after.

Lemma strip_styled m rest :
  plain m = true ->
  stripAnsiCodes ((sgrs before ++ m ++ sgrs after) ++ rest)
  = m ++ stripAnsiCodes rest.
Proof.
  intros Hm. rewrite <- !app_assoc.
  rewrite (strip_sgrs _ _ before_codes), (strip_plain _ _ Hm).
  now rewrite (strip_sgrs _ _ after_codes).
Qed.

End Styled.

Lemma plain_firstn n s : plain s = true -> plain (firstn n s) = true.
Proof.
  unfold plain. intros H. rewrite <- (firstn_skipn n s), forallb_app in H.
  now apply andb_true_iff in H as [H _].
Qed.

Section Restyled.

(** A replacement that styles the text it is given. *)
Variable f : str -> str.
Hypothesis f_styles : forall m rest,
  plain m = true -> stripAnsiCodes (f m ++ rest) = m ++ stripAnsiCodes rest.

(** Replacing the matches of any pattern by their styled selves changes
    nothing of what is visible. *)
Lemma strip_replaceLoop ic r s :
  plain s = true ->
  forall i skip,
    stripAnsiCodes (replaceLoop ic r f i skip s) = skipn skip s.
Proof.
  induction s as [|c s IH]; intros Hs i skip.
  - destruct skip; cbn [replaceLoop skipn]; [|reflexivity].
    destruct (matchAt ic r i []); [|reflexivity].
    rewrite firstn_nil. now rewrite (f_styles [] [] eq_refl).
  - assert (Hc : plain [c] = true /\ plain s = true).
    { unfold plain in *. cbn [forallb] in *.
      apply andb_true_iff in Hs as [-> ->]. auto. }
    destruct Hc as [Hc Hs'].
    destruct skip as [|n]; cbn [replaceLoop skipn]; [|now apply IH].
    destruct (matchAt ic r i (c :: s)) as [st|].
    + rewrite (f_styles _ _ (plain_firstn _ _ Hs)).
      destruct (index st - i) as [|n].
      * cbn [firstn app]. change (c :: ?x) with ([c] ++ x).
        rewrite (strip_plain [c] _ Hc), (IH Hs'). reflexivity.
      * rewrite (IH Hs'). cbn [firstn app]. f_equal. apply firstn_skipn.
    + change (c :: ?x) with ([c] ++ x).
      rewrite (strip_plain [c] _ Hc), (IH Hs'). reflexivity.
Qed.

End Restyled.

(** X19: [stripAnsiCodes] undoes the styling: a run of styling sequences
    (each one ESC, an opening bracket, digits and semicolons, [m]) at the
    start of a text is removed; a text without ESC that is wrapped in such
    sequences is given back as it was, whatever follows; a text without
    ESC is left alone; and the result is never longer than the text. *)
Theorem stripAnsiCodes_undoes_styling
    (before after : list str) (s rest : str) :
  length (stripAnsiCodes s) <= length s /\
  (plain s = true -> stripAnsiCodes s = s) /\
  (Forall (fun p => forallb isAnsiParam p = true) before ->
   stripAnsiCodes (sgrs before ++ rest) = stripAnsiCodes rest) /\
  (Forall (fun p => forallb isAnsiParam p = true) before ->
   Forall (fun p => forallb isAnsiParam p = true) after ->
   plain s = true ->
   stripAnsiCodes ((sgrs before ++ s ++ sgrs after) ++ rest)
   = s ++ stripAnsiCodes rest /\
   visibleLength (sgrs before ++ s ++ sgrs after) = len s).
Proof.
  split; [exact (strip_shorter (length s) s (le_n _))|].
  assert (Hplain : plain s = true -> stripAnsiCodes s = s).
  { intros H. rewrite <- (app_nil_r s) at 1.
    rewrite (strip_plain _ _ H), strip_nil. apply app_nil_r. }
  split; [exact Hplain|]. split; [apply strip_sgrs|].
  intros Hb Ha Hs. split; [now apply strip_styled|].
  unfold visibleLength.
  rewrite <- (app_nil_r (sgrs before ++ s ++ sgrs after)).
  now rewrite (strip_styled before after Hb Ha s [] Hs), strip_nil, app_nil_r.
Qed.

Section Highlight.

Variable chalk : style -> str -> str.

(** X20: when the highlight styling is one that [stripAnsiCodes] removes
    (as it is when it wraps the text in styling sequences, and when it
    leaves the text alone), the highlighted match line of a line without
    ESC shows the same text as the line, whatever the search term:
    removing the styling gives back the line, so the visible length that
    the wrapper measures is the length of the line. *)
Theorem highlight_keeps_visible_text
    (searchTerm line : str)
    (Hchalk : forall m rest,
        plain m = true ->
        stripAnsiCodes (chalk BgYellowBlack m ++ rest)
        = m ++ stripAnsiCodes rest)
    (Hline : plain line = true) :
  stripAnsiCodes (highlight chalk searchTerm line) = line /\
  visibleLength (highlight chalk searchTerm line) = len line /\
  forall columns lineNumStr,
    renderMatchLine chalk columns searchTerm lineNumStr line
    = match wrapLine (highlight chalk searchTerm line)
              (maxLineWidth columns) with
      | [] => []
      | w :: ws =>
          chalk Green (chr ">" :: lineNumStr ++ lit ": ") ++ w ++ [LF] ++
          flat_map
            (fun w' =>
               chalk Green (repeat (chr " ") (Z.to_nat lineNumWidth)) ++
               w' ++ [LF])
            ws
      end.
Proof.
  assert (E : stripAnsiCodes (highlight chalk searchTerm line) = line).
  { unfold highlight, replaceAll.
    now rewrite (strip_replaceLoop _ Hchalk _ _ _ Hline). }
  split; [exact E|]. split; [unfold visibleLength; now rewrite E|].
  reflexivity.
Qed.

End Highlight.

Lemma sampleChalk_styles m rest :
  plain m = true ->
  stripAnsiCodes (sampleChalk BgYellowBlack m ++ rest)
  = m ++ stripAnsiCodes rest.
Proof.
  apply (strip_styled [lit "43"; lit "30"] [lit "39"; lit "49"]);
    repeat constructor.
Qed.

Lemma highlight_keeps_visible_text_witness :
  (forall m rest,
     plain m = true ->
     stripAnsiCodes (sampleChalk BgYellowBlack m ++ rest)
     = m ++ stripAnsiCodes rest) /\
  plain (lit "an Example line") = true /\
  stripAnsiCodes (highlight sampleChalk (lit "example") (lit "an Example line"))
  = lit "an Example line" /\
  visibleLength (highlight sampleChalk (lit "example") (lit "an Example line"))
  = len (lit "an Example line") /\
  forall columns lineNumStr,
    renderMatchLine sampleChalk columns (lit "example") lineNumStr
      (lit "an Example line")
    = match wrapLine (highlight sampleChalk (lit "example")
                        (lit "an Example line"))
              (maxLineWidth columns) with
      | [] => []
      | w :: ws =>
          sampleChalk Green (chr ">" :: lineNumStr ++ lit ": ") ++ w ++ [LF] ++
          flat_map
            (fun w' =>
               sampleChalk Green (repeat (chr " ") (Z.to_nat lineNumWidth)) ++
               w' ++ [LF])
            ws
      end.
Proof.
  split; [exact sampleChalk_styles|]. split; [reflexivity|].
  exact (highlight_keeps_visible_text sampleChalk (lit "example")
           (lit "an Example line") sampleChalk_styles eq_refl).
Defined.

(* ================================================================== *)
(** * The summary of a run *)
(* ================================================================== *)

Lemma successes_failures a : (successes a = Z.of_nat (length a) - failures a)%Z.
Proof.
  unfold successes, failures. induction a as [|x a IH]; [reflexivity|].
  cbn [filter length]. destruct (isFailure (snd x)); cbn [negb length]; lia.
Qed.

Section Summary.

Variable World : Type.
Variable getFilePreview : str -> str -> World -> fetched * World.
Variable getApiLimits : World -> limits * World.

Lemma processRecords_no_summary domainName processingCount records :
  forall st st',
    processRecords getFilePreview domainName processingCount records st
    = Some st' ->
    filter isSummary (trace st') = filter isSummary (trace st).
Proof.
  induction records as [|r records IH]; intros st st'.
  - cbn [processRecords]. intros H. now injection H as <-.
  - cbn [processRecords].
    destruct (getFilePreview (storageid r) (bucket r) (world st)) as [res w'].
    set (trace1 := if (Z.rem (processed st + 1) 10 =? 0)%Z
                   then trace st ++ [LogProgress (processed st + 1)
                                       processingCount]
                   else trace st).
    assert (H1 : filter isSummary trace1 = filter isSummary (trace st)).
    { subst trace1. destruct (Z.rem _ _ =? 0)%Z; [|reflexivity].
      rewrite filter_app. cbn. apply app_nil_r. }
    destruct res as [content|message].
    + destruct (extractCredentials content domainName); [|discriminate].
      intros H. apply IH in H. cbn [trace] in H.
      rewrite H, filter_app, H1. cbn. apply app_nil_r.
    + destruct (quotaSignal message).
      * intros H. injection H as <-. cbn [trace].
        rewrite !filter_app, H1. cbn. now rewrite !app_nil_r.
      * intros H. apply IH in H. cbn [trace] in H.
        rewrite H, filter_app, H1. cbn. apply app_nil_r.
Qed.

Lemma limitCheck_no_summary lim processingCount :
  match limitCheck lim processingCount with
  | inl t | inr t => filter isSummary t = []
  end.
Proof.
  unfold limitCheck. destruct lim as [m|[fv|]]; try reflexivity.
  destruct (CreditMax fv >? 0)%Z; [|reflexivity].
  destruct (Credit fv =? 0)%Z; [reflexivity|].
  destruct (Credit fv <? processingCount)%Z; reflexivity.
Qed.

(** X18: the numbers that [generateCombolist] reports at the end of a run
    are those of the run.  With [a] the fetches made (each record
    processed with the outcome of its request): the count of "Generated
    combolist with N credential(s)" is the number of lines of the file
    written, which are without repetition; the count of "N file(s) could
    not be processed" is the number of fetches that failed, and is
    positive; the count of "Only N file(s) were successfully processed" is
    the number of fetches that gave a text; and "No credentials found" is
    reported only when no file is written. *)
Theorem generateCombolist_reports_true_counts
    (searchTerm : str) (records : list record) (limit : option Z)
    (w0 : World) :
  let a := attempts getFilePreview (snd (getApiLimits w0))
             (recordsToProcess records limit) in
  exists effects w2,
    generateCombolist getFilePreview getApiLimits searchTerm records limit w0
    = Some (effects, w2) /\
    (forall n, In (LogGenerated n) effects ->
       exists name lines,
         In (WriteFile name (join [LF] lines ++ [LF])) effects /\
         splitOn LF (join [LF] lines ++ [LF]) = lines ++ [[]] /\
         NoDup lines /\ n = Z.of_nat (length lines)) /\
    (forall n, In (LogCouldNotProcess n) effects ->
       n = failures a /\ (0 < n)%Z) /\
    (forall n, In (LogOnlySucceeded n) effects -> n = successes a) /\
    (forall b, In (LogNoCredentials b) effects ->
       b = stopped a /\ filter isWrite effects = []).
Proof.
  intros a. unfold generateCombolist.
  set (toProcess := recordsToProcess records limit) in *.
  subst a. destruct (getApiLimits w0) as [lim w1]. cbn [snd].
  pose proof (limitCheck_no_summary lim (Z.of_nat (length toProcess))) as Hl.
  destruct (limitCheck lim (Z.of_nat (length toProcess))) as [t|t0] eqn:Ec.
  - exists t, w1. split; [reflexivity|].
    assert (Hno : forall e, isSummary e = true -> ~ In e t).
    { intros e He Hin.
      assert (In e (filter isSummary t)) by (apply filter_In; now split).
      rewrite Hl in H. destruct H. }
    split; [|split; [|split]]; intros n Hin; exfalso; revert Hin;
      now apply Hno.
  - match goal with
    | |- context [processRecords _ ?d ?pc _ ?s] =>
        destruct (processRecords_attempts World getFilePreview d pc toProcess s)
          as [st [Hrun [Hp [He [Ha [Hc [_ [_ _]]]]]]]];
        pose proof (processRecords_no_summary d pc toProcess s st Hrun) as Hs
    end.
    cbn [world trace processed errors apiExhausted allCredentials] in *.
    rewrite Hrun. eexists _, _. split; [reflexivity|].
    rewrite filter_app, Hl in Hs. cbn in Hs.
    set (a := attempts getFilePreview w1 toProcess) in *.
    rewrite Z.add_0_l in Hp, He. cbn [orb] in Ha.
    assert (Hin : forall e, isSummary e = true ->
              In e (finish (cleanDomain searchTerm)
                      (Z.of_nat (length toProcess)) st) ->
              In e (filter isSummary
                      (finish (cleanDomain searchTerm)
                         (Z.of_nat (length toProcess)) st)))
      by (intros e He' Hi; apply filter_In; now split).
    assert (Hfin :
      filter isSummary
        (finish (cleanDomain searchTerm) (Z.of_nat (length toProcess)) st)
      = (if apiExhausted st && (processed st <? Z.of_nat (length toProcess))%Z
         then [LogOnlySucceeded (processed st - errors st)] else []) ++
        (if (Z.of_nat (length (sort (allCredentials st))) =? 0)%Z
         then [LogNoCredentials (apiExhausted st)]
         else [WriteFile (cleanDomain searchTerm ++ lit ".txt")
                 (join [LF] (sort (allCredentials st)) ++ [LF]);
               LogGenerated (Z.of_nat (length (sort (allCredentials st))))]
              ++ (if (errors st >? 0)%Z
                  then [LogCouldNotProcess (errors st)] else []))).
    { unfold finish.
      destruct (apiExhausted st && (processed st <? _)%Z);
        destruct (Z.of_nat (length (sort (allCredentials st))) =? 0)%Z;
        destruct (errors st >? 0)%Z;
        rewrite ?filter_app, Hs; reflexivity. }
    assert (Hnd : NoDup (sort (allCredentials st))).
    { apply (Permutation_NoDup (Permutation_sym (sort_perm _))).
      rewrite Hc. apply addAll_NoDup. constructor. }
    assert (Hlf : forallb noLF (sort (allCredentials st)) = true).
    { apply forallb_forall. intros c Hci.
      apply (Permutation_in _ (sort_perm _)) in Hci.
      rewrite Hc in Hci. apply addAll_In in Hci as [[]|Hci].
      apply in_flat_map in Hci as [[r res] [_ Hci]].
      destruct res as [text|m]; [|contradiction].
      apply no_space_noLF. exact (found_clean _ _ _ Hci). }
    split; [|split; [|split]].
    + intros n Hn. apply Hin in Hn; [|reflexivity]. rewrite Hfin in Hn.
      apply in_app_iff in Hn as [Hn|Hn].
      { destruct (_ && _); [destruct Hn as [Hn|[]]; discriminate | destruct Hn]. }
      destruct (Z.of_nat (length (sort (allCredentials st))) =? 0)%Z eqn:E0.
      { destruct Hn as [Hn|[]]. discriminate. }
      destruct Hn as [Hn|[Hn|Hn]]; [discriminate| |].
      * injection Hn as <-.
        exists (cleanDomain searchTerm ++ lit ".txt"), (sort (allCredentials st)).
        split; [|split; [|split; [exact Hnd | reflexivity]]].
        -- apply finish_writes. intros Hnil. rewrite Hnil in E0. discriminate.
        -- apply splitOn_join; [|exact Hlf].
           intros Hnil. rewrite Hnil in E0. discriminate.
      * destruct (errors st >? 0)%Z; [destruct Hn as [Hn|[]]; discriminate|].
        destruct Hn.
    + intros n Hn. apply Hin in Hn; [|reflexivity]. rewrite Hfin in Hn.
      apply in_app_iff in Hn as [Hn|Hn].
      { destruct (_ && _); [destruct Hn as [Hn|[]]; discriminate | destruct Hn]. }
      destruct (Z.of_nat (length (sort (allCredentials st))) =? 0)%Z.
      { destruct Hn as [Hn|[]]. discriminate. }
      destruct Hn as [Hn|[Hn|Hn]]; [discriminate | discriminate |].
      destruct (errors st >? 0)%Z eqn:E; [|destruct Hn].
      destruct Hn as [Hn|[]]. injection Hn as <-.
      rewrite Z.gtb_ltb in E. apply Z.ltb_lt in E. split; [exact He | exact E].
    + intros n Hn. apply Hin in Hn; [|reflexivity]. rewrite Hfin in Hn.
      apply in_app_iff in Hn as [Hn|Hn].
      * destruct (_ && _); [|destruct Hn]. destruct Hn as [Hn|[]].
        injection Hn as <-. rewrite successes_failures, Hp, He. reflexivity.
      * destruct (Z.of_nat (length (sort (allCredentials st))) =? 0)%Z.
        { destruct Hn as [Hn|[]]. discriminate. }
        destruct Hn as [Hn|[Hn|Hn]]; [discriminate | discriminate |].
        destruct (errors st >? 0)%Z; [destruct Hn as [Hn|[]]; discriminate|].
        destruct Hn.
    + intros b Hn. apply Hin in Hn; [|reflexivity]. rewrite Hfin in Hn.
      apply in_app_iff in Hn as [Hn|Hn].
      { destruct (_ && _); [destruct Hn as [Hn|[]]; discriminate | destruct Hn]. }
      destruct (Z.of_nat (length (sort (allCredentials st))) =? 0)%Z eqn:E0.
      * destruct Hn as [Hn|[]]. injection Hn as <-. split; [exact Ha|].
        assert (Hsub : forall e, isWrite e = true -> isSummary e = true)
          by (intros []; cbn; congruence).
        apply filter_isWrite_nil. apply not_true_is_false. intros Hex.
        apply existsb_exists in Hex as [e [Hei Hew]].
        apply Hin in Hei; [|now apply Hsub]. rewrite Hfin in Hei.
        apply in_app_iff in Hei as [Hei|Hei].
        -- destruct (_ && _); [|destruct Hei]. destruct Hei as [<-|[]].
           discriminate.
        -- destruct Hei as [<-|[]]. discriminate.
      * destruct Hn as [Hn|[Hn|Hn]]; [discriminate | discriminate |].
        destruct (errors st >? 0)%Z; [destruct Hn as [Hn|[]]; discriminate|].
        destruct Hn.
Qed.

End Summary.

(* ================================================================== *)
(** * Texts without the domain *)
(* ================================================================== *)

Lemma sameText_app d dom rest :
  sameText d dom -> stripPrefix sameLetter d (dom ++ rest) = Some rest.
Proof.
  unfold sameText. revert dom. induction d as [|a d IH]; intros dom;
    cbn [stripPrefix].
  - intros H. injection H as ->. reflexivity.
  - destruct dom as [|c dom]; [discriminate|]. cbn [app].
    destruct (sameLetter a c); [apply IH | discriminate].
Qed.

Lemma occursFolded_absent domain text :
  occursFolded domain text = false ->
  forall before dom after,
    text = before ++ dom ++ after -> ~ sameText domain dom.
Proof.
  induction text as [|c text IH]; intros H before dom after E Hs.
  - cbn [occursFolded] in H.
    destruct before; [|discriminate]. cbn [app] in E.
    rewrite E, (sameText_app _ _ after Hs) in H. discriminate.
  - cbn [occursFolded] in H.
    destruct (stripPrefix sameLetter domain (c :: text)) eqn:Ep;
      [discriminate|].
    destruct before as [|b before].
    + cbn [app] in E. rewrite E, (sameText_app _ _ after Hs) in Ep.
      discriminate.
    + injection E as _ E. exact (IH H before dom after E Hs).
Qed.

(** X21: when the domain stands nowhere in a text, compared as the [i]
    flag of the pattern compares ([occursFolded] is false: no piece of
    the text is the domain up to the case of its units), the extractor
    finds no credential in it. *)
Theorem extractCredentials_needs_the_domain (text domain : str)
    (Habsent : occursFolded domain text = false) :
  (forall before dom after,
     text = before ++ dom ++ after -> ~ sameText domain dom) /\
  extractCredentials text domain = Some [].
Proof.
  pose proof (occursFolded_absent _ _ Habsent) as Hno.
  split; [exact Hno|].
  rewrite extractCredentials_found.
  destruct (foundCredentials text domain) as [|c l] eqn:E; [reflexivity|].
  exfalso.
  assert (Hin : In c (foundCredentials text domain))
    by (rewrite E; now left).
  apply found_occurrence in Hin.
  destruct Hin as [before [proto [dom [path [d [u [p [after
                     [Ht [_ [Hdom _]]]]]]]]]]].
  apply (Hno (before ++ proto) dom (path ++ d :: u ++ d :: p ++ after));
    [|exact Hdom].
  rewrite Ht, <- !app_assoc. reflexivity.
Qed.

Lemma extractCredentials_needs_the_domain_witness :
  occursFolded (lit "example.com") (lit "other.org:alice:secret1") = false /\
  (forall before dom after,
     lit "other.org:alice:secret1" = before ++ dom ++ after ->
     ~ sameText (lit "example.com") dom) /\
  extractCredentials (lit "other.org:alice:secret1") (lit "example.com")
  = Some [].
Proof.
  split; [reflexivity|].
  apply (extractCredentials_needs_the_domain (lit "other.org:alice:secret1")
           (lit "example.com")).
  reflexivity.
Defined.

(* ================================================================== *)
(** * The width of a context row *)
(* ================================================================== *)

Lemma visibleLength_le_len s : (visibleLength s <= len s)%Z.
Proof.
  unfold visibleLength, len.
  pose proof (strip_shorter (length s) s (le_n _)). lia.
Qed.

Section ContextRow.

Variable chalk : style -> str -> str.
Variable columns : option Z.

(** X22: on a terminal wide enough for the ellipsis (13 columns or more),
    and with a grey styling that [stripAnsiCodes] removes, a context line
    is always rendered as one row whose text, after the line number, has
    a visible length of at most the maximum width: the line itself when
    it fits, and otherwise its first [cut] units, for a [cut] of at most
    [width - 3], followed by the three dots. *)
Theorem context_row_fits_the_width
    (lineNumStr line : str)
    (Hwidth : (3 <= maxLineWidth columns)%Z)
    (Hchalk : forall m rest,
        plain m = true ->
        stripAnsiCodes (chalk Gray m ++ rest) = m ++ stripAnsiCodes rest) :
  exists shown,
    renderContextLine chalk columns lineNumStr line
    = chalk Gray (chr " " :: lineNumStr ++ lit ": ") ++ shown ++ [LF] /\
    (visibleLength shown <= maxLineWidth columns)%Z /\
    (shown = line \/
     exists cut,
       (cut <= maxLineWidth columns - 3)%Z /\
       shown = substring0 line cut ++ chalk Gray (lit "...")).
Proof.
  unfold renderContextLine.
  destruct (visibleLength line >? maxLineWidth columns)%Z eqn:E.
  - eexists. split; [reflexivity|].
    assert (Hcut : (truncateAt columns line <= maxLineWidth columns - 3)%Z).
    { unfold truncateAt. cbv zeta.
      destruct (beyondSeventyPercent _ _); [|lia].
      pose proof (lastSpace_spec line (maxLineWidth columns - 3)) as H.
      cbv zeta in H. destruct H as [[Hr _]|[Hr _]]; lia. }
    split; [|right; eexists; split; [exact Hcut | reflexivity]].
    pose proof (visibleLength_app
                  (substring0 line (truncateAt columns line))
                  (chalk Gray (lit "..."))) as Happ.
    pose proof (visibleLength_le_len
                  (substring0 line (truncateAt columns line))) as Hle.
    assert (Hdots : visibleLength (chalk Gray (lit "...")) = 3%Z).
    { unfold visibleLength.
      rewrite <- (app_nil_r (chalk Gray (lit "..."))).
      now rewrite (Hchalk (lit "...") [] eq_refl). }
    assert (Hlen : (len (substring0 line (truncateAt columns line))
                    <= Z.max 0 (truncateAt columns line))%Z)
      by (unfold substring0, len; rewrite length_firstn; lia).
    lia.
  - eexists. split; [reflexivity|]. split; [|now left].
    rewrite Z.gtb_ltb in E. now apply Z.ltb_ge in E.
Qed.

End ContextRow.

Lemma context_row_fits_the_width_witness :
  (3 <= maxLineWidth (Some 20%Z))%Z /\
  (forall m rest,
     plain m = true ->
     stripAnsiCodes (sampleChalk Gray m ++ rest) = m ++ stripAnsiCodes rest) /\
  exists shown,
    renderContextLine sampleChalk (Some 20%Z) (lit "    12")
      (lit "a line that is too long")
    = sampleChalk Gray (chr " " :: lit "    12" ++ lit ": ") ++ shown ++ [LF] /\
    (visibleLength shown <= maxLineWidth (Some 20%Z))%Z /\
    (shown = lit "a line that is too long" \/
     exists cut,
       (cut <= maxLineWidth (Some 20%Z) - 3)%Z /\
       shown = substring0 (lit "a line that is too long") cut ++
               sampleChalk Gray (lit "...")).
Proof.
  assert (Hc : forall m rest,
            plain m = true ->
            stripAnsiCodes (sampleChalk Gray m ++ rest)
            = m ++ stripAnsiCodes rest)
    by (intros m rest Hm; exact (strip_plain m rest Hm)).
  split; [cbv; discriminate|]. split; [exact Hc|].
  apply (context_row_fits_the_width sampleChalk (Some 20%Z) (lit "    12")
           (lit "a line that is too long")); [cbv; discriminate | exact Hc].
Defined.

(* ================================================================== *)
(** * Downloading the files of a tree *)
(* ================================================================== *)

Lemma requestsOf_app t1 t2 :
  requestsOf (t1 ++ t2) = requestsOf t1 ++ requestsOf t2.
Proof.
  induction t1 as [|e t1 IH]; [reflexivity|].
  destruct e; cbn [app requestsOf]; now rewrite IH.
Qed.

Lemma archivesOf_app t1 t2 :
  archivesOf (t1 ++ t2) = archivesOf t1 ++ archivesOf t2.
Proof.
  induction t1 as [|e t1 IH]; [reflexivity|].
  destruct e; cbn [app archivesOf]; now rewrite IH.
Qed.

Lemma reportsOf_app t1 t2 :
  reportsOf (t1 ++ t2) = reportsOf t1 ++ reportsOf t2.
Proof.
  induction t1 as [|e t1 IH]; [reflexivity|].
  destruct e; cbn [app reportsOf]; now rewrite IH.
Qed.

Section DownloadFacts.

Variable World : Type.
Variable downloadFile : str -> str -> World -> (str + str) * World.
Variable createZip : list (str * str) -> str -> World -> settlement * World.

Lemma downloadFiles_outcomes bucketName count todo :
  forall i downloadedFiles w t,
    let o := outcomes World downloadFile bucketName w todo in
    let '(downloadedFiles', w', t') :=
      downloadFiles World downloadFile bucketName count i todo
        downloadedFiles w t in
    downloadedFiles' = downloadedFiles ++ flat_map archived o /\
    w' = afterDownloads World downloadFile bucketName w todo /\
    requestsOf t' = requestsOf t ++ map (fun f => (did f, bucketName)) todo /\
    archivesOf t' = archivesOf t /\
    reportsOf t' = reportsOf t.
Proof.
  induction todo as [|f todo IH]; intros i downloadedFiles w t.
  - cbn. now rewrite !app_nil_r.
  - cbn [downloadFiles outcomes afterDownloads].
    destruct (downloadFile (did f) bucketName w) as [[data|message] w'];
      cbn [snd].
    + match goal with
      | |- context [downloadFiles _ _ _ _ ?i' _ ?d ?w0 ?t0] =>
          specialize (IH i' d w0 t0)
      end.
      cbv zeta in *.
      destruct (downloadFiles _ _ _ _ _ _ _ _ _) as [[d' w''] t'].
      destruct IH as [H1 [Hw [H2 [H3 H4]]]].
      split; [|split; [exact Hw|split; [|split]]].
      * rewrite H1. cbn [flat_map archived snd fst app].
        now rewrite <- app_assoc.
      * rewrite H2, !requestsOf_app. cbn [requestsOf map].
        rewrite !app_nil_r, <- app_assoc. reflexivity.
      * rewrite H3, !archivesOf_app. cbn [archivesOf]. now rewrite !app_nil_r.
      * rewrite H4, !reportsOf_app. cbn [reportsOf]. now rewrite !app_nil_r.
    + match goal with
      | |- context [downloadFiles _ _ _ _ ?i' _ ?d ?w0 ?t0] =>
          specialize (IH i' d w0 t0)
      end.
      cbv zeta in *.
      destruct (downloadFiles _ _ _ _ _ _ _ _ _) as [[d' w''] t'].
      destruct IH as [H1 [Hw [H2 [H3 H4]]]].
      split; [|split; [exact Hw|split; [|split]]].
      * rewrite H1. reflexivity.
      * rewrite H2, !requestsOf_app. cbn [requestsOf map].
        rewrite !app_nil_r, <- app_assoc. reflexivity.
      * rewrite H3, !archivesOf_app. cbn [archivesOf]. now rewrite !app_nil_r.
      * rewrite H4, !reportsOf_app. cbn [reportsOf]. now rewrite !app_nil_r.
Qed.

(** X23: the download of the selected files of a tree requests every
    selected file once, in the order of the selection, whatever fails on
    the way; a file whose download fails is left out and the others go
    on.  [createZip] is called once when at least one download succeeded,
    after the downloads, with exactly the files downloaded with success,
    in order and under their relative paths as [parseFileTree] gave them,
    and it is not called when none succeeded.  The line that tells the
    number of files downloaded is written only when [createZip] was
    called and its promise resolved; when it is rejected, the error
    leaves these lines and that line is not written.  What the archive
    then holds is left to [createZip]. *)
Theorem download_archives_what_succeeded
    (filesToDownload : list file) (bucketName outputPath : str) (w : World) :
  let o := outcomes World downloadFile bucketName w filesToDownload in
  let entries := flat_map archived o in
  let settled :=
    fst (createZip entries outputPath
           (afterDownloads World downloadFile bucketName w filesToDownload)) in
  let '(effects, ended, _) :=
    downloadSelected World downloadFile createZip filesToDownload bucketName
      outputPath w in
  requestsOf effects = map (fun f => (did f, bucketName)) filesToDownload /\
  map fst o = filesToDownload /\
  archivesOf effects
  = match entries with
    | [] => []
    | _ :: _ => [(entries, outputPath)]
    end /\
  ended
  = match entries, settled with
    | [], _ => Finished
    | _ :: _, Resolved => Finished
    | _ :: _, Rejected message => Thrown message
    | _ :: _, Pending => Waiting
    end /\
  reportsOf effects
  = match entries, settled with
    | _ :: _, Resolved => [(Z.of_nat (length entries), outputPath)]
    | _, _ => []
    end.
Proof.
  cbv zeta. unfold downloadSelected.
  assert (Ho : forall w0 l,
            map fst (outcomes World downloadFile bucketName w0 l) = l).
  { intros w0 l. revert w0. induction l as [|f l IH]; intros w0;
      [reflexivity|].
    cbn [outcomes]. destruct (downloadFile (did f) bucketName w0) as [res w1].
    cbn [map fst]. now rewrite IH. }
  destruct filesToDownload as [|f files]; [now repeat split|].
  replace (Z.of_nat (length (f :: files)) =? 0)%Z with false
    by (symmetry; apply Z.eqb_neq; cbn [length]; lia).
  pose proof (downloadFiles_outcomes bucketName
                (Z.of_nat (length (f :: files))) (f :: files) 0%Z [] w
                [LogDownloading (Z.of_nat (length (f :: files)))]) as H.
  cbv zeta in H.
  destruct (downloadFiles _ _ _ _ _ _ _ _ _) as [[d' w'] t'].
  destruct H as [H1 [Hw [H2 [H3 H4]]]].
  cbn [app requestsOf archivesOf reportsOf] in *.
  rewrite <- H1, <- Hw. destruct d' as [|x d'].
  - cbn [length Z.of_nat Z.gtb Z.compare].
    rewrite requestsOf_app, archivesOf_app, reportsOf_app, H2, H3, H4.
    cbn [requestsOf archivesOf reportsOf app]. rewrite app_nil_r.
    repeat split. apply Ho.
  - replace (Z.of_nat (length (x :: d')) >? 0)%Z with true
      by (symmetry; apply Z.gtb_lt; cbn [length]; lia).
    destruct (createZip (x :: d') outputPath w') as [[|message|] w''];
      cbn [fst];
      rewrite requestsOf_app, archivesOf_app, reportsOf_app, H2, H3, H4;
      cbn [requestsOf archivesOf reportsOf app]; rewrite app_nil_r;
      repeat split; apply Ho.
Qed.

(** X24: when all the files that [parseFileTree] finds in a page are
    downloaded, no file is requested twice: there is one request for each
    entry, and the requests are pairwise distinct. *)
Theorem tree_download_requests_each_file_once
    (html bucketName outputPath : str) (w : World) :
  exists files,
    parseFileTree html = Some files /\
    requestsOf
      (fst (fst (downloadSelected World downloadFile createZip files
                   bucketName outputPath w)))
    = map (fun f => (did f, bucketName)) files /\
    NoDup (requestsOf
             (fst (fst (downloadSelected World downloadFile createZip files
                          bucketName outputPath w)))).
Proof.
  destruct (parseFileTree_invariant html) as [files [E [Hnd _]]].
  exists files. split; [exact E|].
  assert (Hr : requestsOf
                 (fst (fst (downloadSelected World downloadFile createZip
                              files bucketName outputPath w)))
               = map (fun f => (did f, bucketName)) files).
  { unfold downloadSelected.
    destruct files as [|f files]; [reflexivity|].
    replace (Z.of_nat (length (f :: files)) =? 0)%Z with false
      by (symmetry; apply Z.eqb_neq; cbn [length]; lia).
    pose proof (downloadFiles_outcomes bucketName
                  (Z.of_nat (length (f :: files))) (f :: files) 0%Z [] w
                  [LogDownloading (Z.of_nat (length (f :: files)))]) as H.
    cbv zeta in H.
    destruct (downloadFiles _ _ _ _ _ _ _ _ _) as [[d' w'] t'].
    destruct H as [_ [_ [H2 _]]]. cbn [app requestsOf] in H2.
    destruct (Z.of_nat (length d') >? 0)%Z;
      [destruct (createZip d' outputPath w') as [[|message|] w'']|];
      cbn [fst]; rewrite requestsOf_app, H2; cbn [requestsOf];
      now rewrite app_nil_r. }
  split; [exact Hr|]. rewrite Hr. clear Hr E.
  induction files as [|f files IH]; [constructor|].
  cbn [map] in *. inversion Hnd as [|? ? Hf Hrest]; subst.
  constructor; [|exact (IH Hrest)].
  intros Hin. apply Hf. apply in_map_iff in Hin as [g [Hg Hin]].
  injection Hg as Hg. apply in_map_iff. now exists g.
Qed.

End DownloadFacts.
